(** * kubernetes-scraper: the relationship graph and its event handlers

    A shallow embedding of the [graph] package (the [Graph] store with
    [AddNode], [RemoveNode], [AddRelationship], [RemoveRelationship]) and
    of the [main] package's [listAllResources], [updateRelationships],
    [removeResourceRelationships] and the body of the watch loop of
    [watchResource], followed by the properties of the specification
    that concern them.

    Conventions of the embedding.
    - Go's [interface{}] values are the type [Value] (what
      [ToUnstructured] builds: nil, bool, int64, string,
      [[]interface{}], [map[string]interface{}]); a failed type
      assertion [x.(T)] without the comma-ok form is a run-time panic,
      which halts the program: functions that may panic return
      [Result], with [Panic] for that outcome.
    - Go's [int] is a 64-bit signed integer: counters are [Z] with the
      wrap-around written out ([int_wrap]).
    - The slices [g.Nodes] and [g.Relationships] are lists.  The only
      place where a slice is read through an older slice header while
      its backing array is being rewritten is the [range] loop of
      [removeResourceRelationships]; that loop carries the cells of the
      backing array explicitly.
    - Go leaves the iteration order of a map unspecified; the model
      enumerates a map with [map_to_list], one of the orders a run may
      take.  Whether a selector matches does not depend on the order
      ([selectorMatches_true]), and in a reachable state the nodes and
      the set of edges that a service event leaves do not depend on
      the order in which it visits the pod cache
      ([updateRelationships_any_order]).
    - The watchers run one goroutine per kind; the model processes the
      events one at a time, in some interleaving. *)

From stdpp Require Import base strings list gmap sets pretty sorting.

Set Warnings "-register-all,-clear-no-such-hyp".
Open Scope Z_scope.

(** ** Panics *)

Inductive Result (A : Type) : Type :=
| Ok (a : A)
| Panic.
Arguments Ok {A} a.
Arguments Panic {A}.

Definition bind {A B : Type} (r : Result A) (f : A → Result B) : Result B :=
  match r with
  | Ok a => f a
  | Panic => Panic
  end.

Notation "'let*' x := r 'in' k" := (bind r (fun x => k))
  (at level 10, x name, r at level 200, k at level 200).

(** A [for _, x := range xs] loop whose body may panic. *)
Fixpoint forM {A S : Type} (body : S → A → Result S) (s : S) (xs : list A)
  : Result S :=
  match xs with
  | [] => Ok s
  | x :: xs' => let* s' := body s x in forM body s' xs'
  end.

(** ** Dynamic values *)

Inductive Value : Type :=
| VNil
| VBool (b : bool)
| VInt (z : Z)
| VString (s : string)
| VList (l : list Value)
| VMap (m : gmap string Value).

(** [m[k]] on a [map[string]interface{}]: a missing key reads as nil. *)
Definition index (m : gmap string Value) (k : string) : Value :=
  default VNil (m !! k).

(** [v.(map[string]interface{})] *)
Definition asMap (v : Value) : Result (gmap string Value) :=
  match v with
  | VMap m => Ok m
  | _ => Panic
  end.

(** [v.(string)] *)
Definition asString (v : Value) : Result string :=
  match v with
  | VString s => Ok s
  | _ => Panic
  end.

(** [v.([]interface{})] *)
Definition asList (v : Value) : Result (list Value) :=
  match v with
  | VList l => Ok l
  | _ => Panic
  end.

(** [a == b] on two interface values: values of different dynamic types
    differ; comparing two values of the same uncomparable type (slice,
    map) panics. *)
Definition ifaceEq (a b : Value) : Result bool :=
  match a, b with
  | VNil, VNil => Ok true
  | VBool x, VBool y => Ok (bool_decide (x = y))
  | VInt x, VInt y => Ok (bool_decide (x = y))
  | VString x, VString y => Ok (bool_decide (x = y))
  | VList _, VList _ => Panic
  | VMap _, VMap _ => Panic
  | _, _ => Ok false
  end.

(** ** Typed API objects

    Only the fields that [objectToGraphNode] reads.  [Replicas] is a
    pointer ([*int32]) in the API types. *)

Inductive ApiObject : Type :=
| Pod (name namespace phase : string)
| ReplicaSet (name namespace : string) (replicas : option Z)
| Deployment (name namespace : string) (replicas : option Z)
| Node (name phase : string)
| Service (name namespace svcType : string)
| ConfigMap (name namespace : string) (data : gmap string string).

(** What an [interface{}] argument can hold: a pointer to an API object
    (what a watch event carries), an API object by value (what the
    [List*] wrappers of [k8sclient] store in their result), or a plain
    dynamic value. *)
Inductive Iface : Type :=
| IPtr (o : ApiObject)
| IStruct (o : ApiObject)
| IVal (v : Value).

(** [x.(map[string]interface{})] on such an argument. *)
Definition ifaceAsMap (x : Iface) : Result (gmap string Value) :=
  match x with
  | IVal v => asMap v
  | _ => Panic
  end.

(** ** The graph package *)

Record EntityKey : Type := mkKey {
  Name : string;
  Namespace : string;
  Type_ : string
}.

Record GraphNode : Type := mkNode {
  Key : EntityKey;
  Properties : gmap string string;
  Revision : Z
}.

Record GraphRelationship : Type := mkRel {
  Source : EntityKey;
  Target : EntityKey;
  RelationshipType : string;
  RelProperties : option (gmap string string);
  RelRevision : Z
}.

Record Graph : Type := mkGraph {
  Nodes : list GraphNode;
  Relationships : list GraphRelationship;
  revision : Z
}.

Global Instance EntityKey_eq_dec : EqDecision EntityKey.
Proof. solve_decision. Defined.

Global Instance GraphNode_eq_dec : EqDecision GraphNode.
Proof. solve_decision. Defined.

Global Instance GraphRelationship_eq_dec : EqDecision GraphRelationship.
Proof. solve_decision. Defined.

Global Instance Graph_eq_dec : EqDecision Graph.
Proof. solve_decision. Defined.

(** [x++] on an [int]. *)
Definition int_wrap (z : Z) : Z := (z + 2 ^ 63) `mod` 2 ^ 64 - 2 ^ 63.
Definition incr (z : Z) : Z := int_wrap (z + 1).

Definition NewGraph : Graph :=
  {| Nodes := []; Relationships := []; revision := 1 |}.

(** The three-field comparison that every loop of the package spells
    out. *)
Definition keyEq (a b : EntityKey) : bool :=
  bool_decide (Name a = Name b) && bool_decide (Namespace a = Namespace b)
  && bool_decide (Type_ a = Type_ b).

(** [fmt.Sprintf("%d", n)] *)
Definition sprintf_d (n : Z) : string := pretty n.

(** [fmt.Sprintf("%v", m)] for a [map[string]string]: the entries in
    key order, as [map[k1:v1 k2:v2]]. *)
Definition string_le (a b : string) : Prop :=
  match String.compare a b with
  | Gt => False
  | _ => True
  end.

Global Instance string_le_dec : RelDecision string_le.
Proof. intros a b. unfold string_le. destruct (String.compare a b); apply _. Defined.

Definition entry_le (a b : string * string) : Prop := string_le a.1 b.1.

Global Instance entry_le_dec : RelDecision entry_le.
Proof. intros a b. unfold entry_le. apply _. Defined.

Fixpoint join_entries (l : list (string * string)) : string :=
  match l with
  | [] => ""
  | [(k, v)] => k +:+ ":" +:+ v
  | (k, v) :: rest => k +:+ ":" +:+ v +:+ " " +:+ join_entries rest
  end.

Definition sprintf_v (m : gmap string string) : string :=
  "map[" +:+ join_entries (merge_sort entry_le (map_to_list m)) +:+ "]".

(** [objectToGraphNode]: [Ok None] is the nil result of the default
    case; dereferencing a nil [Replicas] panics. *)
Definition objectToGraphNode (obj : Iface) : Result (option GraphNode) :=
  match obj with
  | IPtr (Pod name namespace phase) =>
      Ok (Some (mkNode (mkKey name namespace "Pod")
                       {[ "status" := phase ]} 1))
  | IPtr (ReplicaSet name namespace replicas) =>
      match replicas with
      | Some n => Ok (Some (mkNode (mkKey name namespace "ReplicaSet")
                                   {[ "replicas" := sprintf_d n ]} 1))
      | None => Panic
      end
  | IPtr (Deployment name namespace replicas) =>
      match replicas with
      | Some n => Ok (Some (mkNode (mkKey name namespace "Deployment")
                                   {[ "replicas" := sprintf_d n ]} 1))
      | None => Panic
      end
  | IPtr (Node name phase) =>
      Ok (Some (mkNode (mkKey name "" "Node") {[ "status" := phase ]} 1))
  | IPtr (Service name namespace svcType) =>
      Ok (Some (mkNode (mkKey name namespace "Service")
                       {[ "type" := svcType ]} 1))
  | IPtr (ConfigMap name namespace data) =>
      Ok (Some (mkNode (mkKey name namespace "ConfigMap")
                       {[ "data" := sprintf_v data ]} 1))
  | _ => Ok None
  end.

(** The loop of [AddNode]: overwrite the first node with the same key,
    or report that there is none. *)
Fixpoint replaceNode (node : GraphNode) (ns : list GraphNode)
  : option (list GraphNode) :=
  match ns with
  | [] => None
  | n :: rest =>
      if keyEq (Key n) (Key node) then Some (node :: rest)
      else match replaceNode node rest with
           | Some rest' => Some (n :: rest')
           | None => None
           end
  end.

Definition AddNode (g : Graph) (obj : Iface) : Result Graph :=
  let* r := objectToGraphNode obj in
  match r with
  | None => Ok g
  | Some node =>
      match replaceNode node (Nodes g) with
      | Some ns => Ok (mkGraph ns (Relationships g) (incr (revision g)))
      | None =>
          Ok (mkGraph (Nodes g ++ [node]) (Relationships g)
                      (incr (revision g)))
      end
  end.

Definition UpdateNode (g : Graph) (obj : Iface) : Result Graph :=
  AddNode g obj.

(** The first loop of [RemoveNode]: drop the first node with the key. *)
Fixpoint dropNode (k : EntityKey) (ns : list GraphNode)
  : option (list GraphNode) :=
  match ns with
  | [] => None
  | n :: rest =>
      if keyEq (Key n) k then Some rest
      else match dropNode k rest with
           | Some rest' => Some (n :: rest')
           | None => None
           end
  end.

Definition involves (k : EntityKey) (rel : GraphRelationship) : bool :=
  keyEq (Source rel) k || keyEq (Target rel) k.

(** The second loop of [RemoveNode] (the index loop with [i--]): every
    relationship that involves the key goes. *)
Definition dropIncident (k : EntityKey) (rs : list GraphRelationship)
  : list GraphRelationship :=
  filter (fun rel => involves k rel = false) rs.

(** [RemoveNode] returns from inside the first loop when it finds the
    node, so the second loop runs only when the node is absent. *)
Definition RemoveNode (g : Graph) (obj : Iface) : Result Graph :=
  let* r := objectToGraphNode obj in
  match r with
  | None => Ok g
  | Some node =>
      match dropNode (Key node) (Nodes g) with
      | Some ns => Ok (mkGraph ns (Relationships g) (incr (revision g)))
      | None =>
          Ok (mkGraph (Nodes g) (dropIncident (Key node) (Relationships g))
                      (revision g))
      end
  end.

(** The identity test of [AddRelationship] and [RemoveRelationship]. *)
Definition relMatches (source target : EntityKey) (relationshipType : string)
    (rel : GraphRelationship) : bool :=
  keyEq (Source rel) source && keyEq (Target rel) target
  && bool_decide (RelationshipType rel = relationshipType).

(** The loop of [AddRelationship]: refresh the first relationship with
    the same identity. *)
Fixpoint refreshRel (source target : EntityKey) (relationshipType : string)
    (properties : option (gmap string string)) (rs : list GraphRelationship)
  : option (list GraphRelationship) :=
  match rs with
  | [] => None
  | rel :: rest =>
      if relMatches source target relationshipType rel
      then Some (mkRel (Source rel) (Target rel) (RelationshipType rel)
                       properties (incr (RelRevision rel)) :: rest)
      else match refreshRel source target relationshipType properties rest with
           | Some rest' => Some (rel :: rest')
           | None => None
           end
  end.

Definition AddRelationship (g : Graph) (source target : EntityKey)
    (relationshipType : string) (properties : option (gmap string string))
  : Graph :=
  match refreshRel source target relationshipType properties
          (Relationships g) with
  | Some rs => mkGraph (Nodes g) rs (incr (revision g))
  | None =>
      mkGraph (Nodes g)
        (Relationships g
           ++ [mkRel source target relationshipType properties 1])
        (incr (revision g))
  end.

(** The loop of [RemoveRelationship]: the index of the first
    relationship with the identity. *)
Fixpoint findRel (source target : EntityKey) (relationshipType : string)
    (rs : list GraphRelationship) : option nat :=
  match rs with
  | [] => None
  | rel :: rest =>
      if relMatches source target relationshipType rel then Some 0%nat
      else S <$> findRel source target relationshipType rest
  end.

(** [append(s[:i], s[i+1:]...)] as the new slice. *)
Definition cut {A : Type} (i : nat) (s : list A) : list A :=
  take i s ++ drop (S i) s.

Definition RemoveRelationship (g : Graph) (source target : EntityKey)
    (relationshipType : string) : Graph :=
  match findRel source target relationshipType (Relationships g) with
  | Some i => mkGraph (Nodes g) (cut i (Relationships g)) (incr (revision g))
  | None => g
  end.

(** ** The main package *)

(** The process state: the graph and the two global caches. *)
Record State : Type := mkState {
  graph : Graph;
  podCache : gmap string (gmap string Value);
  serviceCache : gmap string (gmap string Value)
}.

Definition initState : State := mkState NewGraph ∅ ∅.

(** [fmt.Sprintf("%s/%s", namespace, name)] *)
Definition cacheKey (namespace name : string) : string :=
  namespace +:+ "/" +:+ name.

(** The label map of a pod, with the nil check of the source. *)
Definition labelsOf (metadata : gmap string Value)
  : Result (gmap string Value) :=
  match metadata !! "labels" with
  | None | Some VNil => Ok ∅
  | Some v => asMap v
  end.

(** The selector of a service in [listAllResources], with its nil
    check. *)
Definition selectorOf (spec : gmap string Value)
  : Result (gmap string Value) :=
  match spec !! "selector" with
  | None | Some VNil => Ok ∅
  | Some v => asMap v
  end.

(** The owner references of a pod in [listAllResources], with their nil
    check. *)
Definition ownerRefsOf (metadata : gmap string Value)
  : Result (list Value) :=
  match metadata !! "ownerReferences" with
  | None | Some VNil => Ok []
  | Some v => asList v
  end.

(** [matches := true; for key, value := range selector { if
    podLabels[key] != value { matches = false; break } }] *)
Fixpoint selectorLoop (podLabels : gmap string Value)
    (entries : list (string * Value)) : Result bool :=
  match entries with
  | [] => Ok true
  | (key, value) :: rest =>
      let* same := ifaceEq (index podLabels key) value in
      if same then selectorLoop podLabels rest else Ok false
  end.

Definition selectorMatches (selector podLabels : gmap string Value)
  : Result bool :=
  selectorLoop podLabels (map_to_list selector).

(** The body of the owner-reference loops: an [owned_by] edge to each
    owner of the wanted kind, in the namespace of the owned object. *)
Definition ownerStep (srcType wanted name namespace : string)
    (g : Graph) (ownerRef : Value) : Result Graph :=
  let* owner := asMap ownerRef in
  let* kind := asString (index owner "kind") in
  if bool_decide (kind = wanted) then
    let* ownerName := asString (index owner "name") in
    Ok (AddRelationship g (mkKey name namespace srcType)
          (mkKey ownerName namespace wanted) "owned_by" None)
  else Ok g.

(** The body of the volume loops: a [uses] edge for each volume that
    has a [configMap] entry. *)
Definition volumeStep (name namespace : string)
    (g : Graph) (volume : Value) : Result Graph :=
  let* vol := asMap volume in
  match vol !! "configMap" with
  | Some configMap =>
      let* cm := asMap configMap in
      let* configMapName := asString (index cm "name") in
      Ok (AddRelationship g (mkKey name namespace "Deployment")
            (mkKey configMapName namespace "ConfigMap") "uses" None)
  | None => Ok g
  end.

(** The body of the pod loop of the [Service] case of
    [updateRelationships]. *)
Definition targetStep (name namespace : string)
    (selector : gmap string Value) (g : Graph) (pod : gmap string Value)
  : Result Graph :=
  let* metadata := asMap (index pod "metadata") in
  let* podName := asString (index metadata "name") in
  let* podNamespace := asString (index metadata "namespace") in
  let* podLabels := labelsOf metadata in
  let* matches := selectorMatches selector podLabels in
  if matches then
    Ok (AddRelationship g (mkKey name namespace "Service")
          (mkKey podName podNamespace "Pod") "targets" None)
  else
    Ok (RemoveRelationship g (mkKey name namespace "Service")
          (mkKey podName podNamespace "Pod") "targets").

(** The pods that a [range podCache] visits, in the order the model
    takes. *)
Definition rangePods (cache : gmap string (gmap string Value))
  : list (gmap string Value) :=
  (map_to_list cache).*2.

(** [updateRelationships]; [pods] are the cached pods in the order the
    [range] of the [Service] case visits them.  No other case reads the
    pod cache, and no case reads the service cache. *)
Definition updateRelationships (g : Graph)
    (pods : list (gmap string Value)) (obj : gmap string Value)
    (resourceType name namespace : string) : Result Graph :=
  if bool_decide (resourceType = "Pod") then
    let* spec := asMap (index obj "spec") in
    let g1 :=
      match index spec "nodeName" with
      | VString nodeName =>
          if bool_decide (nodeName ≠ "") then
            AddRelationship g (mkKey name namespace "Pod")
              (mkKey nodeName "" "Node") "runs_on" None
          else g
      | _ => g
      end in
    let* metadata := asMap (index obj "metadata") in
    match index metadata "ownerReferences" with
    | VList ownerRefs =>
        forM (ownerStep "Pod" "ReplicaSet" name namespace) g1 ownerRefs
    | _ => Ok g1
    end
  else if bool_decide (resourceType = "ReplicaSet") then
    let* metadata := asMap (index obj "metadata") in
    match index metadata "ownerReferences" with
    | VList ownerRefs =>
        forM (ownerStep "ReplicaSet" "Deployment" name namespace) g ownerRefs
    | _ => Ok g
    end
  else if bool_decide (resourceType = "Service") then
    let* spec := asMap (index obj "spec") in
    match index spec "selector" with
    | VMap selector =>
        forM (targetStep name namespace selector) g pods
    | _ => Ok g
    end
  else if bool_decide (resourceType = "Deployment") then
    let* spec := asMap (index obj "spec") in
    let* template := asMap (index spec "template") in
    let* tspec := asMap (index template "spec") in
    match index tspec "volumes" with
    | VList volumes => forM (volumeStep name namespace) g volumes
    | _ => Ok g
    end
  else Ok g.

(** The cells of a backing array after [append(s[:i], s[i+1:]...)] on
    the slice [s] of length [n] that starts the array: the cells after
    [i] move one place left and the cell [n-1] keeps its old content. *)
Definition shiftCells {A : Type} (i n : nat) (cells : list A) : list A :=
  take i cells ++ drop (S i) (take n cells) ++ drop (n - 1) cells.

(** [g.RemoveRelationship] as seen by a holder of the old slice header:
    the new graph and the rewritten cells. *)
Definition removeInPlace (g : Graph) (cells : list GraphRelationship)
    (source target : EntityKey) (relationshipType : string)
  : Graph * list GraphRelationship :=
  (RemoveRelationship g source target relationshipType,
   match findRel source target relationshipType (Relationships g) with
   | Some j => shiftCells j (length (Relationships g)) cells
   | None => cells
   end).

(** The [range g.Relationships] loop of [removeResourceRelationships]:
    the slice header is read once, so the loop visits the indices
    [0 .. len-1] of the cells it started with, reading each cell when
    it gets there, while the calls of [RemoveRelationship] in its body
    shift those cells. *)
Fixpoint rangeRemove (key : EntityKey) (i count : nat)
    (cells : list GraphRelationship) (g : Graph) : Graph :=
  match count with
  | O => g
  | S count' =>
      match cells !! i with
      | None => g
      | Some rel =>
          if involves key rel then
            let '(g', cells') :=
              removeInPlace g cells (Source rel) (Target rel)
                (RelationshipType rel) in
            rangeRemove key (S i) count' cells' g'
          else rangeRemove key (S i) count' cells g
      end
  end.

Definition removeResourceRelationships (g : Graph) (key : EntityKey)
  : Graph :=
  rangeRemove key 0 (length (Relationships g)) (Relationships g) g.

(** *** The watch loop *)

Inductive EventType : Type := Added | Modified | Deleted | Bookmark | Error.

(** One delivery on a watcher: the kind the watcher was started for,
    the event type, the object, and what the unstructured converter
    made of the object ([None] when it failed). *)
Record Event : Type := mkEvent {
  resourceType : string;
  evType : EventType;
  evObject : Iface;
  evUnstructured : option (gmap string Value)
}.

(** The namespace of the event's object, with the nil check. *)
Definition namespaceOf (metadata : gmap string Value) : Result string :=
  match metadata !! "namespace" with
  | None | Some VNil => Ok ""
  | Some v => asString v
  end.

Definition cachePut (rt key : string) (obj : gmap string Value)
    (st : State) (g : Graph) : State :=
  if bool_decide (rt = "Pod") then
    mkState g (<[key := obj]> (podCache st)) (serviceCache st)
  else if bool_decide (rt = "Service") then
    mkState g (podCache st) (<[key := obj]> (serviceCache st))
  else mkState g (podCache st) (serviceCache st).

Definition cacheDelete (rt key : string) (st : State) (g : Graph) : State :=
  if bool_decide (rt = "Pod") then
    mkState g (delete key (podCache st)) (serviceCache st)
  else if bool_decide (rt = "Service") then
    mkState g (podCache st) (delete key (serviceCache st))
  else mkState g (podCache st) (serviceCache st).

(** The body of the [case event, ok := <-watcher.ResultChan()] branch
    of [watchResource] for one event. *)
Definition handleEvent (st : State) (e : Event) : Result State :=
  match evUnstructured e with
  | None => Ok st
  | Some unstructuredObj =>
      let* metadata := asMap (index unstructuredObj "metadata") in
      let* name := asString (index metadata "name") in
      let* namespace := namespaceOf metadata in
      match evType e with
      | Added =>
          let* g1 := AddNode (graph st) (evObject e) in
          let* g2 := updateRelationships g1 (rangePods (podCache st))
                       unstructuredObj (resourceType e) name namespace in
          Ok (cachePut (resourceType e) (cacheKey namespace name)
                unstructuredObj st g2)
      | Modified =>
          let* g1 := UpdateNode (graph st) (evObject e) in
          let* g2 := updateRelationships g1 (rangePods (podCache st))
                       unstructuredObj (resourceType e) name namespace in
          Ok (cachePut (resourceType e) (cacheKey namespace name)
                unstructuredObj st g2)
      | Deleted =>
          let* g1 := RemoveNode (graph st) (evObject e) in
          let g2 :=
            removeResourceRelationships g1
              (mkKey name namespace (resourceType e)) in
          Ok (cacheDelete (resourceType e) (cacheKey namespace name) st g2)
      | _ => Ok st
      end
  end.

(** A run of the watchers: the events in the order they are taken. *)
Definition run (st : State) (events : list Event) : Result State :=
  forM handleEvent st events.

(** *** The initial listing *)

(** What the six [List*] calls of the client return: the items, or
    [None] when the call returned an error. *)
Record Cluster : Type := mkCluster {
  listPods : option (list Iface);
  listReplicaSets : option (list Iface);
  listDeployments : option (list Iface);
  listNodes : option (list Iface);
  listServices : option (list Iface);
  listConfigMaps : option (list Iface)
}.

(** The body of the two cache-filling loops. *)
Definition cacheStep (cache : gmap string (gmap string Value)) (item : Iface)
  : Result (gmap string (gmap string Value)) :=
  let* obj := ifaceAsMap item in
  let* metadata := asMap (index obj "metadata") in
  let* name := asString (index metadata "name") in
  let* namespace := asString (index metadata "namespace") in
  Ok (<[cacheKey namespace name := obj]> cache).

(** The body of the pod loop under [// Create relationships]. *)
Definition listPodStep (g : Graph) (pod : Iface) : Result Graph :=
  let* podObj := ifaceAsMap pod in
  let* metadata := asMap (index podObj "metadata") in
  let* podName := asString (index metadata "name") in
  let* podNamespace := asString (index metadata "namespace") in
  let* spec := asMap (index podObj "spec") in
  let* nodeName := asString (index spec "nodeName") in
  let* ownerRefs := ownerRefsOf metadata in
  let g1 :=
    if bool_decide (nodeName ≠ "") then
      AddRelationship g (mkKey podName podNamespace "Pod")
        (mkKey nodeName "" "Node") "runs_on" None
    else g in
  forM (ownerStep "Pod" "ReplicaSet" podName podNamespace) g1 ownerRefs.

(** The body of the replica-set loop. *)
Definition listReplicaSetStep (g : Graph) (rs : Iface) : Result Graph :=
  let* rsObj := ifaceAsMap rs in
  let* metadata := asMap (index rsObj "metadata") in
  let* rsName := asString (index metadata "name") in
  let* rsNamespace := asString (index metadata "namespace") in
  let* ownerRefs := asList (index metadata "ownerReferences") in
  forM (ownerStep "ReplicaSet" "Deployment" rsName rsNamespace) g ownerRefs.

(** The body of the inner pod loop of the service loop: edges are
    added, never removed. *)
Definition listTargetStep (serviceName serviceNamespace : string)
    (selector : gmap string Value) (g : Graph) (pod : Iface)
  : Result Graph :=
  let* podObj := ifaceAsMap pod in
  let* metadata := asMap (index podObj "metadata") in
  let* podName := asString (index metadata "name") in
  let* podNamespace := asString (index metadata "namespace") in
  let* podLabels := labelsOf metadata in
  let* matches := selectorMatches selector podLabels in
  if matches then
    Ok (AddRelationship g (mkKey serviceName serviceNamespace "Service")
          (mkKey podName podNamespace "Pod") "targets" None)
  else Ok g.

(** The body of the service loop. *)
Definition listServiceStep (pods : list Iface) (g : Graph) (service : Iface)
  : Result Graph :=
  let* serviceObj := ifaceAsMap service in
  let* metadata := asMap (index serviceObj "metadata") in
  let* serviceName := asString (index metadata "name") in
  let* serviceNamespace := asString (index metadata "namespace") in
  let* spec := asMap (index serviceObj "spec") in
  let* selector := selectorOf spec in
  forM (listTargetStep serviceName serviceNamespace selector) g pods.

(** The body of the deployment loop. *)
Definition listDeploymentStep (g : Graph) (deployment : Iface)
  : Result Graph :=
  let* deploymentObj := ifaceAsMap deployment in
  let* metadata := asMap (index deploymentObj "metadata") in
  let* deploymentName := asString (index metadata "name") in
  let* deploymentNamespace := asString (index metadata "namespace") in
  let* spec := asMap (index deploymentObj "spec") in
  let* template := asMap (index spec "template") in
  let* tspec := asMap (index template "spec") in
  let* volumes := asList (index tspec "volumes") in
  forM (volumeStep deploymentName deploymentNamespace) g volumes.

(** [listAllResources]: the state it leaves and whether it returned
    nil ([true]) or an error ([false]); [main] logs the error and goes
    on to the watchers with the state reached so far. *)
Definition listAllResources (c : Cluster) (st : State)
  : Result (State * bool) :=
  match listPods c with
  | None => Ok (st, false)
  | Some pods =>
  let* pc := forM cacheStep (podCache st) pods in
  let* g := forM AddNode (graph st) pods in
  match listReplicaSets c with
  | None => Ok (mkState g pc (serviceCache st), false)
  | Some replicasets =>
  let* g := forM AddNode g replicasets in
  match listDeployments c with
  | None => Ok (mkState g pc (serviceCache st), false)
  | Some deployments =>
  let* g := forM AddNode g deployments in
  match listNodes c with
  | None => Ok (mkState g pc (serviceCache st), false)
  | Some nodes =>
  let* g := forM AddNode g nodes in
  match listServices c with
  | None => Ok (mkState g pc (serviceCache st), false)
  | Some services =>
  let* sc := forM cacheStep (serviceCache st) services in
  let* g := forM AddNode g services in
  match listConfigMaps c with
  | None => Ok (mkState g pc sc, false)
  | Some configmaps =>
  let* g := forM AddNode g configmaps in
  let* g := forM listPodStep g pods in
  let* g := forM listReplicaSetStep g replicasets in
  let* g := forM (listServiceStep pods) g services in
  let* g := forM listDeploymentStep g deployments in
  Ok (mkState g pc sc, true)
  end end end end end end.

(** The states the program can be in between two events: [main] runs
    the listing on the initial state, then the watchers. *)
Definition reachable (st : State) : Prop :=
  ∃ c events st0 listed,
    listAllResources c initState = Ok (st0, listed) ∧ run st0 events = Ok st.

(** ** Views of the graph used by the properties *)

(** The identity of an edge: (source, target, relationshipType). *)
Definition EdgeId : Type := EntityKey * EntityKey * string.

Definition edgeId (rel : GraphRelationship) : EdgeId :=
  (Source rel, Target rel, RelationshipType rel).

Definition edgeIds (g : Graph) : list EdgeId := edgeId <$> Relationships g.

Definition nodeKeys (g : Graph) : list EntityKey := Key <$> Nodes g.

(** What [json.MarshalIndent(g, ...)] in [emitGraph] serializes: the
    exported fields, each slice in slice order. *)
Definition snapshot (g : Graph) : list GraphNode * list GraphRelationship :=
  (Nodes g, Relationships g).

Global Instance EntityKey_countable : Countable EntityKey.
Proof.
  refine (inj_countable' (fun k => (Name k, Namespace k, Type_ k))
            (fun t => mkKey t.1.1 t.1.2 t.2) _).
  by intros [].
Defined.


(** ** The shape of an edge update

    Every handler acts on the edges of the graph as one fixed update:
    either it panics whatever the graph, or it removes a fixed set of
    identities and adds a fixed set, and leaves the nodes alone. *)

Definition edgeSet (g : Graph) : gset EdgeId := list_to_set (edgeIds g).

Definition edgeUpdate (f : Graph → Result Graph) : Prop :=
  (∀ g, f g = Panic) ∨
  ∃ A R : gset EdgeId, ∀ g, ∃ g',
    f g = Ok g' ∧ Nodes g' = Nodes g ∧
    (NoDup (edgeIds g) →
     NoDup (edgeIds g') ∧ edgeSet g' = (edgeSet g ∖ R) ∪ A).


(** A loop body that never removes an edge: the edge list it is given
    is a prefix of the one it returns. *)
Definition edgeGrowth {A : Type} (body : Graph → A → Result Graph) : Prop :=
  ∀ g x g', body g x = Ok g' → edgeIds g `prefix_of` edgeIds g'.

(** One requested edge addition: source, target, type, properties. *)
Definition EdgeAdd : Type :=
  EntityKey * EntityKey * string * option (gmap string string).

Definition addEdge (g : Graph) (a : EdgeAdd) : Graph :=
  AddRelationship g a.1.1.1 a.1.1.2 a.1.2 a.2.

(** The single-valued reading of the rules [runs_on], [owned_by] and
    [uses]: one target for each (source, relationshipType). *)
Definition singleValued (ids : list EdgeId) : Prop :=
  ∀ s t1 t2 ty,
    ty ∈ ["runs_on"; "owned_by"; "uses"] →
    (s, t1, ty) ∈ ids → (s, t2, ty) ∈ ids → t1 = t2.

(** The order of entity keys by (kind, namespace, name), each component
    compared as a string. *)
Definition keyCompare (a b : EntityKey) : comparison :=
  match String.compare (Type_ a) (Type_ b) with
  | Eq =>
      match String.compare (Namespace a) (Namespace b) with
      | Eq => String.compare (Name a) (Name b)
      | c => c
      end
  | c => c
  end.

Definition keyLe (a b : EntityKey) : Prop := keyCompare a b ≠ Gt.

(** Edges by source key, then target key, then type. *)
Definition edgeLe (x y : EdgeId) : Prop :=
  match keyCompare x.1.1 y.1.1 with
  | Eq =>
      match keyCompare x.1.2 y.1.2 with
      | Eq => String.compare x.2 y.2 ≠ Gt
      | c => c ≠ Gt
      end
  | c => c ≠ Gt
  end.

(** The key sequences of a snapshot. *)
Definition snapshotKeys (g : Graph) : list EntityKey * list EdgeId :=
  (Key <$> (snapshot g).1, edgeId <$> (snapshot g).2).

Definition snapshotOrdered (g : Graph) : Prop :=
  Sorted keyLe (snapshotKeys g).1 ∧ Sorted edgeLe (snapshotKeys g).2.

(** ** Concrete objects for the scenarios *)

Module Scenario.

(** [metadata] of an unstructured object. *)
Definition metadata (name namespace : string) (labels : gmap string Value)
    (ownerRefs : list Value) : Value :=
  VMap (<["name" := VString name]>
        (<["namespace" := VString namespace]>
         (<["labels" := VMap labels]>
          (match ownerRefs with
           | [] => ∅
           | _ => {[ "ownerReferences" := VList ownerRefs ]}
           end)))).

Definition ownerRef (kind name : string) : Value :=
  VMap (<["kind" := VString kind]> {[ "name" := VString name ]}).

(** A pod; an empty [nodeName] is left out, as the converter does for
    an unscheduled pod. *)
Definition pod (name nodeName : string) (labels : gmap string Value)
    (ownerRefs : list Value) : gmap string Value :=
  <["metadata" := metadata name "default" labels ownerRefs]>
    {[ "spec" := VMap (if bool_decide (nodeName = "") then ∅
                       else {[ "nodeName" := VString nodeName ]}) ]}.

Definition service (name : string) (spec : gmap string Value)
  : gmap string Value :=
  <["metadata" := metadata name "default" ∅ []]> {[ "spec" := VMap spec ]}.

Definition podEvent (t : EventType) (name : string)
    (obj : gmap string Value) : Event :=
  mkEvent "Pod" t (IPtr (Pod name "default" "Running")) (Some obj).

Definition serviceEvent (t : EventType) (name : string)
    (obj : gmap string Value) : Event :=
  mkEvent "Service" t (IPtr (Service name "default" "ClusterIP")) (Some obj).

Definition appX : gmap string Value := {[ "app" := VString "x" ]}.
Definition appY : gmap string Value := {[ "app" := VString "y" ]}.

Definition p1 : EntityKey := mkKey "p1" "default" "Pod".
Definition p2 : EntityKey := mkKey "p2" "default" "Pod".
Definition n1 : EntityKey := mkKey "n1" "" "Node".
Definition n2 : EntityKey := mkKey "n2" "" "Node".
Definition rs1 : EntityKey := mkKey "rs1" "default" "ReplicaSet".
Definition svc1 : EntityKey := mkKey "svc1" "default" "Service".

(** Pod [p1] on node [n1], owned by [rs1], labelled [app=x]. *)
Definition p1_x := pod "p1" "n1" appX [ownerRef "ReplicaSet" "rs1"].
(** The same pod relabelled [app=y]. *)
Definition p1_y := pod "p1" "n1" appY [ownerRef "ReplicaSet" "rs1"].
(** The same pod moved to node [n2]. *)
Definition p1_n2 := pod "p1" "n2" appX [ownerRef "ReplicaSet" "rs1"].
(** Service [svc1] selecting [app=x]. *)
Definition svc1_x := service "svc1" {[ "selector" := VMap appX ]}.

(** A client whose six list calls all fail: the listing returns its
    first error and leaves the state as it was. *)
(** A replica set owned by deployment [d1], and one without owner
    references. *)
Definition replicaSet (name : string) (ownerRefs : list Value)
  : gmap string Value :=
  {[ "metadata" := metadata name "default" ∅ ownerRefs ]}.

(** A deployment with the given pod-template spec. *)
Definition deployment (name : string) (tspec : gmap string Value)
  : gmap string Value :=
  <["metadata" := metadata name "default" ∅ []]>
    {[ "spec" := VMap {[ "template" := VMap {[ "spec" := VMap tspec ]} ]} ]}.

Definition replicaSetEvent (t : EventType) (name : string)
    (obj : gmap string Value) : Event :=
  mkEvent "ReplicaSet" t (IPtr (ReplicaSet name "default" (Some 1)))
    (Some obj).

Definition deploymentEvent (t : EventType) (name : string)
    (obj : gmap string Value) : Event :=
  mkEvent "Deployment" t (IPtr (Deployment name "default" (Some 1)))
    (Some obj).

(** A volume of a pod template that mounts a config map. *)
Definition configMapVolume (configMap : string) : Value :=
  VMap (<["name" := VString configMap]>
        {[ "configMap" := VMap {[ "name" := VString configMap ]} ]}).

(** Deployment [d1] mounting the config maps [c1] and [c2]. *)
Definition d1_two :=
  deployment "d1"
    {[ "volumes" := VList [configMapVolume "c1"; configMapVolume "c2"] ]}.

Definition d1 : EntityKey := mkKey "d1" "default" "Deployment".
Definition c1 : EntityKey := mkKey "c1" "default" "ConfigMap".
Definition c2 : EntityKey := mkKey "c2" "default" "ConfigMap".

(** An unscheduled pod: no [nodeName], no owner. *)
Definition pendingPod := pod "p1" "" appX [].
(** Pod [p2] on node [n1], labelled [app=x]. *)
Definition p2_x := pod "p2" "n1" appX [].

Definition noListing : Cluster := mkCluster None None None None None None.

End Scenario.

(** The edge identities and node keys a run ends with. *)
Definition edgesOf (r : Result State) : option (list EdgeId) :=
  match r with
  | Ok st => Some (edgeIds (graph st))
  | Panic => None
  end.

Definition nodesOf (r : Result State) : option (list EntityKey) :=
  match r with
  | Ok st => Some (nodeKeys (graph st))
  | Panic => None
  end.

Definition snapshotOf (r : Result State)
  : option (list EntityKey * list EdgeId) :=
  match r with
  | Ok st => Some (snapshotKeys (graph st))
  | Panic => None
  end.

(** The state a run ends in ([initState] stands in for a panic). *)
Definition stateAfter (events : list Event) : State :=
  match run initState events with
  | Ok st => st
  | Panic => initState
  end.

Definition panics {A : Type} (r : Result A) : bool :=
  match r with
  | Ok _ => false
  | Panic => true
  end.

(** The state the listing leaves, whether or not it returned an error. *)
Definition afterListing (c : Cluster) : Result State :=
  let* p := listAllResources c initState in Ok p.1.


(** ** The pod loop of a service as a list of edge operations *)

(** The pod key that [targetStep] reads from a cached pod. *)
Definition podIdentity (pod : gmap string Value) : Result EntityKey :=
  let* metadata := asMap (index pod "metadata") in
  let* podName := asString (index metadata "name") in
  let* podNamespace := asString (index metadata "namespace") in
  Ok (mkKey podName podNamespace "Pod").

(** What [targetStep] does for one pod: the pod key and whether the
    edge to it is added ([true]) or removed ([false]). *)
Definition targetOp (selector pod : gmap string Value)
  : Result (EntityKey * bool) :=
  let* metadata := asMap (index pod "metadata") in
  let* podName := asString (index metadata "name") in
  let* podNamespace := asString (index metadata "namespace") in
  let* podLabels := labelsOf metadata in
  let* matches := selectorMatches selector podLabels in
  Ok (mkKey podName podNamespace "Pod", matches).

Definition applyOp (service : EntityKey) (g : Graph) (op : EntityKey * bool)
  : Graph :=
  if op.2 then AddRelationship g service op.1 "targets" None
  else RemoveRelationship g service op.1 "targets".

(** Every cached pod sits under the key made of its own namespace and
    name. *)
Definition cacheOK (cache : gmap string (gmap string Value)) : Prop :=
  ∀ k pod key,
    cache !! k = Some pod → podIdentity pod = Ok key →
    k = cacheKey (Namespace key) (Name key).

(** ** The list wrappers of the client

    [ListPods] and its five siblings copy the items of the typed list
    into a [[]interface{}]: each element holds the API object by
    value. *)
Definition listItems (items : list ApiObject) : list Iface :=
  IStruct <$> items.

(** What the six list calls of [K8sClient] hand to [listAllResources]:
    for each call the typed items, or [None] when the call failed. *)
Definition clientCluster
    (pods replicasets deployments nodes services configmaps
       : option (list ApiObject)) : Cluster :=
  mkCluster (listItems <$> pods) (listItems <$> replicasets)
    (listItems <$> deployments) (listItems <$> nodes)
    (listItems <$> services) (listItems <$> configmaps).

(** ** The shape of the edges the handlers build

    Which endpoints an edge of each relationship type has. *)
Definition edgeSchema (id : EdgeId) : Prop :=
  let '(s, t, ty) := id in
  (ty = "runs_on" ∧ Type_ s = "Pod" ∧ Type_ t = "Node" ∧ Namespace t = "") ∨
  (ty = "owned_by" ∧ Type_ s = "Pod" ∧ Type_ t = "ReplicaSet"
   ∧ Namespace t = Namespace s) ∨
  (ty = "owned_by" ∧ Type_ s = "ReplicaSet" ∧ Type_ t = "Deployment"
   ∧ Namespace t = Namespace s) ∨
  (ty = "targets" ∧ Type_ s = "Service" ∧ Type_ t = "Pod") ∨
  (ty = "uses" ∧ Type_ s = "Deployment" ∧ Type_ t = "ConfigMap"
   ∧ Namespace t = Namespace s).

Definition relShape (rel : GraphRelationship) : Prop :=
  RelProperties rel = None ∧ edgeSchema (edgeId rel).

(** The nodes [objectToGraphNode] builds. *)
Definition nodeShape (n : GraphNode) : Prop :=
  Revision n = 1 ∧
  Type_ (Key n)
    ∈ ["Pod"; "ReplicaSet"; "Deployment"; "Node"; "Service"; "ConfigMap"] ∧
  (Type_ (Key n) = "Node" → Namespace (Key n) = "") ∧
  size (Properties n) = 1%nat.

(** ** The pod-only main program

    The main program that lists and watches pods only ([listPods],
    [watchPods]) with the converter [PodToGraphNode] of [k8sclient].
    It writes [g.Nodes] directly and compares nodes by name and
    namespace. *)

(** The fields of a [corev1.Pod] that [PodToGraphNode] reads;
    [Generation] is an [int64]. *)
Record PodObject : Type := mkPod {
  podName : string;
  podNamespace : string;
  podPhase : string;
  podGeneration : Z
}.

(** [PodToGraphNode]; [int(pod.Generation)] keeps the value, [int]
    being 64 bits wide. *)
Definition PodToGraphNode (pod : PodObject) : GraphNode :=
  mkNode (mkKey (podName pod) (podNamespace pod) "Pod")
    {[ "status" := podPhase pod ]} (podGeneration pod).

Module PodsOnly.

(** The comparison of the loops of [watchPods]: name and namespace. *)
Definition sameNameNs (a b : EntityKey) : bool :=
  bool_decide (Name a = Name b) && bool_decide (Namespace a = Namespace b).

(** The [Added]/[Modified] case: overwrite the first node with the
    name and namespace, or append. *)
Fixpoint putNode (node : GraphNode) (ns : list GraphNode) : list GraphNode :=
  match ns with
  | [] => [node]
  | n :: rest =>
      if sameNameNs (Key n) (Key node) then node :: rest
      else n :: putNode node rest
  end.

(** The [Deleted] case: drop the first node with the name and
    namespace. *)
Fixpoint dropNode (node : GraphNode) (ns : list GraphNode) : list GraphNode :=
  match ns with
  | [] => []
  | n :: rest =>
      if sameNameNs (Key n) (Key node) then rest
      else n :: dropNode node rest
  end.

(** The body of the event loop of [watchPods] for one event; [obj] is
    [None] when the event's object is not a [*corev1.Pod] (the event is
    logged and skipped). *)
Definition watchPods (g : Graph) (t : EventType) (obj : option PodObject)
  : Graph :=
  match obj with
  | None => g
  | Some pod =>
      let node := PodToGraphNode pod in
      match t with
      | Added | Modified =>
          mkGraph (putNode node (Nodes g)) (Relationships g) (revision g)
      | Deleted =>
          mkGraph (dropNode node (Nodes g)) (Relationships g) (revision g)
      | _ => g
      end
  end.

(** [listPods]: every listed pod is appended. *)
Definition listPods (g : Graph) (pods : list PodObject) : Graph :=
  mkGraph (Nodes g ++ (PodToGraphNode <$> pods)) (Relationships g)
    (revision g).

(** The name and namespace of the nodes, in order. *)
Definition nameNs (ns : list GraphNode) : list (string * string) :=
  (fun n => (Name (Key n), Namespace (Key n))) <$> ns.

End PodsOnly.

(** Every edge of [g] is an edge of [g0] or satisfies [Q]. *)
Definition fromOr (g0 : Graph) (Q : EdgeId → Prop) (g : Graph) : Prop :=
  ∀ id, id ∈ edgeIds g → id ∈ edgeIds g0 ∨ Q id.


(** A cache entry as the watch loop and the listing store it: under the
    key made of the namespace and the name of the object's own
    metadata. *)
Definition cacheEntry (k : string) (obj : gmap string Value) : Prop :=
  ∃ metadata name namespace,
    obj !! "metadata" = Some (VMap metadata) ∧
    metadata !! "name" = Some (VString name) ∧
    namespaceOf metadata = Ok namespace ∧
    k = cacheKey namespace name.

(** No two neighbours of the slice both have the key as source or
    target. *)
Definition apart (key : EntityKey) (rs : list GraphRelationship) : Prop :=
  ∀ i r1 r2,
    rs !! i = Some r1 → rs !! S i = Some r2 →
    involves key r1 = true → involves key r2 = false.

(** ** What the converter hands to the watch loop

    [runtime.DefaultUnstructuredConverter.ToUnstructured] follows the
    json tags of the API types.  [ServiceSpec.Selector] is a
    [map[string]string] tagged [json:"selector,omitempty"]: the
    converter leaves the field out when the map is nil or has no entry
    (its length is 0), and otherwise writes a
    [map[string]interface{}] whose values are the strings.  This is
    what [spec["selector"]] reads for a service with the given
    selector. *)
Definition omitEmpty (m : gmap string string) : option Value :=
  if decide (size m = 0%nat) then None else Some (VMap (VString <$> m)).
(** * Properties *)

(** ** The key and identity tests decide equality *)

Lemma keyEq_true (a b : EntityKey) : keyEq a b = true ↔ a = b.
Proof.
  unfold keyEq. destruct a as [n1 s1 t1], b as [n2 s2 t2]; simpl.
  rewrite !andb_true_iff, !bool_decide_eq_true. split.
  - intros [[-> ->] ->]. done.
  - intros [= -> -> ->]. done.
Qed.

Lemma keyEq_false (a b : EntityKey) : keyEq a b = false ↔ a ≠ b.
Proof.
  rewrite <- keyEq_true. destruct (keyEq a b); split; congruence.
Qed.

Lemma keyEq_refl (a : EntityKey) : keyEq a a = true.
Proof. by apply keyEq_true. Qed.

Lemma relMatches_true s t ty rel :
  relMatches s t ty rel = true ↔ edgeId rel = (s, t, ty).
Proof.
  unfold relMatches, edgeId.
  rewrite !andb_true_iff, !keyEq_true, bool_decide_eq_true. split.
  - intros [[-> ->] ->]. done.
  - intros [= -> -> ->]. done.
Qed.

Lemma relMatches_false s t ty rel :
  relMatches s t ty rel = false ↔ edgeId rel ≠ (s, t, ty).
Proof.
  rewrite <- relMatches_true. destruct (relMatches s t ty rel); split; congruence.
Qed.

(** ** [AddRelationship] *)

Lemma refreshRel_Some s t ty p rs rs' :
  refreshRel s t ty p rs = Some rs' →
  ∃ l1 r l2,
    rs = l1 ++ r :: l2 ∧ edgeId r = (s, t, ty) ∧ ((s, t, ty) ∉ (edgeId <$> l1)) ∧
    rs' = l1 ++ mkRel (Source r) (Target r) (RelationshipType r) p
                   (incr (RelRevision r)) :: l2.
Proof.
  revert rs'. induction rs as [|rel rest IH]; intros rs'; simpl; [done|].
  destruct (relMatches s t ty rel) eqn:Hm.
  - intros [= <-]. exists [], rel, rest. simpl.
    apply relMatches_true in Hm. split_and!; try done. set_solver.
  - destruct (refreshRel s t ty p rest) as [rest'|] eqn:Hr; [|done].
    intros [= <-]. destruct (IH _ eq_refl) as (l1 & r & l2 & -> & Hid & Hn & ->).
    exists (rel :: l1), r, l2. apply relMatches_false in Hm.
    split_and!; try done. rewrite fmap_cons. set_solver.
Qed.

Lemma refreshRel_None s t ty p rs :
  refreshRel s t ty p rs = None ↔ (s, t, ty) ∉ (edgeId <$> rs).
Proof.
  induction rs as [|rel rest IH]; simpl.
  - split; [set_solver | done].
  - destruct (relMatches s t ty rel) eqn:Hm.
    + apply relMatches_true in Hm. split; [done|]. rewrite Hm. set_solver.
    + apply relMatches_false in Hm.
      destruct (refreshRel s t ty p rest).
      * split; [done|]. intros Hn. exfalso. apply (proj1 IH); set_solver.
      * split; [|done]. intros _. specialize (proj1 IH eq_refl). set_solver.
Qed.

Lemma Nodes_AddRelationship g s t ty p :
  Nodes (AddRelationship g s t ty p) = Nodes g.
Proof. unfold AddRelationship. by destruct (refreshRel _ _ _ _ _). Qed.

Lemma edgeIds_AddRelationship_old g s t ty p :
  (s, t, ty) ∈ edgeIds g → edgeIds (AddRelationship g s t ty p) = edgeIds g.
Proof.
  unfold AddRelationship, edgeIds. intros Hin.
  destruct (refreshRel s t ty p (Relationships g)) as [rs|] eqn:Hr.
  - destruct (refreshRel_Some _ _ _ _ _ _ Hr) as (l1 & r & l2 & -> & Hid & _ & ->).
    simpl. rewrite !fmap_app, !fmap_cons. done.
  - apply refreshRel_None in Hr. done.
Qed.

Lemma edgeIds_AddRelationship_new g s t ty p :
  (s, t, ty) ∉ edgeIds g →
  edgeIds (AddRelationship g s t ty p) = edgeIds g ++ [(s, t, ty)].
Proof.
  unfold AddRelationship, edgeIds. intros Hin.
  apply (refreshRel_None s t ty p) in Hin. rewrite Hin. simpl.
  by rewrite fmap_app.
Qed.

Lemma elem_of_edgeIds_AddRelationship g s t ty p id :
  id ∈ edgeIds (AddRelationship g s t ty p) ↔ id = (s, t, ty) ∨ id ∈ edgeIds g.
Proof.
  destruct (decide ((s, t, ty) ∈ edgeIds g)) as [Hin|Hin].
  - rewrite edgeIds_AddRelationship_old by done. set_solver.
  - rewrite edgeIds_AddRelationship_new by done. set_solver.
Qed.

Lemma NoDup_AddRelationship g s t ty p :
  NoDup (edgeIds g) → NoDup (edgeIds (AddRelationship g s t ty p)).
Proof.
  intros Hnd. destruct (decide ((s, t, ty) ∈ edgeIds g)) as [Hin|Hin].
  - by rewrite edgeIds_AddRelationship_old.
  - rewrite edgeIds_AddRelationship_new by done.
    apply NoDup_app. split_and!; [done| |apply NoDup_singleton].
    intros x Hx. set_solver.
Qed.

(** ** [RemoveRelationship] *)

Lemma findRel_Some s t ty rs i :
  findRel s t ty rs = Some i →
  ∃ l1 r l2,
    rs = l1 ++ r :: l2 ∧ length l1 = i ∧ edgeId r = (s, t, ty) ∧
    (s, t, ty) ∉ (edgeId <$> l1).
Proof.
  revert i. induction rs as [|rel rest IH]; intros i; simpl; [done|].
  destruct (relMatches s t ty rel) eqn:Hm.
  - intros [= <-]. exists [], rel, rest. apply relMatches_true in Hm.
    split_and!; try done. set_solver.
  - destruct (findRel s t ty rest) as [j|] eqn:Hf; simpl; [|done].
    intros [= <-]. destruct (IH _ eq_refl) as (l1 & r & l2 & -> & Hl & Hid & Hn).
    exists (rel :: l1), r, l2. apply relMatches_false in Hm.
    split_and!; try done; [by simpl; f_equal|]. rewrite fmap_cons. set_solver.
Qed.

Lemma findRel_None s t ty rs :
  findRel s t ty rs = None ↔ (s, t, ty) ∉ (edgeId <$> rs).
Proof.
  induction rs as [|rel rest IH]; simpl.
  - split; [set_solver | done].
  - destruct (relMatches s t ty rel) eqn:Hm.
    + apply relMatches_true in Hm. split; [done|]. rewrite Hm. set_solver.
    + apply relMatches_false in Hm.
      destruct (findRel s t ty rest); simpl.
      * split; [done|]. intros Hn. exfalso. apply (proj1 IH); set_solver.
      * split; [|done]. intros _. specialize (proj1 IH eq_refl). set_solver.
Qed.

Lemma cut_middle {A : Type} (l1 l2 : list A) (x : A) :
  cut (length l1) (l1 ++ x :: l2) = l1 ++ l2.
Proof.
  unfold cut. rewrite take_app_length.
  replace (S (length l1)) with (length (l1 ++ [x])) by (rewrite length_app; simpl; lia).
  rewrite (cons_middle x l1 l2), app_assoc, drop_app_length. done.
Qed.

Lemma Nodes_RemoveRelationship g s t ty :
  Nodes (RemoveRelationship g s t ty) = Nodes g.
Proof. unfold RemoveRelationship. by destruct (findRel _ _ _ _). Qed.

Lemma RemoveRelationship_absent g s t ty :
  (s, t, ty) ∉ edgeIds g → RemoveRelationship g s t ty = g.
Proof.
  unfold RemoveRelationship, edgeIds. intros Hn.
  apply findRel_None in Hn. by rewrite Hn.
Qed.

Lemma findRel_first s t ty l1 r l2 :
  edgeId r = (s, t, ty) → (s, t, ty) ∉ (edgeId <$> l1) →
  findRel s t ty (l1 ++ r :: l2) = Some (length l1).
Proof.
  intros Hid. induction l1 as [|a l1 IH]; simpl; intros Hn.
  - apply relMatches_true in Hid. by rewrite Hid.
  - rewrite ?fmap_cons in Hn. apply not_elem_of_cons in Hn as [Ha Hn].
    assert (relMatches s t ty a = false) as -> by (apply relMatches_false; congruence).
    by rewrite (IH Hn).
Qed.

Lemma RemoveRelationship_present g s t ty l1 r l2 :
  Relationships g = l1 ++ r :: l2 → edgeId r = (s, t, ty) →
  (s, t, ty) ∉ (edgeId <$> l1) →
  RemoveRelationship g s t ty = mkGraph (Nodes g) (l1 ++ l2) (incr (revision g)).
Proof.
  intros Hrs Hid Hn. unfold RemoveRelationship.
  rewrite Hrs, (findRel_first _ _ _ _ _ _ Hid Hn), cut_middle. done.
Qed.

Lemma edgeIds_RemoveRelationship_sublist g s t ty :
  edgeIds (RemoveRelationship g s t ty) `sublist_of` edgeIds g.
Proof.
  unfold RemoveRelationship, edgeIds.
  destruct (findRel s t ty (Relationships g)) as [i|] eqn:Hf; [|done].
  destruct (findRel_Some _ _ _ _ _ Hf) as (l1 & r & l2 & -> & <- & _ & _).
  simpl. rewrite cut_middle, !fmap_app, fmap_cons.
  apply sublist_app; [done|]. by apply sublist_cons.
Qed.

Lemma NoDup_RemoveRelationship g s t ty :
  NoDup (edgeIds g) → NoDup (edgeIds (RemoveRelationship g s t ty)).
Proof. intros Hnd. eapply sublist_NoDup; [done|apply edgeIds_RemoveRelationship_sublist]. Qed.

Lemma elem_of_edgeIds_RemoveRelationship g s t ty id :
  NoDup (edgeIds g) →
  id ∈ edgeIds (RemoveRelationship g s t ty) ↔ id ≠ (s, t, ty) ∧ id ∈ edgeIds g.
Proof.
  intros Hnd. unfold RemoveRelationship.
  destruct (findRel s t ty (Relationships g)) as [i|] eqn:Hf.
  - destruct (findRel_Some _ _ _ _ _ Hf) as (l1 & r & l2 & Hrs & <- & Hid & Hn).
    unfold edgeIds in *. simpl. rewrite Hrs in *. rewrite cut_middle.
    rewrite !fmap_app, fmap_cons, Hid in *.
    apply NoDup_app in Hnd as (_ & Hd & Hnd2). apply NoDup_cons in Hnd2 as [Hn2 _].
    set_solver.
  - apply findRel_None in Hf. unfold edgeIds in *. set_solver.
Qed.

(** ** [AddNode] and [RemoveNode] *)

Lemma replaceNode_Some node ns ns' :
  replaceNode node ns = Some ns' →
  ∃ l1 n l2,
    ns = l1 ++ n :: l2 ∧ Key n = Key node ∧ (Key node ∉ (Key <$> l1)) ∧
    ns' = l1 ++ node :: l2.
Proof.
  revert ns'. induction ns as [|n rest IH]; intros ns'; simpl; [done|].
  destruct (keyEq (Key n) (Key node)) eqn:Hk.
  - intros [= <-]. exists [], n, rest. apply keyEq_true in Hk.
    split_and!; try done. set_solver.
  - destruct (replaceNode node rest) as [rest'|]; [|done].
    intros [= <-]. destruct (IH _ eq_refl) as (l1 & m & l2 & -> & Hm & Hn & ->).
    exists (n :: l1), m, l2. apply keyEq_false in Hk.
    split_and!; try done. rewrite fmap_cons. set_solver.
Qed.

Lemma replaceNode_None node ns :
  replaceNode node ns = None ↔ Key node ∉ (Key <$> ns).
Proof.
  induction ns as [|n rest IH]; simpl.
  - split; [set_solver | done].
  - destruct (keyEq (Key n) (Key node)) eqn:Hk.
    + apply keyEq_true in Hk. split; [done|]. rewrite Hk. set_solver.
    + apply keyEq_false in Hk. destruct (replaceNode node rest).
      * split; [done|]. intros Hn. exfalso. apply (proj1 IH); set_solver.
      * split; [|done]. intros _. specialize (proj1 IH eq_refl). set_solver.
Qed.

Lemma replaceNode_first node l1 n l2 :
  Key n = Key node → Key node ∉ (Key <$> l1) →
  replaceNode node (l1 ++ n :: l2) = Some (l1 ++ node :: l2).
Proof.
  intros Hk. induction l1 as [|a l1 IH]; simpl; intros Hn.
  - apply keyEq_true in Hk. by rewrite Hk.
  - rewrite ?fmap_cons in Hn. apply not_elem_of_cons in Hn as [Ha Hn].
    assert (keyEq (Key a) (Key node) = false) as -> by (apply keyEq_false; congruence).
    by rewrite (IH Hn).
Qed.

Lemma Relationships_AddNode g obj g' :
  AddNode g obj = Ok g' → Relationships g' = Relationships g.
Proof.
  unfold AddNode. destruct (objectToGraphNode obj) as [[node|]|]; simpl; [| |done].
  - destruct (replaceNode node (Nodes g)); by intros [= <-].
  - by intros [= <-].
Qed.

Lemma edgeIds_AddNode g obj g' :
  AddNode g obj = Ok g' → edgeIds g' = edgeIds g.
Proof. intros H. unfold edgeIds. by rewrite (Relationships_AddNode _ _ _ H). Qed.

(** A node is written where the first node with its key stands, or at
    the end when there is none: the sequence of keys grows at the end
    only. *)
Lemma nodeKeys_AddNode g obj g' node :
  AddNode g obj = Ok g' → objectToGraphNode obj = Ok (Some node) →
  node ∈ Nodes g' ∧
  nodeKeys g' = if decide (Key node ∈ nodeKeys g) then nodeKeys g
                else nodeKeys g ++ [Key node].
Proof.
  unfold AddNode, nodeKeys. intros H Ho. rewrite Ho in H. simpl in H.
  destruct (replaceNode node (Nodes g)) as [ns|] eqn:Hr; injection H as <-; simpl.
  - destruct (replaceNode_Some _ _ _ Hr) as (l1 & n & l2 & Hns & Hk & Hn & ->).
    rewrite Hns, !fmap_app, !fmap_cons, Hk. split; [set_solver|].
    rewrite decide_True by set_solver. done.
  - apply replaceNode_None in Hr. rewrite decide_False by done.
    rewrite fmap_app. split; [set_solver | done].
Qed.

Lemma dropIncident_sublist k rs : dropIncident k rs `sublist_of` rs.
Proof. apply sublist_filter. Qed.

Lemma edgeIds_RemoveNode_sublist g obj g' :
  RemoveNode g obj = Ok g' → edgeIds g' `sublist_of` edgeIds g.
Proof.
  unfold RemoveNode, edgeIds.
  destruct (objectToGraphNode obj) as [[node|]|]; simpl; [| |done].
  - destruct (dropNode (Key node) (Nodes g)); intros [= <-]; simpl; [done|].
    apply fmap_sublist, dropIncident_sublist.
  - by intros [= <-].
Qed.

(** ** Loops *)

Lemma forM_inv {A S : Type} (P : S → Prop) (body : S → A → Result S) xs :
  (∀ s x s', body s x = Ok s' → P s → P s') →
  ∀ s s', forM body s xs = Ok s' → P s → P s'.
Proof.
  intros Hstep. induction xs as [|x xs IH]; simpl; intros s s'.
  - by intros [= <-].
  - destruct (body s x) as [s1|] eqn:Hb; simpl; [|done]. eauto.
Qed.

Lemma forM_app {A S : Type} (body : S → A → Result S) xs ys s :
  forM body s (xs ++ ys) = (let* s' := forM body s xs in forM body s' ys).
Proof.
  revert s. induction xs as [|x xs IH]; simpl; intros s; [done|].
  destruct (body s x); simpl; [apply IH | done].
Qed.

Lemma edgeUpdate_ext f f' :
  (∀ g, f g = f' g) → edgeUpdate f → edgeUpdate f'.
Proof.
  intros Hext [Hp | (A & R & H)]; [left | right].
  - intros g. rewrite <- Hext. apply Hp.
  - exists A, R. intros g. rewrite <- Hext. apply H.
Qed.

Lemma edgeUpdate_Panic : edgeUpdate (fun _ => Panic).
Proof. by left. Qed.

Lemma edgeUpdate_Ok : edgeUpdate (fun g => Ok g).
Proof.
  right. exists ∅, ∅. intros g. exists g. split_and!; try done.
  intros Hnd. split; [done | set_solver].
Qed.

Lemma edgeUpdate_Add s t ty p :
  edgeUpdate (fun g => Ok (AddRelationship g s t ty p)).
Proof.
  right. exists {[ (s, t, ty) ]}, ∅. intros g. eexists. split_and!; [done|..].
  - apply Nodes_AddRelationship.
  - intros Hnd. split; [by apply NoDup_AddRelationship|].
    apply set_eq. intros id. unfold edgeSet.
    rewrite elem_of_list_to_set, elem_of_edgeIds_AddRelationship.
    rewrite elem_of_union, elem_of_difference, elem_of_list_to_set. set_solver.
Qed.

Lemma edgeUpdate_Remove s t ty :
  edgeUpdate (fun g => Ok (RemoveRelationship g s t ty)).
Proof.
  right. exists ∅, {[ (s, t, ty) ]}. intros g. eexists. split_and!; [done|..].
  - apply Nodes_RemoveRelationship.
  - intros Hnd. split; [by apply NoDup_RemoveRelationship|].
    apply set_eq. intros id. unfold edgeSet.
    rewrite elem_of_list_to_set, elem_of_edgeIds_RemoveRelationship by done.
    rewrite elem_of_union, elem_of_difference, elem_of_list_to_set. set_solver.
Qed.

Lemma edgeUpdate_bind f k :
  edgeUpdate f → edgeUpdate k → edgeUpdate (fun g => let* g' := f g in k g').
Proof.
  intros [Hp | (A1 & R1 & H1)] Hk.
  - left. intros g. by rewrite Hp.
  - destruct Hk as [Hp | (A2 & R2 & H2)].
    + left. intros g. destruct (H1 g) as (g1 & -> & _). simpl. apply Hp.
    + right. exists ((A1 ∖ R2) ∪ A2), (R1 ∪ R2). intros g.
      destruct (H1 g) as (g1 & -> & Hn1 & Hs1). simpl.
      destruct (H2 g1) as (g2 & -> & Hn2 & Hs2). exists g2.
      split_and!; [done | congruence |]. intros Hnd.
      destruct (Hs1 Hnd) as [Hnd1 He1]. destruct (Hs2 Hnd1) as [Hnd2 He2].
      split; [done|]. rewrite He2, He1. set_solver.
Qed.

Lemma edgeUpdate_forM {A : Type} (body : Graph → A → Result Graph) xs :
  (∀ x, edgeUpdate (fun g => body g x)) →
  edgeUpdate (fun g => forM body g xs).
Proof.
  intros Hb. induction xs as [|x xs IH]; simpl.
  - apply edgeUpdate_Ok.
  - apply (edgeUpdate_bind (fun g => body g x) (fun g => forM body g xs)); auto.
Qed.

(** Applying the same edge update twice is the same as applying it
    once. *)
Lemma edgeUpdate_twice f g g1 :
  edgeUpdate f → NoDup (edgeIds g) → f g = Ok g1 →
  NoDup (edgeIds g1) ∧
  ∀ h, NoDup (edgeIds h) → edgeSet h = edgeSet g1 →
    ∃ g2, f h = Ok g2 ∧ Nodes g2 = Nodes h ∧ NoDup (edgeIds g2) ∧
          edgeSet g2 = edgeSet g1.
Proof.
  intros [Hp | (A & R & H)] Hnd Hf.
  - by rewrite Hp in Hf.
  - destruct (H g) as (g' & Hg' & _ & Hs). rewrite Hf in Hg'. injection Hg' as <-.
    destruct (Hs Hnd) as [Hnd1 He1]. split; [done|]. intros h Hndh Hh.
    destruct (H h) as (g2 & -> & Hn2 & Hs2). destruct (Hs2 Hndh) as [Hnd2 He2].
    exists g2. split_and!; try done. rewrite He2, Hh, He1. set_solver.
Qed.

Lemma edgeUpdate_NoDup f g g' :
  edgeUpdate f → f g = Ok g' → NoDup (edgeIds g) → NoDup (edgeIds g').
Proof.
  intros [Hp | (A & R & H)] Hf Hnd.
  - by rewrite Hp in Hf.
  - destruct (H g) as (g1 & Hg1 & _ & Hs). rewrite Hf in Hg1. injection Hg1 as <-.
    by apply Hs.
Qed.

Lemma edgeUpdate_Nodes f g g' :
  edgeUpdate f → f g = Ok g' → Nodes g' = Nodes g.
Proof.
  intros [Hp | (A & R & H)] Hf.
  - by rewrite Hp in Hf.
  - destruct (H g) as (g1 & Hg1 & Hn & _). rewrite Hf in Hg1. by injection Hg1 as <-.
Qed.

(** Cases on a condition or a fallible read that does not depend on the
    graph, until the update is one of the basic shapes. *)
Ltac edge_update_step :=
  match goal with
  | |- edgeUpdate (fun _ => Panic) => apply edgeUpdate_Panic
  | |- edgeUpdate (fun g => Ok g) => apply edgeUpdate_Ok
  | |- edgeUpdate (fun g => Ok (AddRelationship g _ _ _ _)) => apply edgeUpdate_Add
  | |- edgeUpdate (fun g => Ok (RemoveRelationship g _ _ _)) => apply edgeUpdate_Remove
  | |- edgeUpdate (fun g => forM _ g _) => apply edgeUpdate_forM; intros ?
  | |- edgeUpdate (fun g => forM ?b (AddRelationship g ?s ?t ?ty ?p) ?l) =>
      apply (edgeUpdate_bind (fun g => Ok (AddRelationship g s t ty p))
               (fun g => forM b g l))
  | |- context [bind ?c _] => destruct c; simpl
  | |- context [match ?c with _ => _ end] => destruct c; simpl
  end.

Ltac edge_update := simpl; repeat edge_update_step.

Lemma edgeUpdate_ownerStep srcType wanted name namespace ownerRef :
  edgeUpdate (fun g => ownerStep srcType wanted name namespace g ownerRef).
Proof. unfold ownerStep. edge_update. Qed.

Lemma edgeUpdate_volumeStep name namespace volume :
  edgeUpdate (fun g => volumeStep name namespace g volume).
Proof. unfold volumeStep. edge_update. Qed.

Lemma edgeUpdate_targetStep name namespace selector pod :
  edgeUpdate (fun g => targetStep name namespace selector g pod).
Proof. unfold targetStep. edge_update. Qed.

Lemma edgeUpdate_listTargetStep name namespace selector pod :
  edgeUpdate (fun g => listTargetStep name namespace selector g pod).
Proof. unfold listTargetStep, ifaceAsMap. edge_update. Qed.

Create HintDb edge_update discriminated.
Hint Resolve edgeUpdate_ownerStep edgeUpdate_volumeStep edgeUpdate_targetStep
  edgeUpdate_listTargetStep : edge_update.

Lemma edgeUpdate_updateRelationships pods obj rt name namespace :
  edgeUpdate (fun g => updateRelationships g pods obj rt name namespace).
Proof.
  unfold updateRelationships.
  repeat case_bool_decide; edge_update; auto with edge_update.
Qed.

Lemma edgeUpdate_listPodStep pod :
  edgeUpdate (fun g => listPodStep g pod).
Proof. unfold listPodStep, ifaceAsMap. edge_update; auto with edge_update. Qed.

Lemma edgeUpdate_listReplicaSetStep rs :
  edgeUpdate (fun g => listReplicaSetStep g rs).
Proof. unfold listReplicaSetStep, ifaceAsMap. edge_update; auto with edge_update. Qed.

Lemma edgeUpdate_listServiceStep pods service :
  edgeUpdate (fun g => listServiceStep pods g service).
Proof. unfold listServiceStep, ifaceAsMap. edge_update; auto with edge_update. Qed.

Lemma edgeUpdate_listDeploymentStep deployment :
  edgeUpdate (fun g => listDeploymentStep g deployment).
Proof. unfold listDeploymentStep, ifaceAsMap. edge_update; auto with edge_update. Qed.

(** ** No two edges with the same identity *)

Lemma graph_cachePut rt key obj st g : graph (cachePut rt key obj st g) = g.
Proof. unfold cachePut. by repeat case_bool_decide. Qed.

Lemma graph_cacheDelete rt key st g : graph (cacheDelete rt key st g) = g.
Proof. unfold cacheDelete. by repeat case_bool_decide. Qed.

Lemma rangeRemove_sublist key count : ∀ i cells g,
  edgeIds (rangeRemove key i count cells g) `sublist_of` edgeIds g.
Proof.
  induction count as [|count IH]; intros i cells g; simpl; [done|].
  destruct (cells !! i) as [rel|]; [|done].
  destruct (involves key rel); [|apply IH].
  etrans; [apply IH|]. apply edgeIds_RemoveRelationship_sublist.
Qed.

Lemma Nodes_rangeRemove key count : ∀ i cells g,
  Nodes (rangeRemove key i count cells g) = Nodes g.
Proof.
  induction count as [|count IH]; intros i cells g; simpl; [done|].
  destruct (cells !! i) as [rel|]; [|done].
  destruct (involves key rel); [|apply IH].
  rewrite IH. apply Nodes_RemoveRelationship.
Qed.

Lemma forM_AddNode_edgeIds g items g' :
  forM AddNode g items = Ok g' → edgeIds g' = edgeIds g.
Proof.
  intros H.
  apply (forM_inv (fun h => edgeIds h = edgeIds g) AddNode items) with (s := g);
    [|done..].
  intros h x h' Hx <-. by apply edgeIds_AddNode in Hx.
Qed.

Lemma handleEvent_NoDup st e st' :
  handleEvent st e = Ok st' →
  NoDup (edgeIds (graph st)) → NoDup (edgeIds (graph st')).
Proof.
  unfold handleEvent, UpdateNode. intros H Hnd.
  destruct (evUnstructured e) as [u|]; [|by injection H as <-].
  destruct (asMap (index u "metadata")) as [metadata|]; [simpl in H|done].
  destruct (asString (index metadata "name")) as [name|]; [simpl in H|done].
  destruct (namespaceOf metadata) as [namespace|]; [simpl in H|done].
  destruct (evType e); try by injection H as <-.
  1,2: destruct (AddNode (graph st) (evObject e)) as [g1|] eqn:H1; [simpl in H|done];
    destruct (updateRelationships g1 _ _ _ _ _) as [g2|] eqn:H2; [simpl in H|done];
    injection H as <-; rewrite graph_cachePut;
    apply (edgeUpdate_NoDup _ _ _ (edgeUpdate_updateRelationships _ _ _ _ _) H2);
    by rewrite (edgeIds_AddNode _ _ _ H1).
  destruct (RemoveNode (graph st) (evObject e)) as [g1|] eqn:H1; [simpl in H|done].
  injection H as <-. rewrite graph_cacheDelete.
  eapply sublist_NoDup; [exact Hnd|].
  etrans; [apply rangeRemove_sublist|]. eapply edgeIds_RemoveNode_sublist, H1.
Qed.

Lemma listAllResources_NoDup c st st' listed :
  listAllResources c st = Ok (st', listed) →
  NoDup (edgeIds (graph st)) → NoDup (edgeIds (graph st')).
Proof.
  unfold listAllResources. intros H Hnd.
  repeat match type of H with
  | Ok _ = Ok _ => injection H as <- <-; simpl
  | Panic = Ok _ => discriminate H
  | context [match ?o with Some _ => _ | None => _ end] => destruct o
  | context [bind (forM AddNode ?g ?l) _] =>
      let E := fresh "E" in
      destruct (forM AddNode g l) eqn:E; simpl in H;
      [apply forM_AddNode_edgeIds in E; rewrite <- E in Hnd | ]
  | context [bind (forM cacheStep ?g ?l) _] =>
      destruct (forM cacheStep g l); simpl in H
  | context [bind (forM ?b ?g ?l) _] =>
      let E := fresh "E" in
      destruct (forM b g l) eqn:E; simpl in H;
      [apply (edgeUpdate_NoDup (fun g => forM b g l)) in E;
       [clear Hnd; rename E into Hnd
       | apply edgeUpdate_forM; intros ?;
         auto using edgeUpdate_listPodStep, edgeUpdate_listReplicaSetStep,
           edgeUpdate_listServiceStep, edgeUpdate_listDeploymentStep
       | exact Hnd] | ]
  end; done.
Qed.

(** Every state the program reaches has at most one edge for each
    identity. *)
Lemma reachable_NoDup st : reachable st → NoDup (edgeIds (graph st)).
Proof.
  intros (c & events & st0 & listed & Hl & Hr).
  apply listAllResources_NoDup in Hl; [|constructor].
  unfold run in Hr.
  by apply (forM_inv (fun s => NoDup (edgeIds (graph s))) handleEvent events
              handleEvent_NoDup st0 st).
Qed.

(** ** Processing an event again *)

(** Adding the same object again changes no node. *)
Lemma AddNode_again g obj g1 :
  AddNode g obj = Ok g1 →
  ∀ h, Nodes h = Nodes g1 →
    ∃ h', AddNode h obj = Ok h' ∧ Nodes h' = Nodes h ∧
          Relationships h' = Relationships h.
Proof.
  unfold AddNode. destruct (objectToGraphNode obj) as [[node|]|]; simpl; [| |done].
  - destruct (replaceNode node (Nodes g)) as [ns|] eqn:Hr; intros [= <-] h Hh;
      simpl in Hh; rewrite Hh.
    + destruct (replaceNode_Some _ _ _ Hr) as (l1 & n & l2 & Hns & Hk & Hn & ->).
      rewrite (replaceNode_first node l1 node l2 eq_refl Hn). eauto.
    + apply replaceNode_None in Hr.
      rewrite (replaceNode_first node (Nodes g) node [] eq_refl Hr). eauto.
  - intros [= <-]. eauto.
Qed.

Lemma updateRelationships_cachePut g rt key u st g' name namespace :
  updateRelationships g (rangePods (podCache (cachePut rt key u st g'))) u rt
    name namespace
  = updateRelationships g (rangePods (podCache st)) u rt name namespace.
Proof.
  unfold updateRelationships, cachePut.
  repeat case_bool_decide; simplify_eq; done.
Qed.

Lemma cachePut_again rt key u st g g' :
  podCache (cachePut rt key u (cachePut rt key u st g) g')
    = podCache (cachePut rt key u st g) ∧
  serviceCache (cachePut rt key u (cachePut rt key u st g) g')
    = serviceCache (cachePut rt key u st g).
Proof.
  unfold cachePut. repeat case_bool_decide; simpl; by rewrite ?insert_insert_eq.
Qed.

Lemma edgeSet_Permutation g h :
  NoDup (edgeIds g) → NoDup (edgeIds h) → edgeSet g = edgeSet h →
  edgeIds g ≡ₚ edgeIds h.
Proof.
  intros Hg Hh He. apply NoDup_Permutation; [done..|].
  intros id. unfold edgeSet in He.
  rewrite <- !(elem_of_list_to_set (C := gset EdgeId)), He. done.
Qed.


(** ** Handlers that only add edges *)

Lemma AddRelationship_prefix g s t ty p :
  edgeIds g `prefix_of` edgeIds (AddRelationship g s t ty p).
Proof.
  destruct (decide ((s, t, ty) ∈ edgeIds g)) as [Hin|Hin].
  - by rewrite edgeIds_AddRelationship_old.
  - rewrite edgeIds_AddRelationship_new by done. by apply prefix_app_r.
Qed.

Lemma AddRelationship_elem g s t ty p :
  (s, t, ty) ∈ edgeIds (AddRelationship g s t ty p).
Proof. apply elem_of_edgeIds_AddRelationship. by left. Qed.

Lemma prefix_elem {A : Type} (l1 l2 : list A) x :
  l1 `prefix_of` l2 → x ∈ l1 → x ∈ l2.
Proof. intros [k ->] Hx. apply elem_of_app. by left. Qed.

Lemma forM_growth {A : Type} (body : Graph → A → Result Graph) xs :
  edgeGrowth body →
  ∀ g g', forM body g xs = Ok g' → edgeIds g `prefix_of` edgeIds g'.
Proof.
  intros Hb. induction xs as [|x xs IH]; simpl; intros g g'.
  - by intros [= <-].
  - destruct (body g x) as [g1|] eqn:H1; simpl; [|done]. intros H2.
    etrans; [by eapply Hb | by apply IH].
Qed.

(** An edge that the body adds for one element of the list is there
    when the loop ends. *)
Lemma forM_elem {A : Type} (body : Graph → A → Result Graph) xs x id :
  edgeGrowth body →
  (∀ g g', body g x = Ok g' → id ∈ edgeIds g') →
  x ∈ xs →
  ∀ g g', forM body g xs = Ok g' → id ∈ edgeIds g'.
Proof.
  intros Hb Hx. induction xs as [|y xs IH]; simpl; intros Hin g g'.
  - by apply elem_of_nil in Hin.
  - destruct (body g y) as [g1|] eqn:H1; simpl; [|done]. intros H2.
    apply elem_of_cons in Hin as [<-|Hin].
    + eapply prefix_elem; [by eapply forM_growth | by eapply Hx].
    + by eapply IH.
Qed.

Lemma ownerStep_growth srcType wanted name namespace :
  edgeGrowth (ownerStep srcType wanted name namespace).
Proof.
  intros g x g'. unfold ownerStep.
  destruct (asMap x) as [owner|]; simpl; [|done].
  destruct (asString (index owner "kind")) as [kind|]; simpl; [|done].
  case_bool_decide; [|by intros [= <-]].
  destruct (asString (index owner "name")) as [ownerName|]; simpl; [|done].
  intros [= <-]. apply AddRelationship_prefix.
Qed.

Lemma volumeStep_growth name namespace :
  edgeGrowth (volumeStep name namespace).
Proof.
  intros g x g'. unfold volumeStep.
  destruct (asMap x) as [vol|]; simpl; [|done].
  destruct (vol !! "configMap") as [configMap|]; [|by intros [= <-]].
  destruct (asMap configMap) as [cm|]; simpl; [|done].
  destruct (asString (index cm "name")) as [cmName|]; simpl; [|done].
  intros [= <-]. apply AddRelationship_prefix.
Qed.

Lemma index_Some (m : gmap string Value) k v : m !! k = Some v → index m k = v.
Proof. unfold index. by intros ->. Qed.

Lemma ownerStep_adds srcType wanted name namespace owner ownerName g g' :
  owner !! "kind" = Some (VString wanted) →
  owner !! "name" = Some (VString ownerName) →
  ownerStep srcType wanted name namespace g (VMap owner) = Ok g' →
  (mkKey name namespace srcType, mkKey ownerName namespace wanted, "owned_by")
    ∈ edgeIds g'.
Proof.
  intros Hk Hn. unfold ownerStep. simpl.
  rewrite (index_Some _ _ _ Hk), (index_Some _ _ _ Hn). simpl.
  rewrite bool_decide_eq_true_2 by done. intros [= <-].
  apply AddRelationship_elem.
Qed.

Lemma volumeStep_adds name namespace vol cm cmName g g' :
  vol !! "configMap" = Some (VMap cm) →
  cm !! "name" = Some (VString cmName) →
  volumeStep name namespace g (VMap vol) = Ok g' →
  (mkKey name namespace "Deployment", mkKey cmName namespace "ConfigMap", "uses")
    ∈ edgeIds g'.
Proof.
  intros Hc Hn. unfold volumeStep. simpl. rewrite Hc. simpl.
  rewrite (index_Some _ _ _ Hn). simpl. intros [= <-].
  apply AddRelationship_elem.
Qed.

(** The three single-field rules never remove an edge: the old edge
    list is a prefix of the new one. *)
Lemma updateRelationships_growth g pods obj rt name namespace g' :
  rt ∈ ["Pod"; "ReplicaSet"; "Deployment"] →
  updateRelationships g pods obj rt name namespace = Ok g' →
  edgeIds g `prefix_of` edgeIds g'.
Proof.
  intros Hrt. unfold updateRelationships.
  repeat (apply elem_of_cons in Hrt as [->|Hrt]); [| | |by apply elem_of_nil in Hrt];
    simpl.
  - destruct (asMap (index obj "spec")) as [spec|]; simpl; [|done].
    destruct (asMap (index obj "metadata")) as [metadata|]; simpl; [|done].
    set (g1 := match index spec "nodeName" with VString _ => _ | _ => _ end).
    assert (edgeIds g `prefix_of` edgeIds g1) as Hg1.
    { subst g1. destruct (index spec "nodeName"); try done.
      case_bool_decide; [apply AddRelationship_prefix | done]. }
    destruct (index metadata "ownerReferences"); try (by intros [= <-]).
    intros H. etrans; [exact Hg1|].
    eapply forM_growth; [apply ownerStep_growth | exact H].
  - destruct (asMap (index obj "metadata")) as [metadata|]; simpl; [|done].
    destruct (index metadata "ownerReferences"); try (by intros [= <-]).
    apply forM_growth, ownerStep_growth.
  - destruct (asMap (index obj "spec")) as [spec|]; simpl; [|done].
    destruct (asMap (index spec "template")) as [template|]; simpl; [|done].
    destruct (asMap (index template "spec")) as [tspec|]; simpl; [|done].
    destruct (index tspec "volumes"); try (by intros [= <-]).
    apply forM_growth, volumeStep_growth.
Qed.


Lemma reachable_run events st :
  run initState events = Ok st → reachable st.
Proof. intros H. by exists Scenario.noListing, events, initState, false. Qed.

Lemma handleEvent_upsert st e st' u :
  evType e = Added ∨ evType e = Modified →
  handleEvent st e = Ok st' → evUnstructured e = Some u →
  ∃ metadata name namespace g1,
    asMap (index u "metadata") = Ok metadata ∧
    asString (index metadata "name") = Ok name ∧
    namespaceOf metadata = Ok namespace ∧
    AddNode (graph st) (evObject e) = Ok g1 ∧
    updateRelationships g1 (rangePods (podCache st)) u (resourceType e) name
      namespace = Ok (graph st').
Proof.
  unfold handleEvent, UpdateNode. intros Hty H Hu. rewrite Hu in H.
  destruct (asMap (index u "metadata")) as [metadata|] eqn:Hm; [simpl in H|done].
  destruct (asString (index metadata "name")) as [name|] eqn:Hn; [simpl in H|done].
  destruct (namespaceOf metadata) as [namespace|] eqn:Hns; [simpl in H|done].
  exists metadata, name, namespace.
  destruct Hty as [Hty|Hty]; rewrite Hty in H;
    (destruct (AddNode (graph st) (evObject e)) as [g1|]; [simpl in H|done]);
    (destruct (updateRelationships g1 _ _ _ _ _) as [g2|] eqn:H2; [simpl in H|done]);
    injection H as <-; rewrite graph_cachePut; by exists g1.
Qed.

Lemma updateRelationships_runs_on g pods obj name namespace spec nodeName g' :
  obj !! "spec" = Some (VMap spec) →
  spec !! "nodeName" = Some (VString nodeName) → nodeName ≠ "" →
  updateRelationships g pods obj "Pod" name namespace = Ok g' →
  (mkKey name namespace "Pod", mkKey nodeName "" "Node", "runs_on") ∈ edgeIds g'.
Proof.
  intros Hs Hn Hne. unfold updateRelationships. simpl.
  rewrite (index_Some _ _ _ Hs). simpl. rewrite (index_Some _ _ _ Hn).
  rewrite bool_decide_eq_true_2 by done.
  destruct (asMap (index obj "metadata")) as [metadata|]; simpl; [|done].
  destruct (index metadata "ownerReferences");
    try (intros [= <-]; apply AddRelationship_elem).
  intros H. eapply prefix_elem; [|apply AddRelationship_elem].
  eapply forM_growth; [apply ownerStep_growth | exact H].
Qed.

Lemma updateRelationships_owned_by g pods obj rt wanted name namespace
    metadata refs owner ownerName g' :
  (rt, wanted) ∈ [("Pod", "ReplicaSet"); ("ReplicaSet", "Deployment")] →
  obj !! "metadata" = Some (VMap metadata) →
  metadata !! "ownerReferences" = Some (VList refs) →
  VMap owner ∈ refs →
  owner !! "kind" = Some (VString wanted) →
  owner !! "name" = Some (VString ownerName) →
  updateRelationships g pods obj rt name namespace = Ok g' →
  (mkKey name namespace rt, mkKey ownerName namespace wanted, "owned_by")
    ∈ edgeIds g'.
Proof.
  intros Hrt Hm Hr Hin Hk Hn. unfold updateRelationships.
  repeat (apply elem_of_cons in Hrt as [[= -> ->]|Hrt]); [| |by apply elem_of_nil in Hrt];
    simpl.
  - destruct (asMap (index obj "spec")) as [spec|]; simpl; [|done].
    rewrite (index_Some _ _ _ Hm). simpl. rewrite (index_Some _ _ _ Hr).
    apply (forM_elem _ refs (VMap owner)); [apply ownerStep_growth| |done].
    intros h h'. by apply ownerStep_adds.
  - rewrite (index_Some _ _ _ Hm). simpl. rewrite (index_Some _ _ _ Hr).
    apply (forM_elem _ refs (VMap owner)); [apply ownerStep_growth| |done].
    intros h h'. by apply ownerStep_adds.
Qed.

Lemma updateRelationships_uses g pods obj name namespace
    spec template tspec volumes vol cm cmName g' :
  obj !! "spec" = Some (VMap spec) →
  spec !! "template" = Some (VMap template) →
  template !! "spec" = Some (VMap tspec) →
  tspec !! "volumes" = Some (VList volumes) →
  VMap vol ∈ volumes →
  vol !! "configMap" = Some (VMap cm) →
  cm !! "name" = Some (VString cmName) →
  updateRelationships g pods obj "Deployment" name namespace = Ok g' →
  (mkKey name namespace "Deployment", mkKey cmName namespace "ConfigMap", "uses")
    ∈ edgeIds g'.
Proof.
  intros Hs Ht Hts Hv Hin Hc Hn. unfold updateRelationships. simpl.
  rewrite (index_Some _ _ _ Hs). simpl. rewrite (index_Some _ _ _ Ht). simpl.
  rewrite (index_Some _ _ _ Hts). simpl. rewrite (index_Some _ _ _ Hv).
  apply (forM_elem _ volumes (VMap vol)); [apply volumeStep_growth| |done].
  intros h h'. by apply (volumeStep_adds _ _ _ cm).
Qed.

(** ** Selector matching *)

Lemma selectorLoop_true labels entries :
  selectorLoop labels entries = Ok true ↔
  ∀ key value, (key, value) ∈ entries → ifaceEq (index labels key) value = Ok true.
Proof.
  induction entries as [|[k v] rest IH]; simpl.
  - split; [|done]. intros _ key value Hin. by apply elem_of_nil in Hin.
  - destruct (ifaceEq (index labels k) v) as [[]|] eqn:He; simpl.
    + rewrite IH. split.
      * intros H key value [[= -> ->]|Hin]%elem_of_cons; auto.
      * intros H key value Hin. apply H. by right.
    + split; [done|]. intros H. specialize (H k v ltac:(by left)). congruence.
    + split; [done|]. intros H. specialize (H k v ltac:(by left)). congruence.
Qed.

Lemma selectorMatches_true selector labels :
  selectorMatches selector labels = Ok true ↔
  ∀ key value, selector !! key = Some value →
    ifaceEq (index labels key) value = Ok true.
Proof.
  unfold selectorMatches. rewrite selectorLoop_true. split.
  - intros H key value Hl. apply H. by apply elem_of_map_to_list.
  - intros H key value Hin. apply H. by apply elem_of_map_to_list.
Qed.

Lemma ifaceEq_string labels key s :
  ifaceEq (index labels key) (VString s) = Ok true ↔
  labels !! key = Some (VString s).
Proof.
  unfold index. destruct (labels !! key) as [v|]; simpl.
  - destruct v; simpl; try (split; intros; congruence).
    split.
    + intros [= H]. apply bool_decide_eq_true in H. by subst.
    + intros [= ->]. by rewrite bool_decide_eq_true_2.
  - split; intros; congruence.
Qed.

(** ** Slices keep their order *)

Lemma cut_sublist {A : Type} (i : nat) (l : list A) : cut i l `sublist_of` l.
Proof.
  revert i. induction l as [|a l IH]; intros [|i]; unfold cut; simpl; try done.
  - rewrite drop_0. by apply sublist_cons.
  - apply sublist_skip, IH.
Qed.

Lemma Relationships_RemoveRelationship_sublist g s t ty :
  Relationships (RemoveRelationship g s t ty) `sublist_of` Relationships g.
Proof.
  unfold RemoveRelationship. destruct (findRel _ _ _ _); [|done].
  apply cut_sublist.
Qed.

Lemma dropNode_sublist k ns ns' : dropNode k ns = Some ns' → ns' `sublist_of` ns.
Proof.
  revert ns'. induction ns as [|n rest IH]; simpl; intros ns'; [done|].
  destruct (keyEq (Key n) k).
  - intros [= <-]. by apply sublist_cons.
  - destruct (dropNode k rest) as [rest'|]; [|done].
    intros [= <-]. apply sublist_skip. by apply IH.
Qed.

Lemma RemoveNode_sublist g obj g' :
  RemoveNode g obj = Ok g' →
  Nodes g' `sublist_of` Nodes g ∧ Relationships g' `sublist_of` Relationships g.
Proof.
  unfold RemoveNode.
  destruct (objectToGraphNode obj) as [[node|]|]; simpl; [| |done].
  - destruct (dropNode (Key node) (Nodes g)) as [ns|] eqn:Hd; intros [= <-]; simpl.
    + split; [by eapply dropNode_sublist | done].
    + split; [done | apply dropIncident_sublist].
  - by intros [= <-].
Qed.

(** ** The cells read by [removeResourceRelationships]

    While the loop runs, the slice of the graph stays the front part of
    the cells the loop reads, and the number of cells does not change:
    the cells past the slice are the stale tail of the backing array. *)

Lemma shiftCells_middle {A : Type} (l1 l2 tail : list A) (x : A) :
  ∃ y, shiftCells (length l1) (length (l1 ++ x :: l2)) ((l1 ++ x :: l2) ++ tail)
       = (l1 ++ l2) ++ y :: tail.
Proof.
  unfold shiftCells.
  rewrite (take_app_length (l1 ++ x :: l2) tail).
  rewrite <- (app_assoc l1 (x :: l2) tail), take_app_length.
  replace (drop (S (length l1)) (l1 ++ x :: l2)) with l2
    by (symmetry; rewrite (cons_middle x l1 l2), app_assoc;
        replace (S (length l1)) with (length (l1 ++ [x]))
          by (rewrite length_app; simpl; lia);
        apply drop_app_length).
  rewrite !length_app. simpl.
  replace (length l1 + S (length l2) - 1)%nat with (length l1 + length l2)%nat by lia.
  rewrite drop_app_add'; [|done].
  destruct l2 as [|z l2] using rev_ind.
  - exists x. simpl. by rewrite !app_nil_r.
  - exists z. rewrite length_app. simpl.
    replace (length l2 + 1)%nat with (S (length l2)) by lia.
    simpl. rewrite <- (app_assoc l2 [z] tail).
    replace (drop (length l2) (l2 ++ [z] ++ tail)) with ([z] ++ tail)
      by (symmetry; apply drop_app_length).
    by rewrite <- !app_assoc.
Qed.

Lemma removeInPlace_cells g cells s t ty :
  Relationships g `prefix_of` cells →
  Relationships (removeInPlace g cells s t ty).1
    `prefix_of` (removeInPlace g cells s t ty).2 ∧
  length (removeInPlace g cells s t ty).2 = length cells.
Proof.
  intros [tail ->]. unfold removeInPlace, RemoveRelationship. simpl.
  destruct (findRel s t ty (Relationships g)) as [i|] eqn:Hf.
  - destruct (findRel_Some _ _ _ _ _ Hf) as (l1 & r & l2 & Hg & <- & _ & _).
    simpl. rewrite Hg, cut_middle.
    destruct (shiftCells_middle l1 l2 tail r) as [y ->].
    split; [by eexists|]. repeat (rewrite ?length_app; simpl). lia.
  - split; [by exists tail | done].
Qed.

(** ** The order in which a service visits the cached pods

    The model visits the pod cache in the order of [map_to_list]; a run
    may visit it in any order.  In the states the program reaches the
    cached pods have distinct keys, so the order decides where new
    edges land in the slice and nothing else: the loop succeeds in one
    order exactly when it does in another, and it leaves the same nodes
    and the same set of edges. *)

Lemma targetStep_op name namespace selector g pod :
  targetStep name namespace selector g pod
  = (let* op := targetOp selector pod in
     Ok (applyOp (mkKey name namespace "Service") g op)).
Proof.
  unfold targetStep, targetOp, applyOp.
  destruct (asMap (index pod "metadata")) as [metadata|]; simpl; [|done].
  destruct (asString (index metadata "name")) as [podName|]; simpl; [|done].
  destruct (asString (index metadata "namespace")) as [podNamespace|]; simpl; [|done].
  destruct (labelsOf metadata) as [podLabels|]; simpl; [|done].
  destruct (selectorMatches selector podLabels) as [[]|]; done.
Qed.

Lemma targetOp_identity selector pod op :
  targetOp selector pod = Ok op → podIdentity pod = Ok op.1.
Proof.
  unfold targetOp, podIdentity.
  destruct (asMap (index pod "metadata")) as [metadata|]; simpl; [|done].
  destruct (asString (index metadata "name")) as [podName|]; simpl; [|done].
  destruct (asString (index metadata "namespace")) as [podNamespace|]; simpl; [|done].
  destruct (labelsOf metadata) as [podLabels|]; simpl; [|done].
  destruct (selectorMatches selector podLabels) as [m|]; simpl; [|done].
  by intros [= <-].
Qed.

(** The loop, as the operations of its pods applied in turn. *)
Lemma forM_targetStep_ops name namespace selector pods : ∀ g g',
  forM (targetStep name namespace selector) g pods = Ok g' ↔
  ∃ ops, Forall2 (fun pod op => targetOp selector pod = Ok op) pods ops ∧
         g' = foldl (applyOp (mkKey name namespace "Service")) g ops.
Proof.
  induction pods as [|pod pods IH]; simpl; intros g g'.
  - split.
    + intros [= <-]. exists []. by split; [constructor|].
    + intros (ops & Hf & ->). by apply Forall2_nil_inv_l in Hf as ->.
  - rewrite targetStep_op. destruct (targetOp selector pod) as [op|] eqn:Hop; simpl.
    + rewrite IH. split.
      * intros (ops & Hf & ->). exists (op :: ops). by split; [constructor|].
      * intros (ops & Hf & ->).
        apply Forall2_cons_inv_l in Hf as (op' & ops' & Hop' & Hf & ->).
        rewrite Hop in Hop'. injection Hop' as <-. by exists ops'.
    + split; [done|]. intros (ops & Hf & _).
      apply Forall2_cons_inv_l in Hf as (op' & ops' & Hop' & _). congruence.
Qed.

Lemma Forall2_targetOp_Permutation selector pods pods' ops :
  pods ≡ₚ pods' →
  Forall2 (fun pod op => targetOp selector pod = Ok op) pods ops →
  ∃ ops', ops ≡ₚ ops' ∧
          Forall2 (fun pod op => targetOp selector pod = Ok op) pods' ops'.
Proof.
  intros Hp. revert ops. induction Hp as [|x l l' Hp IH|x y l|l l' l'' H1 IH1 H2 IH2];
    intros ops Hf.
  - apply Forall2_nil_inv_l in Hf as ->. exists []. by split; [|constructor].
  - apply Forall2_cons_inv_l in Hf as (op & ops' & Hop & Hf & ->).
    destruct (IH _ Hf) as (ops'' & Hp' & Hf'). exists (op :: ops'').
    split; [by constructor | by constructor].
  - apply Forall2_cons_inv_l in Hf as (op1 & ops1 & Hop1 & Hf & ->).
    apply Forall2_cons_inv_l in Hf as (op2 & ops2 & Hop2 & Hf & ->).
    exists (op2 :: op1 :: ops2). split; [apply perm_swap|].
    by repeat constructor.
  - destruct (IH1 _ Hf) as (ops1 & Hp1 & Hf1).
    destruct (IH2 _ Hf1) as (ops2 & Hp2 & Hf2).
    exists ops2. split; [by etrans | done].
Qed.

(** With distinct pod keys, the operations remove the edges to the pods
    that do not match and add the edges to those that do. *)
Lemma foldl_applyOp_edgeSet service ops : ∀ g,
  NoDup ops.*1 → NoDup (edgeIds g) →
  NoDup (edgeIds (foldl (applyOp service) g ops)) ∧
  Nodes (foldl (applyOp service) g ops) = Nodes g ∧
  ∀ id, id ∈ edgeIds (foldl (applyOp service) g ops) ↔
    (∃ pod, id = (service, pod, "targets") ∧ (pod, true) ∈ ops) ∨
    (id ∈ edgeIds g ∧ ¬ ∃ pod, id = (service, pod, "targets") ∧ (pod, false) ∈ ops).
Proof.
  induction ops as [|[pod m] ops IH]; simpl; intros g Hops Hnd.
  - split_and!; [done..|]. intros id. split; [|set_solver].
    intros Hin. right. split; [done|]. intros (p & _ & H). by apply elem_of_nil in H.
  - apply NoDup_cons in Hops as [Hpod Hops].
    assert (∀ b, (pod, b) ∉ ops) as Hfresh.
    { intros b Hin. apply Hpod. apply list_elem_of_fmap. by exists (pod, b). }
    unfold applyOp at 2 4 6. simpl. destruct m.
    + destruct (IH (AddRelationship g service pod "targets" None) Hops
                  (NoDup_AddRelationship _ _ _ _ _ Hnd)) as (Hnd' & Hn' & Hin').
      split_and!; [done | by rewrite Hn', Nodes_AddRelationship |].
      intros id. rewrite Hin', elem_of_edgeIds_AddRelationship. split.
      * intros [(p & -> & Hp)|[[->|Hg] Hno]].
        -- left. exists p. split; [done | by right].
        -- left. exists pod. split; [done | by left].
        -- right. split; [done|]. intros (p & -> & [[=]|Hp]%elem_of_cons).
           apply Hno. by exists p.
      * intros [(p & -> & [[= ->]|Hp]%elem_of_cons)|[Hg Hno]].
        -- right. split; [by left|]. intros (p & [= <-] & Hp). by apply (Hfresh false).
        -- left. by exists p.
        -- right. split; [by right|]. intros (p & -> & Hp). apply Hno.
           exists p. split; [done | by right].
    + destruct (IH (RemoveRelationship g service pod "targets") Hops
                  (NoDup_RemoveRelationship _ _ _ _ Hnd)) as (Hnd' & Hn' & Hin').
      split_and!; [done | by rewrite Hn', Nodes_RemoveRelationship |].
      intros id. rewrite Hin', elem_of_edgeIds_RemoveRelationship by done. split.
      * intros [(p & -> & Hp)|[[Hne Hg] Hno]].
        -- left. exists p. split; [done | by right].
        -- right. split; [done|]. intros (p & -> & [[= ->]|Hp]%elem_of_cons); [done|].
           apply Hno. by exists p.
      * intros [(p & -> & [[=]|Hp]%elem_of_cons)|[Hg Hno]].
        -- left. by exists p.
        -- right. split; [split; [|done]|].
           ++ intros ->. apply Hno. exists pod. split; [done | by left].
           ++ intros (p & -> & Hp). apply Hno. exists p. split; [done | by right].
Qed.

Lemma targetOps_distinct selector (l : list (string * gmap string Value)) :
  ∀ ops,
  (∀ k pod key, (k, pod) ∈ l → podIdentity pod = Ok key →
                k = cacheKey (Namespace key) (Name key)) →
  NoDup l.*1 →
  Forall2 (fun pod op => targetOp selector pod = Ok op) l.*2 ops →
  NoDup ops.*1 ∧
  ∀ op, op ∈ ops → cacheKey (Namespace op.1) (Name op.1) ∈ l.*1.
Proof.
  induction l as [|[k pod] l IH]; simpl; intros ops Hok Hnd Hf.
  - apply Forall2_nil_inv_l in Hf as ->. split; [constructor|].
    intros op Hin. by apply elem_of_nil in Hin.
  - apply Forall2_cons_inv_l in Hf as (op & ops' & Hop & Hf & ->).
    apply NoDup_cons in Hnd as [Hk Hnd].
    assert (∀ k' pod' key, (k', pod') ∈ l → podIdentity pod' = Ok key →
                           k' = cacheKey (Namespace key) (Name key)) as Hok'.
    { intros k' pod' key Hin. apply Hok. by right. }
    destruct (IH ops' Hok' Hnd Hf) as [Hnd' Hkeys].
    assert (k = cacheKey (Namespace op.1) (Name op.1)) as Hkey.
    { apply (Hok k pod); [by left | by eapply targetOp_identity]. }
    split.
    + simpl. apply NoDup_cons. split; [|done].
      intros Hin. apply list_elem_of_fmap in Hin as (op' & Heq & Hin).
      apply Hk. rewrite Hkey, Heq. by apply Hkeys.
    + intros op' [->|Hin]%elem_of_cons; apply elem_of_cons; [by left|].
      right. by apply Hkeys.
Qed.

Lemma cacheOK_distinct cache selector ops :
  cacheOK cache →
  Forall2 (fun pod op => targetOp selector pod = Ok op)
    (map_to_list cache).*2 ops →
  NoDup ops.*1.
Proof.
  intros Hok Hf.
  apply (targetOps_distinct selector (map_to_list cache) ops); [| |done].
  - intros k pod key Hin. apply Hok. by apply elem_of_map_to_list.
  - apply NoDup_fst_map_to_list.
Qed.

(** A service loop over the cached pods, taken in any order. *)
Lemma service_loop_any_order cache name namespace selector order g g1 :
  cacheOK cache → NoDup (edgeIds g) →
  order ≡ₚ rangePods cache →
  forM (targetStep name namespace selector) g (rangePods cache) = Ok g1 →
  ∃ g2,
    forM (targetStep name namespace selector) g order = Ok g2 ∧
    Nodes g2 = Nodes g1 ∧ edgeIds g2 ≡ₚ edgeIds g1.
Proof.
  unfold rangePods. intros Hok Hnd Hperm H1.
  apply forM_targetStep_ops in H1 as (ops & Hf & ->).
  pose proof (cacheOK_distinct _ _ _ Hok Hf) as Hdist.
  symmetry in Hperm.
  destruct (Forall2_targetOp_Permutation _ _ _ _ Hperm Hf) as (ops' & Hp & Hf').
  exists (foldl (applyOp (mkKey name namespace "Service")) g ops').
  split; [apply forM_targetStep_ops; by exists ops'|].
  assert (NoDup ops'.*1) as Hdist' by (by rewrite <- Hp).
  destruct (foldl_applyOp_edgeSet (mkKey name namespace "Service") ops g Hdist Hnd)
    as (Hnd1 & Hn1 & Hin1).
  destruct (foldl_applyOp_edgeSet (mkKey name namespace "Service") ops' g Hdist' Hnd)
    as (Hnd2 & Hn2 & Hin2).
  split; [congruence|]. apply NoDup_Permutation; [done..|].
  intros id. rewrite Hin1, Hin2.
  assert (∀ op, op ∈ ops ↔ op ∈ ops') as Hmem by (intros op; by rewrite Hp).
  by setoid_rewrite Hmem.
Qed.

(** The same for [updateRelationships] as a whole: only its [Service]
    case visits the pods. *)
Lemma updateRelationships_any_order cache g obj rt name namespace order g1 :
  cacheOK cache → NoDup (edgeIds g) →
  order ≡ₚ rangePods cache →
  updateRelationships g (rangePods cache) obj rt name namespace = Ok g1 →
  ∃ g2,
    updateRelationships g order obj rt name namespace = Ok g2 ∧
    Nodes g2 = Nodes g1 ∧ edgeIds g2 ≡ₚ edgeIds g1.
Proof.
  intros Hok Hnd Hperm. unfold updateRelationships.
  destruct (decide (rt = "Service")) as [->|Hne].
  - simpl. destruct (asMap (index obj "spec")) as [spec|]; simpl; [|done].
    destruct (index spec "selector"); try (intros [= <-]; by exists g).
    by apply service_loop_any_order.
  - repeat case_bool_decide; try done; intros Hup; by exists g1.
Qed.

(** *** The cache invariant holds in every reachable state *)

Lemma cacheOK_empty : cacheOK ∅.
Proof. intros k pod key Hl. by rewrite lookup_empty in Hl. Qed.

Lemma cacheOK_insert cache pod key :
  cacheOK cache →
  (∀ key', podIdentity pod = Ok key' →
           key = cacheKey (Namespace key') (Name key')) →
  cacheOK (<[key := pod]> cache).
Proof.
  intros Hok Hnew k pod' key' Hl Hid.
  destruct (decide (key = k)) as [<-|Hne].
  - rewrite lookup_insert_eq in Hl. injection Hl as <-. by apply Hnew.
  - rewrite lookup_insert_ne in Hl by done. by eapply Hok.
Qed.

Lemma cacheOK_delete cache key : cacheOK cache → cacheOK (delete key cache).
Proof.
  intros Hok k pod key' Hl Hid.
  destruct (decide (key = k)) as [<-|Hne].
  - by rewrite lookup_delete_eq in Hl.
  - rewrite lookup_delete_ne in Hl by done. by eapply Hok.
Qed.

Lemma podIdentity_watch u metadata name namespace key :
  asMap (index u "metadata") = Ok metadata →
  asString (index metadata "name") = Ok name →
  namespaceOf metadata = Ok namespace →
  podIdentity u = Ok key →
  cacheKey namespace name = cacheKey (Namespace key) (Name key).
Proof.
  unfold podIdentity, namespaceOf, index. intros -> Hn Hns. simpl.
  unfold index in Hn. rewrite Hn. simpl.
  destruct (metadata !! "namespace") as [v|]; simpl; [|done].
  destruct v; simpl; try done. injection Hns as ->. by intros [= <-].
Qed.

Lemma handleEvent_cacheOK st e st' :
  handleEvent st e = Ok st' → cacheOK (podCache st) → cacheOK (podCache st').
Proof.
  unfold handleEvent, UpdateNode. intros H Hok.
  destruct (evUnstructured e) as [u|]; [|by injection H as <-].
  destruct (asMap (index u "metadata")) as [metadata|] eqn:Hm; [simpl in H|done].
  destruct (asString (index metadata "name")) as [name|] eqn:Hn; [simpl in H|done].
  destruct (namespaceOf metadata) as [namespace|] eqn:Hns; [simpl in H|done].
  destruct (evType e); try by injection H as <-.
  1,2: destruct (AddNode (graph st) (evObject e)) as [g1|]; [simpl in H|done];
    destruct (updateRelationships g1 _ _ _ _ _) as [g2|]; [simpl in H|done];
    injection H as <-; unfold cachePut; repeat case_bool_decide; simpl; try done;
    apply cacheOK_insert; [done|]; intros key';
    by apply (podIdentity_watch u metadata).
  destruct (RemoveNode (graph st) (evObject e)) as [g1|]; [simpl in H|done].
  injection H as <-. unfold cacheDelete. repeat case_bool_decide; simpl; try done.
  by apply cacheOK_delete.
Qed.

Lemma cacheStep_cacheOK cache item cache' :
  cacheStep cache item = Ok cache' → cacheOK cache → cacheOK cache'.
Proof.
  unfold cacheStep. intros H Hok.
  destruct (ifaceAsMap item) as [obj|]; [simpl in H|done].
  destruct (asMap (index obj "metadata")) as [metadata|] eqn:Hm; [simpl in H|done].
  destruct (asString (index metadata "name")) as [name|] eqn:Hn; [simpl in H|done].
  destruct (asString (index metadata "namespace")) as [namespace|] eqn:Hns;
    [simpl in H|done].
  injection H as <-. apply cacheOK_insert; [done|].
  intros key'. unfold podIdentity. rewrite Hm. simpl. rewrite Hn. simpl.
  rewrite Hns. simpl. by intros [= <-].
Qed.

Lemma listAllResources_cacheOK c st st' listed :
  listAllResources c st = Ok (st', listed) →
  cacheOK (podCache st) → cacheOK (podCache st').
Proof.
  unfold listAllResources. intros H Hok.
  destruct (listPods c) as [pods|]; [|by injection H as <- <-].
  destruct (forM cacheStep (podCache st) pods) as [pc|] eqn:Hpc; [simpl in H|done].
  assert (cacheOK pc) as Hpc'.
  { revert Hpc Hok. apply forM_inv. intros s x s'. apply cacheStep_cacheOK. }
  clear Hpc Hok.
  repeat match type of H with
  | Ok _ = Ok _ => injection H as <- <-; simpl
  | Panic = Ok _ => discriminate H
  | context [match ?o with Some _ => _ | None => _ end] => destruct o
  | context [bind ?r _] => destruct r; simpl in H
  end; done.
Qed.

Lemma reachable_cacheOK st : reachable st → cacheOK (podCache st).
Proof.
  intros (c & events & st0 & listed & Hl & Hr).
  apply listAllResources_cacheOK in Hl; [|apply cacheOK_empty].
  unfold run in Hr.
  by apply (forM_inv (fun s => cacheOK (podCache s)) handleEvent events
              handleEvent_cacheOK st0 st).
Qed.

(** ** Shared lemmas on the service loop and on the client's listing *)

Lemma targetOp_fields selector pod key m :
  targetOp selector pod = Ok (key, m) ↔
  ∃ pm pn pns labels,
    index pod "metadata" = VMap pm ∧ index pm "name" = VString pn ∧
    index pm "namespace" = VString pns ∧ labelsOf pm = Ok labels ∧
    selectorMatches selector labels = Ok m ∧ key = mkKey pn pns "Pod".
Proof.
  unfold targetOp. split.
  - destruct (index pod "metadata") as [| | | | |pm]; simpl; try done.
    destruct (index pm "name") as [| | |pn| |] eqn:Hn; simpl; try done.
    destruct (index pm "namespace") as [| | |pns| |] eqn:Hns; simpl; try done.
    destruct (labelsOf pm) as [labels|] eqn:Hl; simpl; [|done].
    destruct (selectorMatches selector labels) as [m'|] eqn:Hsel; simpl; [|done].
    intros [= <- <-]. by exists pm, pn, pns, labels.
  - intros (pm & pn & pns & labels & -> & Hn & Hns & Hl & Hsel & ->). simpl.
    rewrite Hn, Hns. simpl. rewrite Hl. simpl. by rewrite Hsel.
Qed.

Lemma Forall2_targetOp_elem selector pods ops :
  Forall2 (fun pod op => targetOp selector pod = Ok op) pods ops →
  (∀ op, op ∈ ops → ∃ pod, pod ∈ pods ∧ targetOp selector pod = Ok op) ∧
  (∀ pod op, pod ∈ pods → targetOp selector pod = Ok op → op ∈ ops).
Proof.
  induction 1 as [|pod op pods ops Hop _ [IH1 IH2]]; split.
  - intros op Hin. by apply elem_of_nil in Hin.
  - intros pod op Hin. by apply elem_of_nil in Hin.
  - intros op' [->|Hin]%elem_of_cons.
    + exists pod. split; [by left | done].
    + destruct (IH1 _ Hin) as (pod' & Hp & Hop'). exists pod'. split; [by right|done].
  - intros pod' op' [->|Hin]%elem_of_cons Hop'.
    + rewrite Hop in Hop'. injection Hop' as <-. by left.
    + right. by eapply IH2.
Qed.

Lemma NoDup_fst_functional {A B} (l : list (A * B)) x y1 y2 :
  NoDup l.*1 → (x, y1) ∈ l → (x, y2) ∈ l → y1 = y2.
Proof.
  induction l as [|[a b] l IH]; simpl; intros Hnd H1 H2.
  - by apply elem_of_nil in H1.
  - apply NoDup_cons in Hnd as [Hfresh Hnd].
    apply elem_of_cons in H1 as [H1|H1]; apply elem_of_cons in H2 as [H2|H2];
      simplify_eq.
    + done.
    + exfalso. apply Hfresh. apply list_elem_of_fmap. by exists (a, y2).
    + exfalso. apply Hfresh. apply list_elem_of_fmap. by exists (a, y1).
    + by apply IH.
Qed.

Lemma elem_of_rangePods cache pod :
  pod ∈ rangePods cache ↔ ∃ k, cache !! k = Some pod.
Proof.
  unfold rangePods. rewrite list_elem_of_fmap. split.
  - intros ([k p] & -> & Hin). exists k. by apply elem_of_map_to_list.
  - intros (k & Hk). exists (k, pod). split; [done|]. by apply elem_of_map_to_list.
Qed.

Lemma selectorLoop_strings labels entries :
  (∀ key value, (key, value) ∈ entries → ∃ s, value = VString s) →
  ∃ b, selectorLoop labels entries = Ok b ∧
       (b = true ↔
        ∀ key value, (key, value) ∈ entries → labels !! key = Some value).
Proof.
  induction entries as [|[k v] rest IH]; intros Hs.
  - exists true. split; [done|]. split; [|done].
    intros _ key value Hin. by apply elem_of_nil in Hin.
  - destruct (Hs k v) as [s ->]; [by left|].
    destruct IH as (b & Hb & Hiff).
    { intros key value Hin. apply (Hs key). by right. }
    simpl.
    destruct (ifaceEq (index labels k) (VString s)) as [[]|] eqn:He; simpl.
    + apply ifaceEq_string in He. exists b. split; [done|]. rewrite Hiff. split.
      * intros H key value [[= -> ->]|Hin]%elem_of_cons; auto.
      * intros H key value Hin. apply H. by right.
    + exists false. split; [done|]. split; [done|]. intros H.
      specialize (H k (VString s) ltac:(by left)).
      apply ifaceEq_string in H. congruence.
    + exfalso. unfold index in He. destruct (labels !! k) as [[]|]; done.
Qed.

Lemma forM_AddNode_listItems g items :
  forM AddNode g (listItems items) = Ok g.
Proof. induction items as [|o items IH]; simpl; [done | exact IH]. Qed.

Lemma forM_listItems_nil {S : Type} (body : S → Iface → Result S) s :
  forM body s (listItems []) = Ok s.
Proof. done. Qed.

Lemma forM_listItems_panics {S : Type} (body : S → Iface → Result S) s o items :
  (∀ s' o', body s' (IStruct o') = Panic) →
  forM body s (listItems (o :: items)) = Panic.
Proof. intros Hb. simpl. by rewrite Hb. Qed.

(** The operations a service event applies, one for each cached pod,
    and the edges it leaves. *)
Lemma service_event_ops st st' e u metadata spec selector name namespace :
  reachable st →
  evType e = Added ∨ evType e = Modified →
  resourceType e = "Service" →
  evUnstructured e = Some u →
  u !! "metadata" = Some (VMap metadata) →
  metadata !! "name" = Some (VString name) →
  namespaceOf metadata = Ok namespace →
  u !! "spec" = Some (VMap spec) →
  spec !! "selector" = Some (VMap selector) →
  handleEvent st e = Ok st' →
  ∃ ops,
    Forall2 (fun pod op => targetOp selector pod = Ok op)
      (rangePods (podCache st)) ops ∧
    NoDup ops.*1 ∧
    ∀ id, id ∈ edgeIds (graph st') ↔
      (∃ pod, id = (mkKey name namespace "Service", pod, "targets")
              ∧ (pod, true) ∈ ops) ∨
      (id ∈ edgeIds (graph st)
       ∧ ¬ ∃ pod, id = (mkKey name namespace "Service", pod, "targets")
                  ∧ (pod, false) ∈ ops).
Proof.
  intros Hreach Hty Hrt Hu Hm Hn Hns Hs Hsel H.
  destruct (handleEvent_upsert _ _ _ _ Hty H Hu)
    as (metadata' & name' & namespace' & g1 & Hm' & Hn' & Hns' & H1 & H2).
  rewrite (index_Some _ _ _ Hm) in Hm'. injection Hm' as <-.
  rewrite (index_Some _ _ _ Hn) in Hn'. injection Hn' as <-.
  rewrite Hns in Hns'. injection Hns' as <-.
  rewrite Hrt in H2. unfold updateRelationships in H2. simpl in H2.
  rewrite (index_Some _ _ _ Hs) in H2. simpl in H2.
  rewrite (index_Some _ _ _ Hsel) in H2.
  apply forM_targetStep_ops in H2 as (ops & Hf & Hg').
  pose proof (cacheOK_distinct _ _ _ (reachable_cacheOK _ Hreach) Hf) as Hdist.
  pose proof (reachable_NoDup _ Hreach) as Hnd.
  rewrite <- (edgeIds_AddNode _ _ _ H1) in Hnd.
  destruct (foldl_applyOp_edgeSet (mkKey name namespace "Service") ops g1 Hdist Hnd)
    as (_ & _ & Hin).
  rewrite <- Hg' in Hin. rewrite (edgeIds_AddNode _ _ _ H1) in Hin.
  by exists ops.
Qed.

(** The edge from the service to a cached pod is there after the event
    exactly when the comparison loop answered [true] for the pod. *)
Lemma service_event_pod_edge st st' e u metadata spec selector name namespace
    k pod pm pn pns labels m :
  reachable st →
  evType e = Added ∨ evType e = Modified →
  resourceType e = "Service" →
  evUnstructured e = Some u →
  u !! "metadata" = Some (VMap metadata) →
  metadata !! "name" = Some (VString name) →
  namespaceOf metadata = Ok namespace →
  u !! "spec" = Some (VMap spec) →
  spec !! "selector" = Some (VMap selector) →
  handleEvent st e = Ok st' →
  podCache st !! k = Some pod →
  pod !! "metadata" = Some (VMap pm) →
  pm !! "name" = Some (VString pn) →
  pm !! "namespace" = Some (VString pns) →
  labelsOf pm = Ok labels →
  selectorMatches selector labels = Ok m →
  (mkKey name namespace "Service", mkKey pn pns "Pod", "targets")
    ∈ edgeIds (graph st') ↔ m = true.
Proof.
  intros Hreach Hty Hrt Hu Hm Hn Hns Hs Hsel H Hk Hpm Hpn Hpns Hl Hmatch.
  destruct (service_event_ops _ _ _ _ _ _ _ _ _ Hreach Hty Hrt Hu Hm Hn Hns Hs
              Hsel H) as (ops & Hf & Hdist & Hin).
  destruct (Forall2_targetOp_elem _ _ _ Hf) as [_ Hops2].
  assert ((mkKey pn pns "Pod", m) ∈ ops) as Hop.
  { apply (Hops2 pod); [apply elem_of_rangePods; by exists k|].
    apply targetOp_fields. exists pm, pn, pns, labels.
    by rewrite (index_Some _ _ _ Hpm), (index_Some _ _ _ Hpn),
      (index_Some _ _ _ Hpns). }
  rewrite Hin. split.
  - intros [(key & [= <-] & Htrue)|[_ Hno]].
    + by apply (NoDup_fst_functional ops (mkKey pn pns "Pod")).
    + destruct m; [done|]. exfalso. apply Hno. by exists (mkKey pn pns "Pod").
  - intros ->. left. by exists (mkKey pn pns "Pod").
Qed.

(** The comparison loop on a selector as the converter writes it. *)
Lemma selectorMatches_strings (selector : gmap string string)
    (labels : gmap string Value) :
  ∃ b, selectorMatches (VString <$> selector) labels = Ok b ∧
       (b = true ↔
        ∀ key value, selector !! key = Some value →
                     labels !! key = Some (VString value)).
Proof.
  unfold selectorMatches.
  destruct (selectorLoop_strings labels (map_to_list (VString <$> selector)))
    as (b & Hb & Hiff).
  { intros key value Hin. apply elem_of_map_to_list in Hin.
    rewrite lookup_fmap in Hin.
    destruct (selector !! key) as [v|]; simpl in Hin; [|done].
    injection Hin as <-. by exists v. }
  exists b. split; [done|]. rewrite Hiff. split.
  - intros H key value Hl. apply H. apply elem_of_map_to_list.
    by rewrite lookup_fmap, Hl.
  - intros H key value Hin. apply elem_of_map_to_list in Hin.
    rewrite lookup_fmap in Hin.
    destruct (selector !! key) as [v|] eqn:Hv; simpl in Hin; [|done].
    injection Hin as <-. by apply H.
Qed.

Lemma omitEmpty_empty (m : gmap string string) : m = ∅ → omitEmpty m = None.
Proof. intros ->. done. Qed.

Lemma omitEmpty_entries (m : gmap string string) :
  m ≠ ∅ → omitEmpty m = Some (VMap (VString <$> m)).
Proof.
  intros Hne. unfold omitEmpty. case_decide as Hs; [|done].
  by apply map_size_empty_iff in Hs.
Qed.

(** On the items the client returns, the listing leaves the state it
    started from whenever it returns. *)
Lemma listAllResources_client_state
    (pods replicasets deployments nodes services configmaps
       : option (list ApiObject)) (st st' : State) (listed : bool) :
  listAllResources
    (clientCluster pods replicasets deployments nodes services configmaps)
    st = Ok (st', listed) →
  st' = st.
Proof.
  destruct st as [g pc sc].
  unfold listAllResources, clientCluster.
  cbn -[listItems forM].
  destruct pods as [[|p ps]|]; cbn -[listItems forM].
  2: { by rewrite forM_listItems_panics. }
  2: { by intros [= <- <-]. }
  rewrite forM_listItems_nil. cbn -[listItems forM].
  rewrite forM_listItems_nil. cbn -[listItems forM].
  destruct replicasets as [rs|]; cbn -[listItems forM].
  2: { by intros [= <- <-]. }
  rewrite forM_AddNode_listItems. cbn -[listItems forM].
  destruct deployments as [ds|]; cbn -[listItems forM].
  2: { by intros [= <- <-]. }
  rewrite forM_AddNode_listItems. cbn -[listItems forM].
  destruct nodes as [ns|]; cbn -[listItems forM].
  2: { by intros [= <- <-]. }
  rewrite forM_AddNode_listItems. cbn -[listItems forM].
  destruct services as [[|s ss]|]; cbn -[listItems forM].
  2: { by rewrite forM_listItems_panics. }
  2: { by intros [= <- <-]. }
  rewrite forM_listItems_nil. cbn -[listItems forM].
  rewrite forM_listItems_nil. cbn -[listItems forM].
  destruct configmaps as [cs|]; cbn -[listItems forM].
  2: { by intros [= <- <-]. }
  rewrite forM_AddNode_listItems. cbn -[listItems forM].
  rewrite forM_listItems_nil. cbn -[listItems forM].
  destruct rs as [|r rs].
  2: { by rewrite forM_listItems_panics. }
  rewrite forM_listItems_nil. cbn -[listItems forM].
  rewrite forM_listItems_nil. cbn -[listItems forM].
  destruct ds as [|d ds].
  2: { by rewrite forM_listItems_panics. }
  rewrite forM_listItems_nil. cbn -[listItems forM].
  by intros [= <- <-].
Qed.

(** A service event whose spec has no selector entry is processed
    without a panic whenever [objectToGraphNode] does not panic on the
    event's object, and changes no relationship. *)
Lemma service_event_no_selector st e u metadata spec name namespace r :
  evType e = Added ∨ evType e = Modified →
  resourceType e = "Service" →
  evUnstructured e = Some u →
  u !! "metadata" = Some (VMap metadata) →
  metadata !! "name" = Some (VString name) →
  namespaceOf metadata = Ok namespace →
  u !! "spec" = Some (VMap spec) →
  spec !! "selector" = None →
  objectToGraphNode (evObject e) = Ok r →
  ∃ st', handleEvent st e = Ok st' ∧
         Relationships (graph st') = Relationships (graph st).
Proof.
  intros Hty Hrt Hu Hm Hn Hns Hs Hsel Ho.
  assert (∃ g1, AddNode (graph st) (evObject e) = Ok g1
                ∧ Relationships g1 = Relationships (graph st)) as (g1 & H1 & Hr1).
  { unfold AddNode. rewrite Ho. simpl. destruct r as [node|]; [|by eexists].
    destruct (replaceNode node (Nodes (graph st))); by eexists. }
  assert (updateRelationships g1 (rangePods (podCache st)) u "Service" name
            namespace = Ok g1) as H2.
  { unfold updateRelationships. simpl.
    rewrite (index_Some _ _ _ Hs). simpl.
    unfold index. by rewrite Hsel. }
  unfold handleEvent, UpdateNode.
  rewrite Hu, (index_Some _ _ _ Hm). simpl.
  rewrite (index_Some _ _ _ Hn). simpl. rewrite Hns. simpl.
  destruct Hty as [-> | ->]; rewrite H1; simpl; rewrite Hrt, H2; simpl;
    (eexists; split; [done|]); by rewrite graph_cachePut.
Qed.

(** * The properties of the specification *)

Import Scenario.

(** C1 (selector correctness on relabel).  The specification says that a
    [Modified] event which relabels a targeted pod so that it no longer
    satisfies the selector removes the [targets] edge.  The [Pod] case
    of [updateRelationships] derives [runs_on] and [owned_by] only and
    never reads the service cache: with service [svc1] selecting
    [app=x] and pod [p1] relabelled from [app=x] to [app=y], the new
    labels do not match and the edge [svc1 -> p1] is still there. *)
Theorem relabel_keeps_targets_edge :
  selectorMatches appX appY = Ok false ∧
  edgesOf (run initState
             [podEvent Added "p1" p1_x; serviceEvent Added "svc1" svc1_x])
    = Some [(p1, n1, "runs_on"); (p1, rs1, "owned_by");
            (svc1, p1, "targets")] ∧
  edgesOf (run initState
             [podEvent Added "p1" p1_x; serviceEvent Added "svc1" svc1_x;
              podEvent Modified "p1" p1_y])
    = Some [(p1, n1, "runs_on"); (p1, rs1, "owned_by");
            (svc1, p1, "targets")].
Proof. vm_compute. done. Qed.

(** C2 (no dangling edges).  The specification says that after a
    [Deleted] event for a key no edge has that key as source or target.
    [RemoveNode] returns before its own cascade when it finds the node,
    and the [range] loop of [removeResourceRelationships] skips the
    cell that each removal shifts under its index: pod [p1] with its
    three incident edges is deleted, the node goes, and the edge
    [p1 -owned_by-> rs1] survives. *)
Theorem delete_leaves_dangling_edge :
  edgesOf (run initState
             [podEvent Added "p1" p1_x; serviceEvent Added "svc1" svc1_x])
    = Some [(p1, n1, "runs_on"); (p1, rs1, "owned_by");
            (svc1, p1, "targets")] ∧
  edgesOf (run initState
             [podEvent Added "p1" p1_x; serviceEvent Added "svc1" svc1_x;
              podEvent Deleted "p1" p1_x])
    = Some [(p1, rs1, "owned_by")] ∧
  nodesOf (run initState
             [podEvent Added "p1" p1_x; serviceEvent Added "svc1" svc1_x;
              podEvent Deleted "p1" p1_x])
    = Some [svc1].
Proof. vm_compute. done. Qed.

(** C3, as the specification states it, fails: after pod [p1] is added
    on node [n1] and then modified to run on [n2], both [runs_on] edges
    exist, so the edges are not single-valued and the old edge was not
    retracted; and one event of a deployment that mounts two config
    maps derives two [uses] edges from it. *)
Lemma moved_pod_keeps_both_runs_on :
  edgesOf (run initState
             [podEvent Added "p1" p1_x; podEvent Modified "p1" p1_n2])
    = Some [(p1, n1, "runs_on"); (p1, rs1, "owned_by"); (p1, n2, "runs_on")] ∧
  ¬ singleValued
      [(p1, n1, "runs_on"); (p1, rs1, "owned_by"); (p1, n2, "runs_on")] ∧
  edgesOf (run initState [deploymentEvent Added "d1" d1_two])
    = Some [(d1, c1, "uses"); (d1, c2, "uses")] ∧
  ¬ singleValued [(d1, c1, "uses"); (d1, c2, "uses")].
Proof.
  split_and!; try (vm_compute; reflexivity).
  - intros H. specialize (H p1 n1 n2 "runs_on").
    assert (n1 = n2) as Heq; [|discriminate Heq].
    apply H; set_solver.
  - intros H. specialize (H d1 c1 c2 "uses").
    assert (c1 = c2) as Heq; [|discriminate Heq].
    apply H; set_solver.
Qed.

(** C3 (single-valued rules), amended.  In every reachable state, when
    an [Added] or [Modified] event of a pod, replica set or deployment
    is processed: there is still at most one edge for each identity
    (source, target, type); no edge is retracted (the old edge list is
    a prefix of the new one); and the edge to each target the object
    now refers to exists: [runs_on] to a non-empty [nodeName],
    [owned_by] to every owner reference of the wanted kind, [uses] to
    every [configMap] volume. *)
Theorem single_field_rules_add_and_keep (st st' : State) (e : Event) :
  reachable st →
  evType e = Added ∨ evType e = Modified →
  resourceType e ∈ ["Pod"; "ReplicaSet"; "Deployment"] →
  handleEvent st e = Ok st' →
  NoDup (edgeIds (graph st')) ∧
  edgeIds (graph st) `prefix_of` edgeIds (graph st') ∧
  ∀ u metadata name namespace,
    evUnstructured e = Some u →
    u !! "metadata" = Some (VMap metadata) →
    metadata !! "name" = Some (VString name) →
    namespaceOf metadata = Ok namespace →
    (resourceType e = "Pod" →
     ∀ spec nodeName,
       u !! "spec" = Some (VMap spec) →
       spec !! "nodeName" = Some (VString nodeName) → nodeName ≠ "" →
       (mkKey name namespace "Pod", mkKey nodeName "" "Node", "runs_on")
         ∈ edgeIds (graph st')) ∧
    (∀ wanted refs owner ownerName,
       (resourceType e, wanted)
         ∈ [("Pod", "ReplicaSet"); ("ReplicaSet", "Deployment")] →
       metadata !! "ownerReferences" = Some (VList refs) →
       VMap owner ∈ refs →
       owner !! "kind" = Some (VString wanted) →
       owner !! "name" = Some (VString ownerName) →
       (mkKey name namespace (resourceType e),
        mkKey ownerName namespace wanted, "owned_by")
         ∈ edgeIds (graph st')) ∧
    (resourceType e = "Deployment" →
     ∀ spec template tspec volumes vol cm cmName,
       u !! "spec" = Some (VMap spec) →
       spec !! "template" = Some (VMap template) →
       template !! "spec" = Some (VMap tspec) →
       tspec !! "volumes" = Some (VList volumes) →
       VMap vol ∈ volumes →
       vol !! "configMap" = Some (VMap cm) →
       cm !! "name" = Some (VString cmName) →
       (mkKey name namespace "Deployment",
        mkKey cmName namespace "ConfigMap", "uses")
         ∈ edgeIds (graph st')).
Proof.
  intros Hreach Hty Hrt H. split; [|split].
  - eapply handleEvent_NoDup; [exact H | by apply reachable_NoDup].
  - destruct (evUnstructured e) as [u|] eqn:Hu.
    + destruct (handleEvent_upsert _ _ _ _ Hty H Hu)
        as (metadata & name & namespace & g1 & _ & _ & _ & H1 & H2).
      rewrite <- (edgeIds_AddNode _ _ _ H1).
      by eapply updateRelationships_growth.
    + unfold handleEvent in H. rewrite Hu in H. by injection H as <-.
  - intros u metadata name namespace Hu Hm Hn Hns.
    destruct (handleEvent_upsert _ _ _ _ Hty H Hu)
      as (metadata' & name' & namespace' & g1 & Hm' & Hn' & Hns' & H1 & H2).
    rewrite (index_Some _ _ _ Hm) in Hm'. injection Hm' as <-.
    rewrite (index_Some _ _ _ Hn) in Hn'. injection Hn' as <-.
    rewrite Hns in Hns'. injection Hns' as <-.
    split_and!.
    + intros Hpod spec nodeName Hs Hnn Hne. rewrite Hpod in H2.
      by apply (updateRelationships_runs_on g1 (rangePods (podCache st)) u name
                  namespace spec nodeName).
    + intros wanted refs owner ownerName Hw Hr Hin Hk Hon.
      by apply (updateRelationships_owned_by g1 (rangePods (podCache st)) u _
                  wanted name namespace metadata refs owner ownerName).
    + intros Hdep spec template tspec volumes vol cm cmName Hs Ht Hts Hv Hin Hc Hcn.
      rewrite Hdep in H2.
      by apply (updateRelationships_uses g1 (rangePods (podCache st)) u name
                  namespace spec template tspec volumes vol cm cmName).
Qed.

Lemma single_field_rules_add_and_keep_witness :
  (p1, n1, "runs_on")
    ∈ edgeIds (graph (stateAfter [podEvent Added "p1" p1_x;
                                  podEvent Modified "p1" p1_n2])) ∧
  (p1, n2, "runs_on")
    ∈ edgeIds (graph (stateAfter [podEvent Added "p1" p1_x;
                                  podEvent Modified "p1" p1_n2])).
Proof.
  destruct (single_field_rules_add_and_keep
              (stateAfter [podEvent Added "p1" p1_x])
              (stateAfter [podEvent Added "p1" p1_x;
                           podEvent Modified "p1" p1_n2])
              (podEvent Modified "p1" p1_n2))
    as (_ & Hkeep & Hnew).
  - apply (reachable_run [podEvent Added "p1" p1_x]). vm_compute. reflexivity.
  - right. reflexivity.
  - apply elem_of_cons. left. reflexivity.
  - vm_compute. reflexivity.
  - split.
    + apply (prefix_elem _ _ _ Hkeep). vm_compute. left.
    + destruct (Hnew p1_n2
                  (<["name" := VString "p1"]>
                   (<["namespace" := VString "default"]>
                    (<["labels" := VMap appX]>
                     {[ "ownerReferences" := VList [ownerRef "ReplicaSet" "rs1"] ]})))
                  "p1" "default") as (Hrun & _); try (vm_compute; reflexivity).
      apply (Hrun eq_refl {[ "nodeName" := VString "n2" ]} "n2");
        [vm_compute; reflexivity | vm_compute; reflexivity | discriminate].
Defined.

(** C4 (selector matching).  The watch loop reads a service's selector
    from what the converter made of the service, and the converter
    leaves a selector without entries out of the spec ([omitEmpty]).
    In a reachable state, for an [Added] or [Modified] event of a
    service: when the selector has entries, the [targets] edge from
    the service to a cached pod exists after the event exactly when
    every (key, value) pair of the selector is in the pod's label map
    with that very value; when the selector is empty, the event is
    processed without a panic and leaves every relationship as it was,
    so it derives no [targets] edge to any pod.  The listing, on the
    items the client returns, derives no edge at all. *)
Theorem empty_selector_derives_no_edge (st : State) (e : Event)
    (u metadata spec : gmap string Value) (name namespace : string)
    (selector : gmap string string) (r : option GraphNode) :
  reachable st →
  evType e = Added ∨ evType e = Modified →
  resourceType e = "Service" →
  evUnstructured e = Some u →
  u !! "metadata" = Some (VMap metadata) →
  metadata !! "name" = Some (VString name) →
  namespaceOf metadata = Ok namespace →
  u !! "spec" = Some (VMap spec) →
  spec !! "selector" = omitEmpty selector →
  objectToGraphNode (evObject e) = Ok r →
  (selector ≠ ∅ →
   ∀ st' k pod pm pn pns labels,
     handleEvent st e = Ok st' →
     podCache st !! k = Some pod →
     pod !! "metadata" = Some (VMap pm) →
     pm !! "name" = Some (VString pn) →
     pm !! "namespace" = Some (VString pns) →
     labelsOf pm = Ok labels →
     ((mkKey name namespace "Service", mkKey pn pns "Pod", "targets")
        ∈ edgeIds (graph st')
      ↔ ∀ key value, selector !! key = Some value →
                     labels !! key = Some (VString value))) ∧
  (selector = ∅ →
   ∃ st', handleEvent st e = Ok st' ∧
          Relationships (graph st') = Relationships (graph st)) ∧
  (∀ pods replicasets deployments nodes services configmaps st0 st1 listed,
     listAllResources
       (clientCluster pods replicasets deployments nodes services configmaps)
       st0 = Ok (st1, listed) →
     Relationships (graph st1) = Relationships (graph st0)).
Proof.
  intros Hreach Hty Hrt Hu Hm Hn Hns Hs Hsel Ho. split_and!.
  - intros Hne st' k pod pm pn pns labels H Hk Hpm Hpn Hpns Hl.
    rewrite (omitEmpty_entries _ Hne) in Hsel.
    destruct (selectorMatches_strings selector labels) as (b & Hb & Hiff).
    rewrite <- Hiff.
    by apply (service_event_pod_edge st st' e u metadata spec
                (VString <$> selector) name namespace k pod pm pn pns labels b).
  - intros Hempty. rewrite (omitEmpty_empty _ Hempty) in Hsel.
    by apply (service_event_no_selector st e u metadata spec name namespace r).
  - intros pods replicasets deployments nodes services configmaps st0 st1 listed
      Hl.
    by rewrite (listAllResources_client_state _ _ _ _ _ _ _ _ _ Hl).
Qed.

Lemma empty_selector_derives_no_edge_witness :
  ∃ st',
    handleEvent (stateAfter [podEvent Added "p1" p1_x])
      (serviceEvent Added "svc1" (service "svc1" ∅)) = Ok st' ∧
    Relationships (graph st')
    = Relationships (graph (stateAfter [podEvent Added "p1" p1_x])).
Proof.
  assert (reachable (stateAfter [podEvent Added "p1" p1_x])) as Hreach.
  { apply (reachable_run [podEvent Added "p1" p1_x]). vm_compute. reflexivity. }
  destruct (empty_selector_derives_no_edge
              (stateAfter [podEvent Added "p1" p1_x])
              (serviceEvent Added "svc1" (service "svc1" ∅))
              (service "svc1" ∅)
              (<["name" := VString "svc1"]>
               (<["namespace" := VString "default"]>
                {[ "labels" := VMap ∅ ]}))
              ∅ "svc1" "default" ∅
              (Some (mkNode svc1 {[ "type" := "ClusterIP" ]} 1)) Hreach)
    as (_ & Hempty & _); try (vm_compute; reflexivity).
  - left. reflexivity.
  - by apply Hempty.
Defined.

(** C5 (order independence across kinds).  The specification says that
    a service added before the pod it selects and the same two events
    in the other order end in the same edge set.  Only a service event
    evaluates selectors, against the pods cached at that moment: with
    the service first the [targets] edge is never derived, with the
    pod first it is. *)
Theorem service_pod_order_matters :
  edgesOf (run initState
             [serviceEvent Added "svc1" svc1_x; podEvent Added "p1" p1_x])
    = Some [(p1, n1, "runs_on"); (p1, rs1, "owned_by")] ∧
  edgesOf (run initState
             [podEvent Added "p1" p1_x; serviceEvent Added "svc1" svc1_x])
    = Some [(p1, n1, "runs_on"); (p1, rs1, "owned_by");
            (svc1, p1, "targets")].
Proof. vm_compute. done. Qed.

(** C6 (duplicate Add is idempotent).  In every state the program can
    reach, when an [Added] event has been processed, processing the same
    event again succeeds and leaves the same nodes (the same slice), the
    same set of edge identities (both edge lists are duplicate-free and
    one is a permutation of the other) and the same caches.  Only the
    revision counters move. *)
Theorem added_twice_idempotent (st st1 : State) (e : Event) :
  reachable st → evType e = Added → handleEvent st e = Ok st1 →
  ∃ st2, handleEvent st1 e = Ok st2 ∧
    Nodes (graph st2) = Nodes (graph st1) ∧
    NoDup (edgeIds (graph st1)) ∧ NoDup (edgeIds (graph st2)) ∧
    edgeIds (graph st2) ≡ₚ edgeIds (graph st1) ∧
    podCache st2 = podCache st1 ∧ serviceCache st2 = serviceCache st1.
Proof.
  intros Hnd%reachable_NoDup Hty H. unfold handleEvent in *. rewrite Hty in *.
  destruct (evUnstructured e) as [u|].
  2: { injection H as <-. exists st. split_and!; done. }
  destruct (asMap (index u "metadata")) as [metadata|]; [simpl in *|done].
  destruct (asString (index metadata "name")) as [name|]; [simpl in *|done].
  destruct (namespaceOf metadata) as [namespace|]; [simpl in *|done].
  destruct (AddNode (graph st) (evObject e)) as [g1|] eqn:H1; [simpl in H|done].
  destruct (updateRelationships g1 _ _ _ _ _) as [g2|] eqn:H2; [simpl in H|done].
  injection H as <-. rewrite graph_cachePut.
  pose proof (edgeUpdate_updateRelationships (rangePods (podCache st)) u
                (resourceType e) name namespace) as Hup.
  assert (Nodes g2 = Nodes g1) as Hn2 by apply (edgeUpdate_Nodes _ _ _ Hup H2).
  destruct (AddNode_again _ _ _ H1 g2 Hn2) as (h & -> & Hnh & Hrh). simpl.
  rewrite updateRelationships_cachePut.
  rewrite <- (edgeIds_AddNode _ _ _ H1) in Hnd.
  destruct (edgeUpdate_twice _ _ _ Hup Hnd H2) as [Hnd2 Hagain].
  assert (edgeIds h = edgeIds g2) as Hids by (unfold edgeIds; by rewrite Hrh).
  destruct (Hagain h) as (g3 & -> & Hn3 & Hnd3 & He3).
  { by rewrite Hids. }
  { unfold edgeSet. by rewrite Hids. }
  simpl. eexists. split; [done|]. rewrite graph_cachePut.
  split_and!; [congruence | done | done | by apply edgeSet_Permutation | apply cachePut_again..].
Qed.

Lemma added_twice_idempotent_witness :
  ∃ st2,
    handleEvent (stateAfter [podEvent Added "p1" p1_x;
                             serviceEvent Added "svc1" svc1_x])
      (serviceEvent Added "svc1" svc1_x) = Ok st2 ∧
    Nodes (graph st2)
      = Nodes (graph (stateAfter [podEvent Added "p1" p1_x;
                                  serviceEvent Added "svc1" svc1_x])) ∧
    edgeIds (graph st2)
      ≡ₚ edgeIds (graph (stateAfter [podEvent Added "p1" p1_x;
                                     serviceEvent Added "svc1" svc1_x])).
Proof.
  destruct (added_twice_idempotent
              (stateAfter [podEvent Added "p1" p1_x])
              (stateAfter [podEvent Added "p1" p1_x;
                           serviceEvent Added "svc1" svc1_x])
              (serviceEvent Added "svc1" svc1_x))
    as (st2 & H2 & Hn & _ & _ & Hp & _).
  - apply (reachable_run [podEvent Added "p1" p1_x]). vm_compute. reflexivity.
  - reflexivity.
  - vm_compute. reflexivity.
  - exists st2. split; [exact H2|]. split; [exact Hn | exact Hp].
Defined.

(** C7 (malformed entity data is not fatal).  The specification says
    that an absent field skips only its own rule and never halts the
    process.  The watch loop does that: an unscheduled pod with an
    owner is indexed, gets its [owned_by] edge and no [runs_on] edge,
    and a replica set without owner references or a deployment without
    volumes is indexed without edges.  The listing reads the same
    fields with unchecked type assertions and panics on each of the
    three objects; it also panics on the typed values the client's
    [ListPods] returns, at its first assertion. *)
Theorem listing_panics_on_absent_field :
  nodesOf (run initState
             [podEvent Added "p1" (pod "p1" "" appX [ownerRef "ReplicaSet" "rs1"])])
    = Some [p1] ∧
  edgesOf (run initState
             [podEvent Added "p1" (pod "p1" "" appX [ownerRef "ReplicaSet" "rs1"])])
    = Some [(p1, rs1, "owned_by")] ∧
  snapshotOf (run initState [replicaSetEvent Added "rs1" (replicaSet "rs1" [])])
    = Some ([rs1], []) ∧
  snapshotOf (run initState [deploymentEvent Added "d1" (deployment "d1" ∅)])
    = Some ([d1], []) ∧
  panics (listAllResources
            (mkCluster (Some [IVal (VMap pendingPod)]) (Some []) (Some [])
               (Some []) (Some []) (Some [])) initState) = true ∧
  panics (listAllResources
            (mkCluster (Some []) (Some [IVal (VMap (replicaSet "rs1" []))])
               (Some []) (Some []) (Some []) (Some [])) initState) = true ∧
  panics (listAllResources
            (mkCluster (Some []) (Some [])
               (Some [IVal (VMap (deployment "d1" ∅))])
               (Some []) (Some []) (Some [])) initState) = true ∧
  panics (listAllResources
            (mkCluster (Some [IStruct (Pod "p1" "default" "Pending")])
               (Some []) (Some []) (Some []) (Some []) (Some [])) initState)
    = true.
Proof. vm_compute. done. Qed.

(** C8, as the specification states it, fails: pod [p2] added before
    pod [p1] stays before it in the snapshot, against the key order. *)
Lemma snapshot_not_in_key_order :
  snapshotOf (run initState
                [podEvent Added "p2" p2_x; podEvent Added "p1" p1_x])
    = Some ([p2; p1], [(p2, n1, "runs_on"); (p1, n1, "runs_on");
                       (p1, rs1, "owned_by")]) ∧
  ¬ snapshotOrdered
      (graph (stateAfter [podEvent Added "p2" p2_x; podEvent Added "p1" p1_x])).
Proof.
  split; [vm_compute; reflexivity|].
  intros [Hnodes _].
  assert (Sorted keyLe [p2; p1]) as Hs.
  { replace [p2; p1]
      with (snapshotKeys
              (graph (stateAfter [podEvent Added "p2" p2_x;
                                  podEvent Added "p1" p1_x]))).1
      by (vm_compute; reflexivity).
    exact Hnodes. }
  apply Sorted_inv in Hs as [_ Hhd]. apply HdRel_inv in Hhd.
  apply Hhd. vm_compute. reflexivity.
Qed.

(** C8 (snapshot order), amended.  A snapshot lists the nodes and the
    edges in slice order, which is the order of first insertion: a node
    or an edge whose key is new goes to the end and one whose key is
    known is rewritten in its place; removing a node or an edge keeps
    the others in their order; and the snapshot depends on the two
    slices only, so equal slices give equal snapshots. *)
Theorem snapshot_in_insertion_order (g : Graph) :
  snapshot g = (Nodes g, Relationships g) ∧
  (∀ obj node g',
     objectToGraphNode obj = Ok (Some node) → AddNode g obj = Ok g' →
     (snapshotKeys g').1
       = (if decide (Key node ∈ (snapshotKeys g).1) then (snapshotKeys g).1
          else (snapshotKeys g).1 ++ [Key node]) ∧
     (snapshot g').2 = (snapshot g).2) ∧
  (∀ s t ty p,
     (snapshotKeys (AddRelationship g s t ty p)).2
       = (if decide ((s, t, ty) ∈ (snapshotKeys g).2) then (snapshotKeys g).2
          else (snapshotKeys g).2 ++ [(s, t, ty)]) ∧
     (snapshot (AddRelationship g s t ty p)).1 = (snapshot g).1) ∧
  (∀ s t ty,
     (snapshot (RemoveRelationship g s t ty)).2 `sublist_of` (snapshot g).2 ∧
     (snapshot (RemoveRelationship g s t ty)).1 = (snapshot g).1) ∧
  (∀ obj g',
     RemoveNode g obj = Ok g' →
     (snapshot g').1 `sublist_of` (snapshot g).1 ∧
     (snapshot g').2 `sublist_of` (snapshot g).2) ∧
  (∀ h, Nodes h = Nodes g → Relationships h = Relationships g →
        snapshot h = snapshot g).
Proof.
  unfold snapshotKeys, snapshot. simpl. split_and!.
  - done.
  - intros obj node g' Ho Ha.
    destruct (nodeKeys_AddNode _ _ _ _ Ha Ho) as [_ Hk].
    split; [exact Hk | by eapply Relationships_AddNode].
  - intros s t ty p. split; [|apply Nodes_AddRelationship].
    fold (edgeIds (AddRelationship g s t ty p)). fold (edgeIds g).
    case_decide.
    + by apply edgeIds_AddRelationship_old.
    + by apply edgeIds_AddRelationship_new.
  - intros s t ty. split; [|apply Nodes_RemoveRelationship].
    apply Relationships_RemoveRelationship_sublist.
  - intros obj g' H. by apply RemoveNode_sublist in H.
  - by intros h -> ->.
Qed.

Lemma snapshot_in_insertion_order_witness :
  (snapshotKeys
     (mkGraph [mkNode p1 {[ "status" := "Running" ]} 1] [] (incr 1))).1
    = [p1] ∧
  (snapshot (mkGraph [mkNode p1 {[ "status" := "Running" ]} 1] [] (incr 1))).2
    = [].
Proof.
  destruct (snapshot_in_insertion_order NewGraph) as (_ & Hadd & _).
  apply (Hadd (IPtr (Pod "p1" "default" "Running"))
           (mkNode p1 {[ "status" := "Running" ]} 1)
           (mkGraph [mkNode p1 {[ "status" := "Running" ]} 1] [] (incr 1))).
  - reflexivity.
  - vm_compute. reflexivity.
Defined.

(** C9 (one edge per identity).  Whatever sequence of edge additions is
    applied to the empty graph, no two edges of the result share an
    identity (source, target, relationshipType); adding an edge whose
    identity is present rewrites that edge where it stands, with the
    new properties and its revision incremented, and changes nothing
    else in the slice; and no state the program reaches, through the
    listing and any events, has two edges with one identity. *)
Theorem edge_identity_unique (adds : list EdgeAdd) :
  let g := foldl addEdge NewGraph adds in
  NoDup (edgeIds g) ∧
  (∀ s t ty p, (s, t, ty) ∈ edgeIds g →
     ∃ l1 r l2,
       Relationships g = l1 ++ r :: l2 ∧ edgeId r = (s, t, ty) ∧
       Relationships (AddRelationship g s t ty p)
         = l1 ++ mkRel s t ty p (incr (RelRevision r)) :: l2) ∧
  (∀ st, reachable st → NoDup (edgeIds (graph st))).
Proof.
  simpl. split_and!; [| |apply reachable_NoDup].
  - induction adds as [|a adds IH] using rev_ind; simpl; [constructor|].
    rewrite foldl_app. simpl. by apply NoDup_AddRelationship.
  - intros s t ty p Hin. unfold AddRelationship.
    destruct (refreshRel s t ty p _) as [rs|] eqn:Hr.
    + destruct (refreshRel_Some _ _ _ _ _ _ Hr) as (l1 & r & l2 & Hg & Hid & _ & ->).
      exists l1, r, l2. split_and!; try done. simpl.
      by injection Hid as -> -> ->.
    + by apply refreshRel_None in Hr.
Qed.


Lemma edge_identity_unique_witness :
  ∃ l1 r l2,
    Relationships (foldl addEdge NewGraph [(p1, n1, "runs_on", None)])
      = l1 ++ r :: l2 ∧ edgeId r = (p1, n1, "runs_on") ∧
    Relationships
      (AddRelationship (foldl addEdge NewGraph [(p1, n1, "runs_on", None)])
         p1 n1 "runs_on" (Some ∅))
      = l1 ++ mkRel p1 n1 "runs_on" (Some ∅) (incr (RelRevision r)) :: l2.
Proof.
  apply (proj1 (proj2 (edge_identity_unique [(p1, n1, "runs_on", None)]))).
  vm_compute. left.
Defined.

(** C10 (frame of [RemoveRelationship]).  [RemoveRelationship] never
    changes the nodes; when no relationship has the identity (source,
    target, relationshipType) it returns the graph as it was, revision
    included; otherwise it takes out the first relationship with that
    identity and keeps every other relationship, in order. *)
Theorem RemoveRelationship_frame (g : Graph) (source target : EntityKey)
    (relationshipType : string) :
  let g' := RemoveRelationship g source target relationshipType in
  Nodes g' = Nodes g ∧
  ((source, target, relationshipType) ∉ edgeIds g → g' = g) ∧
  ((source, target, relationshipType) ∈ edgeIds g →
   ∃ l1 r l2,
     Relationships g = l1 ++ r :: l2 ∧
     edgeId r = (source, target, relationshipType) ∧
     ((source, target, relationshipType) ∉ (edgeId <$> l1)) ∧
     Relationships g' = l1 ++ l2).
Proof.
  simpl. split_and!.
  - apply Nodes_RemoveRelationship.
  - apply RemoveRelationship_absent.
  - intros Hin. unfold RemoveRelationship.
    destruct (findRel _ _ _ _) as [i|] eqn:Hf.
    + destruct (findRel_Some _ _ _ _ _ Hf) as (l1 & r & l2 & Hg & <- & Hid & Hn).
      exists l1, r, l2. split_and!; try done. simpl. by rewrite Hg, cut_middle.
    + by apply findRel_None in Hf.
Qed.

Lemma RemoveRelationship_frame_witness :
  RemoveRelationship (foldl addEdge NewGraph [(p1, n1, "runs_on", None)])
    svc1 p1 "targets"
  = foldl addEdge NewGraph [(p1, n1, "runs_on", None)] ∧
  ∃ l1 r l2,
    Relationships (foldl addEdge NewGraph [(p1, n1, "runs_on", None)])
      = l1 ++ r :: l2 ∧
    edgeId r = (p1, n1, "runs_on") ∧
    ((p1, n1, "runs_on") ∉ (edgeId <$> l1)) ∧
    Relationships
      (RemoveRelationship (foldl addEdge NewGraph [(p1, n1, "runs_on", None)])
         p1 n1 "runs_on") = l1 ++ l2.
Proof.
  split.
  - apply (proj1 (proj2 (RemoveRelationship_frame
                           (foldl addEdge NewGraph [(p1, n1, "runs_on", None)])
                           svc1 p1 "targets"))).
    vm_compute. intros H. apply list_elem_of_singleton in H. discriminate H.
  - apply (proj2 (proj2 (RemoveRelationship_frame
                           (foldl addEdge NewGraph [(p1, n1, "runs_on", None)])
                           p1 n1 "runs_on"))).
    vm_compute. left.
Defined.

(** * Further properties of the code *)

(** ** What the handlers keep of the nodes *)

Lemma Nodes_forM_edgeUpdate {A : Type} (body : Graph → A → Result Graph) xs g g' :
  (∀ x, edgeUpdate (fun h => body h x)) →
  forM body g xs = Ok g' → Nodes g' = Nodes g.
Proof.
  intros Hb H.
  apply (edgeUpdate_Nodes (fun h => forM body h xs) g g'); [|done].
  by apply edgeUpdate_forM.
Qed.

(** A property of the node slice that [AddNode] and [RemoveNode] keep
    holds in every reachable state: nothing else writes the slice. *)
Lemma reachable_nodes (P : list GraphNode → Prop) :
  P [] →
  (∀ g obj g', AddNode g obj = Ok g' → P (Nodes g) → P (Nodes g')) →
  (∀ g obj g', RemoveNode g obj = Ok g' → P (Nodes g) → P (Nodes g')) →
  ∀ st, reachable st → P (Nodes (graph st)).
Proof.
  intros Hnil Hadd Hrem st (c & events & st0 & listed & Hl & Hr).
  assert (∀ g items g', forM AddNode g items = Ok g' → P (Nodes g) → P (Nodes g'))
    as Hadds.
  { intros g items. revert g. induction items as [|x items IH]; simpl; intros g g'.
    - by intros [= <-].
    - destruct (AddNode g x) as [g1|] eqn:H1; simpl; [|done]. eauto. }
  assert (P (Nodes (graph st0))) as H0.
  { clear Hr. unfold listAllResources in Hl. simpl in Hl.
    repeat match type of Hl with
    | Ok _ = Ok _ => injection Hl as <- <-; simpl
    | Panic = Ok _ => discriminate Hl
    | context [match ?o with Some _ => _ | None => _ end] => destruct o
    | context [bind (forM AddNode ?g ?l) _] =>
        let E := fresh "E" in
        destruct (forM AddNode g l) eqn:E; simpl in Hl;
        [apply Hadds in E; [|assumption] | ]
    | context [bind (forM cacheStep ?g ?l) _] =>
        destruct (forM cacheStep g l); simpl in Hl
    | context [bind (forM ?b ?g ?l) _] =>
        let E := fresh "E" in
        destruct (forM b g l) eqn:E; simpl in Hl;
        [apply Nodes_forM_edgeUpdate in E;
         [rewrite <- E in *
         | intros ?;
           auto using edgeUpdate_listPodStep, edgeUpdate_listReplicaSetStep,
             edgeUpdate_listServiceStep, edgeUpdate_listDeploymentStep] | ]
    end; assumption. }
  unfold run in Hr. revert Hr H0.
  apply (forM_inv (fun s => P (Nodes (graph s))) handleEvent events).
  intros s e s'. unfold handleEvent, UpdateNode. intros H Hs.
  destruct (evUnstructured e) as [u|]; [|by injection H as <-].
  destruct (asMap (index u "metadata")) as [metadata|]; [simpl in H|done].
  destruct (asString (index metadata "name")) as [name|]; [simpl in H|done].
  destruct (namespaceOf metadata) as [namespace|]; [simpl in H|done].
  destruct (evType e); try by injection H as <-.
  1,2: destruct (AddNode (graph s) (evObject e)) as [g1|] eqn:H1; [simpl in H|done];
    destruct (updateRelationships g1 _ _ _ _ _) as [g2|] eqn:H2; [simpl in H|done];
    injection H as <-; rewrite graph_cachePut;
    rewrite (edgeUpdate_Nodes _ _ _ (edgeUpdate_updateRelationships _ _ _ _ _) H2);
    by eapply Hadd.
  destruct (RemoveNode (graph s) (evObject e)) as [g1|] eqn:H1; [simpl in H|done].
  injection H as <-. rewrite graph_cacheDelete.
  unfold removeResourceRelationships. rewrite Nodes_rangeRemove. by eapply Hrem.
Qed.

Lemma AddNode_NoDup_keys g obj g' :
  AddNode g obj = Ok g' → NoDup (nodeKeys g) → NoDup (nodeKeys g').
Proof.
  intros H Hnd. destruct (objectToGraphNode obj) as [[node|]|] eqn:Ho.
  - destruct (nodeKeys_AddNode _ _ _ _ H Ho) as [_ ->]. case_decide; [done|].
    apply NoDup_app. split_and!; [done| |apply NoDup_singleton].
    intros k Hk ->%list_elem_of_singleton. done.
  - unfold AddNode in H. rewrite Ho in H. by injection H as <-.
  - unfold AddNode in H. by rewrite Ho in H.
Qed.

Lemma RemoveNode_NoDup_keys g obj g' :
  RemoveNode g obj = Ok g' → NoDup (nodeKeys g) → NoDup (nodeKeys g').
Proof.
  intros H Hnd. apply RemoveNode_sublist in H as [H _].
  eapply sublist_NoDup; [exact Hnd|]. by apply fmap_sublist.
Qed.

Lemma objectToGraphNode_shape obj node :
  objectToGraphNode obj = Ok (Some node) → nodeShape node.
Proof.
  unfold nodeShape. destruct obj as [o|o|v]; simpl; [|done..].
  destruct o as [? ? ?|? ? [r|]|? ? [r|]|? ?|? ? ?|? ? ?]; simpl;
    intros [= <-]; simpl;
    (split_and!; [done | set_solver | done | by rewrite map_size_singleton]).
Qed.

Lemma AddNode_shape g obj g' :
  AddNode g obj = Ok g' → Forall nodeShape (Nodes g) →
  Forall nodeShape (Nodes g').
Proof.
  unfold AddNode. intros H Hall.
  destruct (objectToGraphNode obj) as [[node|]|] eqn:Ho; simpl in H; [| |done].
  - apply objectToGraphNode_shape in Ho.
    destruct (replaceNode node (Nodes g)) as [ns|] eqn:Hr; injection H as <-; simpl.
    + destruct (replaceNode_Some _ _ _ Hr) as (l1 & n & l2 & Hg & _ & _ & ->).
      rewrite Hg in Hall. apply Forall_app in Hall as [H1 H2].
      apply Forall_cons in H2 as [_ H2]. apply Forall_app. split; [done|].
      by apply Forall_cons.
    + apply Forall_app. split; [done|]. by apply Forall_singleton.
  - by injection H as <-.
Qed.

Lemma Forall_sublist {A : Type} (P : A → Prop) (l1 l2 : list A) :
  l1 `sublist_of` l2 → Forall P l2 → Forall P l1.
Proof.
  intros Hs Hall. apply Forall_forall. intros x Hx.
  rewrite Forall_forall in Hall. apply Hall. by eapply elem_of_sublist.
Qed.

Lemma RemoveNode_shape g obj g' :
  RemoveNode g obj = Ok g' → Forall nodeShape (Nodes g) →
  Forall nodeShape (Nodes g').
Proof.
  intros H Hall. apply RemoveNode_sublist in H as [H _].
  by eapply Forall_sublist.
Qed.

(** X1 (one node per key).  In every state the program reaches, through
    the listing and any sequence of events, no two nodes of the graph
    have the same key (name, namespace, type): [AddNode] overwrites the
    node that has the key, [RemoveNode] only removes, and nothing else
    writes the node slice. *)
Theorem reachable_node_keys_unique (st : State) :
  reachable st → NoDup (nodeKeys (graph st)).
Proof.
  apply (reachable_nodes (fun ns => NoDup (Key <$> ns))).
  - constructor.
  - apply AddNode_NoDup_keys.
  - apply RemoveNode_NoDup_keys.
Qed.

Lemma reachable_node_keys_unique_witness :
  NoDup (nodeKeys (graph (stateAfter
    [Scenario.podEvent Added "p1" Scenario.p1_x;
     Scenario.podEvent Modified "p1" Scenario.p1_y;
     Scenario.serviceEvent Added "svc1" Scenario.svc1_x]))).
Proof.
  apply reachable_node_keys_unique.
  apply (reachable_run
           [Scenario.podEvent Added "p1" Scenario.p1_x;
            Scenario.podEvent Modified "p1" Scenario.p1_y;
            Scenario.serviceEvent Added "svc1" Scenario.svc1_x]).
  vm_compute. reflexivity.
Defined.

(** X2 (the nodes of the graph).  Every node of a reachable graph is one
    that [objectToGraphNode] built: its revision is 1 (a node's
    revision never moves, however often the entity is modified), its
    type is one of the six kinds, a node of type [Node] has the empty
    namespace, and its property map has exactly one entry. *)
Theorem reachable_nodes_shape (st : State) (n : GraphNode) :
  reachable st → n ∈ Nodes (graph st) →
  Revision n = 1 ∧
  Type_ (Key n)
    ∈ ["Pod"; "ReplicaSet"; "Deployment"; "Node"; "Service"; "ConfigMap"] ∧
  (Type_ (Key n) = "Node" → Namespace (Key n) = "") ∧
  size (Properties n) = 1%nat.
Proof.
  intros Hr Hin.
  assert (Forall nodeShape (Nodes (graph st))) as Hall.
  { clear Hin. revert st Hr. apply (reachable_nodes (Forall nodeShape)).
    - constructor.
    - apply AddNode_shape.
    - apply RemoveNode_shape. }
  rewrite Forall_forall in Hall. by apply Hall.
Qed.

Lemma reachable_nodes_shape_witness :
  Revision (mkNode Scenario.p1 {[ "status" := "Running" ]} 1) = 1 ∧
  Type_ (Key (mkNode Scenario.p1 {[ "status" := "Running" ]} 1))
    ∈ ["Pod"; "ReplicaSet"; "Deployment"; "Node"; "Service"; "ConfigMap"] ∧
  (Type_ (Key (mkNode Scenario.p1 {[ "status" := "Running" ]} 1)) = "Node" →
   Namespace (Key (mkNode Scenario.p1 {[ "status" := "Running" ]} 1)) = "") ∧
  size (Properties (mkNode Scenario.p1 {[ "status" := "Running" ]} 1)) = 1%nat.
Proof.
  apply (reachable_nodes_shape
           (stateAfter [Scenario.podEvent Added "p1" Scenario.p1_x;
                        Scenario.podEvent Modified "p1" Scenario.p1_y])).
  - apply (reachable_run [Scenario.podEvent Added "p1" Scenario.p1_x;
                          Scenario.podEvent Modified "p1" Scenario.p1_y]).
    vm_compute. reflexivity.
  - vm_compute. left.
Defined.

(** ** What the handlers keep of the relationships *)

Lemma AddRelationship_relShape g s t ty :
  Forall relShape (Relationships g) → edgeSchema (s, t, ty) →
  Forall relShape (Relationships (AddRelationship g s t ty None)).
Proof.
  intros Hall Hs. unfold AddRelationship.
  destruct (refreshRel s t ty None (Relationships g)) as [rs|] eqn:Hr; simpl.
  - destruct (refreshRel_Some _ _ _ _ _ _ Hr) as (l1 & r & l2 & Hg & Hid & _ & ->).
    rewrite Hg in Hall. apply Forall_app in Hall as [H1 H2].
    apply Forall_cons in H2 as [[_ Hr'] H2]. apply Forall_app. split; [done|].
    apply Forall_cons. split; [|done]. split; [done|]. exact Hr'.
  - apply Forall_app. split; [done|]. apply Forall_singleton. by split.
Qed.

Lemma RemoveRelationship_relShape g s t ty :
  Forall relShape (Relationships g) →
  Forall relShape (Relationships (RemoveRelationship g s t ty)).
Proof.
  apply Forall_sublist, Relationships_RemoveRelationship_sublist.
Qed.

Lemma Relationships_rangeRemove_sublist key count : ∀ i cells g,
  Relationships (rangeRemove key i count cells g) `sublist_of` Relationships g.
Proof.
  induction count as [|count IH]; intros i cells g; simpl; [done|].
  destruct (cells !! i) as [rel|]; [|done].
  destruct (involves key rel); [|apply IH].
  etrans; [apply IH|]. apply Relationships_RemoveRelationship_sublist.
Qed.

Lemma forM_relShape {A : Type} (body : Graph → A → Result Graph) xs :
  (∀ g x g', body g x = Ok g' → Forall relShape (Relationships g) →
             Forall relShape (Relationships g')) →
  ∀ g g', forM body g xs = Ok g' → Forall relShape (Relationships g) →
          Forall relShape (Relationships g').
Proof. intros Hb. by apply (forM_inv (fun g => Forall relShape (Relationships g))). Qed.

(** One step of a handler: read what the step needs, then add or
    remove one edge of the right shape. *)
Ltac rel_shape_step H :=
  repeat match type of H with
  | Ok _ = Ok _ => injection H as <-
  | Panic = Ok _ => discriminate H
  | context [bind ?c _] => destruct c; simpl in H
  | context [match ?c with _ => _ end] => destruct c eqn:?; simpl in H
  end;
  try assumption;
  try (apply RemoveRelationship_relShape; assumption);
  try (apply AddRelationship_relShape; [assumption|];
       unfold edgeSchema; simpl; tauto).

Lemma ownerStep_relShape srcType wanted name namespace g x g' :
  (srcType, wanted) ∈ [("Pod", "ReplicaSet"); ("ReplicaSet", "Deployment")] →
  ownerStep srcType wanted name namespace g x = Ok g' →
  Forall relShape (Relationships g) → Forall relShape (Relationships g').
Proof.
  intros Hk H Hall.
  repeat (apply elem_of_cons in Hk as [[= -> ->]|Hk]); [| |by apply elem_of_nil in Hk];
    unfold ownerStep in H; rel_shape_step H.
Qed.

Lemma volumeStep_relShape name namespace g x g' :
  volumeStep name namespace g x = Ok g' →
  Forall relShape (Relationships g) → Forall relShape (Relationships g').
Proof. intros H Hall. unfold volumeStep in H. rel_shape_step H. Qed.

Lemma targetStep_relShape name namespace selector g pod g' :
  targetStep name namespace selector g pod = Ok g' →
  Forall relShape (Relationships g) → Forall relShape (Relationships g').
Proof. intros H Hall. unfold targetStep in H. rel_shape_step H. Qed.

Lemma listTargetStep_relShape name namespace selector g pod g' :
  listTargetStep name namespace selector g pod = Ok g' →
  Forall relShape (Relationships g) → Forall relShape (Relationships g').
Proof. intros H Hall. unfold listTargetStep in H. rel_shape_step H. Qed.

Lemma updateRelationships_relShape g pods obj rt name namespace g' :
  updateRelationships g pods obj rt name namespace = Ok g' →
  Forall relShape (Relationships g) → Forall relShape (Relationships g').
Proof.
  unfold updateRelationships. intros H Hall.
  repeat case_bool_decide; subst.
  - destruct (asMap (index obj "spec")) as [spec|]; [simpl in H|done].
    destruct (asMap (index obj "metadata")) as [metadata|]; [simpl in H|done].
    match type of H with
    | context [forM _ ?g1 _] =>
        assert (Forall relShape (Relationships g1)) as Hg1
    end.
    { destruct (index spec "nodeName"); try done. case_bool_decide; [|done].
      apply AddRelationship_relShape; [done|]. unfold edgeSchema. simpl. tauto. }
    destruct (index metadata "ownerReferences"); try (by injection H as <-).
    revert H Hg1. apply forM_relShape. intros h x h'.
    apply ownerStep_relShape. set_solver.
  - destruct (asMap (index obj "metadata")) as [metadata|]; [simpl in H|done].
    destruct (index metadata "ownerReferences"); try (by injection H as <-).
    revert H Hall. apply forM_relShape. intros h x h'.
    apply ownerStep_relShape. set_solver.
  - destruct (asMap (index obj "spec")) as [spec|]; [simpl in H|done].
    destruct (index spec "selector"); try (by injection H as <-).
    revert H Hall. apply forM_relShape. intros h x h'. apply targetStep_relShape.
  - destruct (asMap (index obj "spec")) as [spec|]; [simpl in H|done].
    destruct (asMap (index spec "template")) as [template|]; [simpl in H|done].
    destruct (asMap (index template "spec")) as [tspec|]; [simpl in H|done].
    destruct (index tspec "volumes"); try (by injection H as <-).
    revert H Hall. apply forM_relShape. intros h x h'. apply volumeStep_relShape.
  - by injection H as <-.
Qed.

Lemma listPodStep_relShape g pod g' :
  listPodStep g pod = Ok g' →
  Forall relShape (Relationships g) → Forall relShape (Relationships g').
Proof.
  unfold listPodStep. intros H Hall.
  destruct (ifaceAsMap pod) as [podObj|]; [simpl in H|done].
  destruct (asMap (index podObj "metadata")) as [metadata|]; [simpl in H|done].
  destruct (asString (index metadata "name")) as [podName|]; [simpl in H|done].
  destruct (asString (index metadata "namespace")) as [podNamespace|];
    [simpl in H|done].
  destruct (asMap (index podObj "spec")) as [spec|]; [simpl in H|done].
  destruct (asString (index spec "nodeName")) as [nodeName|]; [simpl in H|done].
  destruct (ownerRefsOf metadata) as [ownerRefs|]; [simpl in H|done].
  match type of H with
  | context [forM _ ?g1 _] =>
      assert (Forall relShape (Relationships g1)) as Hg1
  end.
  { case_bool_decide; [|done].
    apply AddRelationship_relShape; [done|]. unfold edgeSchema. simpl. tauto. }
  revert H Hg1. apply forM_relShape.
  intros h x h'. apply ownerStep_relShape. set_solver.
Qed.

Lemma listReplicaSetStep_relShape g rs g' :
  listReplicaSetStep g rs = Ok g' →
  Forall relShape (Relationships g) → Forall relShape (Relationships g').
Proof.
  unfold listReplicaSetStep. intros H Hall.
  destruct (ifaceAsMap rs) as [rsObj|]; [simpl in H|done].
  destruct (asMap (index rsObj "metadata")) as [metadata|]; [simpl in H|done].
  destruct (asString (index metadata "name")) as [rsName|]; [simpl in H|done].
  destruct (asString (index metadata "namespace")) as [rsNamespace|];
    [simpl in H|done].
  destruct (asList (index metadata "ownerReferences")) as [ownerRefs|];
    [simpl in H|done].
  revert H Hall. apply forM_relShape.
  intros h x h'. apply ownerStep_relShape. set_solver.
Qed.

Lemma listServiceStep_relShape pods g service g' :
  listServiceStep pods g service = Ok g' →
  Forall relShape (Relationships g) → Forall relShape (Relationships g').
Proof.
  unfold listServiceStep. intros H Hall.
  destruct (ifaceAsMap service) as [serviceObj|]; [simpl in H|done].
  destruct (asMap (index serviceObj "metadata")) as [metadata|]; [simpl in H|done].
  destruct (asString (index metadata "name")) as [sName|]; [simpl in H|done].
  destruct (asString (index metadata "namespace")) as [sNamespace|];
    [simpl in H|done].
  destruct (asMap (index serviceObj "spec")) as [spec|]; [simpl in H|done].
  destruct (selectorOf spec) as [selector|]; [simpl in H|done].
  revert H Hall. apply forM_relShape.
  intros h x h'. apply listTargetStep_relShape.
Qed.

Lemma listDeploymentStep_relShape g deployment g' :
  listDeploymentStep g deployment = Ok g' →
  Forall relShape (Relationships g) → Forall relShape (Relationships g').
Proof.
  unfold listDeploymentStep. intros H Hall.
  destruct (ifaceAsMap deployment) as [dObj|]; [simpl in H|done].
  destruct (asMap (index dObj "metadata")) as [metadata|]; [simpl in H|done].
  destruct (asString (index metadata "name")) as [dName|]; [simpl in H|done].
  destruct (asString (index metadata "namespace")) as [dNamespace|];
    [simpl in H|done].
  destruct (asMap (index dObj "spec")) as [spec|]; [simpl in H|done].
  destruct (asMap (index spec "template")) as [template|]; [simpl in H|done].
  destruct (asMap (index template "spec")) as [tspec|]; [simpl in H|done].
  destruct (asList (index tspec "volumes")) as [volumes|]; [simpl in H|done].
  revert H Hall. apply forM_relShape.
  intros h x h'. apply volumeStep_relShape.
Qed.

Lemma forM_AddNode_Relationships g items g' :
  forM AddNode g items = Ok g' → Relationships g' = Relationships g.
Proof.
  intros H.
  apply (forM_inv (fun h => Relationships h = Relationships g) AddNode items)
    with (s := g); [|done..].
  intros h x h' Hx <-. by apply Relationships_AddNode in Hx.
Qed.

Lemma handleEvent_relShape st e st' :
  handleEvent st e = Ok st' →
  Forall relShape (Relationships (graph st)) →
  Forall relShape (Relationships (graph st')).
Proof.
  unfold handleEvent, UpdateNode. intros H Hall.
  destruct (evUnstructured e) as [u|]; [|by injection H as <-].
  destruct (asMap (index u "metadata")) as [metadata|]; [simpl in H|done].
  destruct (asString (index metadata "name")) as [name|]; [simpl in H|done].
  destruct (namespaceOf metadata) as [namespace|]; [simpl in H|done].
  destruct (evType e); try by injection H as <-.
  1,2: destruct (AddNode (graph st) (evObject e)) as [g1|] eqn:H1; [simpl in H|done];
    destruct (updateRelationships g1 _ _ _ _ _) as [g2|] eqn:H2; [simpl in H|done];
    injection H as <-; rewrite graph_cachePut;
    apply (updateRelationships_relShape _ _ _ _ _ _ _ H2);
    by rewrite (Relationships_AddNode _ _ _ H1).
  destruct (RemoveNode (graph st) (evObject e)) as [g1|] eqn:H1; [simpl in H|done].
  injection H as <-. rewrite graph_cacheDelete.
  eapply Forall_sublist; [|exact Hall].
  etrans; [apply Relationships_rangeRemove_sublist|].
  by apply RemoveNode_sublist in H1 as [_ H1].
Qed.

Lemma listAllResources_relShape c st st' listed :
  listAllResources c st = Ok (st', listed) →
  Forall relShape (Relationships (graph st)) →
  Forall relShape (Relationships (graph st')).
Proof.
  unfold listAllResources. intros H Hall.
  repeat match type of H with
  | Ok _ = Ok _ => injection H as <- <-; simpl
  | Panic = Ok _ => discriminate H
  | context [match ?o with Some _ => _ | None => _ end] => destruct o
  | context [bind (forM AddNode ?g ?l) _] =>
      let E := fresh "E" in
      destruct (forM AddNode g l) eqn:E; simpl in H;
      [apply forM_AddNode_Relationships in E; rewrite <- E in Hall | ]
  | context [bind (forM cacheStep ?g ?l) _] =>
      destruct (forM cacheStep g l); simpl in H
  | context [bind (forM ?b ?g ?l) _] =>
      let E := fresh "E" in
      destruct (forM b g l) eqn:E; simpl in H;
      [apply forM_relShape in E;
       [clear Hall; rename E into Hall
       | eauto using listPodStep_relShape, listReplicaSetStep_relShape,
           listServiceStep_relShape, listDeploymentStep_relShape
       | exact Hall] | ]
  end; done.
Qed.

(** X3 (the shape of the edges).  Every relationship of a reachable
    graph has nil properties and endpoints of the kinds its type asks
    for: [runs_on] from a Pod to a Node with the empty namespace,
    [owned_by] from a Pod to a ReplicaSet or from a ReplicaSet to a
    Deployment in the source's namespace, [targets] from a Service to a
    Pod, [uses] from a Deployment to a ConfigMap in the source's
    namespace.  There is no other relationship type. *)
Theorem reachable_edges_shape (st : State) (rel : GraphRelationship) :
  reachable st → rel ∈ Relationships (graph st) →
  RelProperties rel = None ∧ edgeSchema (edgeId rel).
Proof.
  intros (c & events & st0 & listed & Hl & Hr) Hin.
  apply listAllResources_relShape in Hl; [|constructor].
  assert (Forall relShape (Relationships (graph st))) as Hall.
  { unfold run in Hr. revert Hr Hl.
    apply (forM_inv (fun s => Forall relShape (Relationships (graph s)))).
    intros s e s'. apply handleEvent_relShape. }
  rewrite Forall_forall in Hall. by apply Hall.
Qed.

Lemma reachable_edges_shape_witness :
  RelProperties (mkRel Scenario.svc1 Scenario.p1 "targets" None 1) = None ∧
  edgeSchema (edgeId (mkRel Scenario.svc1 Scenario.p1 "targets" None 1)).
Proof.
  apply (reachable_edges_shape
           (stateAfter [Scenario.podEvent Added "p1" Scenario.p1_x;
                        Scenario.serviceEvent Added "svc1" Scenario.svc1_x])).
  - apply (reachable_run [Scenario.podEvent Added "p1" Scenario.p1_x;
                          Scenario.serviceEvent Added "svc1" Scenario.svc1_x]).
    vm_compute. reflexivity.
  - vm_compute. right. right. left.
Defined.

(** ** Removing nodes and their relationships *)

Lemma dropNode_Some k ns ns' :
  dropNode k ns = Some ns' →
  ∃ l1 n l2, ns = l1 ++ n :: l2 ∧ Key n = k ∧ (k ∉ (Key <$> l1)) ∧ ns' = l1 ++ l2.
Proof.
  revert ns'. induction ns as [|n rest IH]; intros ns'; simpl; [done|].
  destruct (keyEq (Key n) k) eqn:Hk.
  - intros [= <-]. exists [], n, rest. apply keyEq_true in Hk.
    split_and!; try done. set_solver.
  - destruct (dropNode k rest) as [rest'|]; [|done].
    intros [= <-]. destruct (IH _ eq_refl) as (l1 & m & l2 & -> & Hm & Hn & ->).
    exists (n :: l1), m, l2. apply keyEq_false in Hk.
    split_and!; try done. rewrite fmap_cons. set_solver.
Qed.

Lemma dropNode_None k ns : dropNode k ns = None ↔ k ∉ (Key <$> ns).
Proof.
  induction ns as [|n rest IH]; simpl.
  - split; [set_solver | done].
  - destruct (keyEq (Key n) k) eqn:Hk.
    + apply keyEq_true in Hk. split; [done|]. rewrite Hk. set_solver.
    + apply keyEq_false in Hk. destruct (dropNode k rest).
      * split; [done|]. intros Hn. exfalso. apply (proj1 IH); set_solver.
      * split; [|done]. intros _. specialize (proj1 IH eq_refl). set_solver.
Qed.

Lemma dropNode_first k l1 n l2 :
  Key n = k → k ∉ (Key <$> l1) → dropNode k (l1 ++ n :: l2) = Some (l1 ++ l2).
Proof.
  intros Hk. induction l1 as [|a l1 IH]; simpl; intros Hn.
  - apply keyEq_true in Hk. by rewrite Hk.
  - rewrite ?fmap_cons in Hn. apply not_elem_of_cons in Hn as [Ha Hn].
    assert (keyEq (Key a) k = false) as -> by (apply keyEq_false; congruence).
    by rewrite (IH Hn).
Qed.

(** X4 ([RemoveNode] cascades only for an absent node).  For an object
    [objectToGraphNode] accepts: when the graph has a node with its key,
    [RemoveNode] takes out the first such node and returns, leaving
    every relationship in place, those of the removed node included;
    when the graph has no such node, it leaves the nodes and the
    revision alone and removes every relationship that has the key as
    source or target. *)
Theorem RemoveNode_cascades_only_when_absent (g : Graph) (obj : Iface)
    (node : GraphNode) :
  objectToGraphNode obj = Ok (Some node) →
  (Key node ∈ nodeKeys g →
   ∃ l1 n l2,
     Nodes g = l1 ++ n :: l2 ∧ Key n = Key node ∧
     (Key node ∉ (Key <$> l1)) ∧
     RemoveNode g obj
       = Ok (mkGraph (l1 ++ l2) (Relationships g) (incr (revision g)))) ∧
  (Key node ∉ nodeKeys g →
   RemoveNode g obj
     = Ok (mkGraph (Nodes g)
             (filter (fun rel => involves (Key node) rel = false)
                (Relationships g))
             (revision g))).
Proof.
  intros Ho. unfold RemoveNode, nodeKeys. rewrite Ho. simpl. split.
  - intros Hin. destruct (dropNode (Key node) (Nodes g)) as [ns|] eqn:Hd.
    + destruct (dropNode_Some _ _ _ Hd) as (l1 & n & l2 & Hg & Hk & Hn & ->).
      by exists l1, n, l2.
    + by apply dropNode_None in Hd.
  - intros Hn. apply dropNode_None in Hn. by rewrite Hn.
Qed.

Lemma RemoveNode_cascades_only_when_absent_witness :
  (∃ l1 n l2,
     Nodes (graph (stateAfter [Scenario.podEvent Added "p1" Scenario.p1_x]))
       = l1 ++ n :: l2 ∧
     Key n = Scenario.p1 ∧ (Scenario.p1 ∉ (Key <$> l1)) ∧
     RemoveNode (graph (stateAfter [Scenario.podEvent Added "p1" Scenario.p1_x]))
       (IPtr (Pod "p1" "default" "Running"))
     = Ok (mkGraph (l1 ++ l2)
             (Relationships
                (graph (stateAfter [Scenario.podEvent Added "p1" Scenario.p1_x])))
             (incr (revision
                (graph (stateAfter [Scenario.podEvent Added "p1" Scenario.p1_x])))))) ∧
  RemoveNode (graph (stateAfter [Scenario.podEvent Added "p1" Scenario.p1_x]))
    (IPtr (Pod "p2" "default" "Running"))
  = Ok (mkGraph
          (Nodes (graph (stateAfter [Scenario.podEvent Added "p1" Scenario.p1_x])))
          (filter (fun rel => involves Scenario.p2 rel = false)
             (Relationships
                (graph (stateAfter [Scenario.podEvent Added "p1" Scenario.p1_x]))))
          (revision (graph (stateAfter [Scenario.podEvent Added "p1" Scenario.p1_x])))).
Proof.
  split.
  - apply (proj1 (RemoveNode_cascades_only_when_absent
                    (graph (stateAfter [Scenario.podEvent Added "p1" Scenario.p1_x]))
                    (IPtr (Pod "p1" "default" "Running"))
                    (mkNode Scenario.p1 {[ "status" := "Running" ]} 1) eq_refl)).
    vm_compute. left.
  - apply (proj2 (RemoveNode_cascades_only_when_absent
                    (graph (stateAfter [Scenario.podEvent Added "p1" Scenario.p1_x]))
                    (IPtr (Pod "p2" "default" "Running"))
                    (mkNode Scenario.p2 {[ "status" := "Running" ]} 1) eq_refl)).
    vm_compute. intros H. apply list_elem_of_singleton in H. discriminate H.
Defined.

Lemma involves_edgeId key r r' :
  edgeId r = edgeId r' → involves key r = involves key r'.
Proof. unfold edgeId, involves. by intros [= -> -> _]. Qed.

Lemma RemoveRelationship_keeps_others (f : GraphRelationship → bool) g s t ty :
  (∀ r, edgeId r = (s, t, ty) → f r = true) →
  filter (fun rel => f rel = false) (Relationships (RemoveRelationship g s t ty))
  = filter (fun rel => f rel = false) (Relationships g).
Proof.
  intros Hf. unfold RemoveRelationship.
  destruct (findRel s t ty (Relationships g)) as [i|] eqn:Hfind; [|done].
  destruct (findRel_Some _ _ _ _ _ Hfind) as (l1 & r & l2 & Hg & <- & Hid & _).
  simpl. rewrite Hg, cut_middle, !filter_app, filter_cons.
  rewrite decide_False; [done|]. rewrite (Hf r Hid). done.
Qed.

Lemma rangeRemove_keeps_others key count : ∀ i cells g,
  filter (fun rel => involves key rel = false)
    (Relationships (rangeRemove key i count cells g))
  = filter (fun rel => involves key rel = false) (Relationships g).
Proof.
  induction count as [|count IH]; intros i cells g; simpl; [done|].
  destruct (cells !! i) as [rel|]; [|done].
  destruct (involves key rel) eqn:Hinv; [|apply IH].
  rewrite IH. apply RemoveRelationship_keeps_others.
  intros r Hr. rewrite <- Hinv. by apply involves_edgeId.
Qed.

(** X5 (the frame of [removeResourceRelationships]).  Whatever the
    graph holds, [removeResourceRelationships] leaves the nodes alone,
    only takes relationships out (the result is a sub-sequence of the
    slice) and never takes out a relationship that has the key neither
    as source nor as target: those stay, all of them, in their
    order. *)
Theorem removeResourceRelationships_frame (g : Graph) (key : EntityKey) :
  Nodes (removeResourceRelationships g key) = Nodes g ∧
  Relationships (removeResourceRelationships g key)
    `sublist_of` Relationships g ∧
  filter (fun rel => involves key rel = false)
    (Relationships (removeResourceRelationships g key))
  = filter (fun rel => involves key rel = false) (Relationships g).
Proof.
  unfold removeResourceRelationships. split_and!.
  - apply Nodes_rangeRemove.
  - apply Relationships_rangeRemove_sublist.
  - apply rangeRemove_keeps_others.
Qed.

Lemma rangeRemove_skip key count : ∀ i cells g,
  (∀ j rel, (i ≤ j < i + count)%nat → cells !! j = Some rel →
            involves key rel = false) →
  rangeRemove key i count cells g = g.
Proof.
  induction count as [|count IH]; intros i cells g Hskip; simpl; [done|].
  destruct (cells !! i) as [rel|] eqn:Hi; [|done].
  rewrite (Hskip i rel) by (done || lia).
  apply IH. intros j r Hj. apply Hskip. lia.
Qed.

Lemma rangeRemove_skip_prefix key a : ∀ i b cells g,
  (∀ j, (i ≤ j < i + a)%nat →
        ∃ rel, cells !! j = Some rel ∧ involves key rel = false) →
  rangeRemove key i (a + b) cells g = rangeRemove key (i + a) b cells g.
Proof.
  induction a as [|a IH]; intros i b cells g Hskip; simpl.
  - by rewrite Nat.add_0_r.
  - destruct (Hskip i) as (rel & -> & ->); [lia|].
    rewrite IH; [f_equal; lia|]. intros j Hj. apply Hskip. lia.
Qed.

Lemma shiftCells_last {A : Type} (l1 l2 : list A) (x : A) :
  shiftCells (length l1) (length (l1 ++ x :: l2)) (l1 ++ x :: l2)
  = (l1 ++ l2) ++ [default x (last l2)].
Proof.
  unfold shiftCells. rewrite take_app_length.
  rewrite firstn_all.
  replace (drop (S (length l1)) (l1 ++ x :: l2)) with l2
    by (symmetry; rewrite (cons_middle x l1 l2), app_assoc;
        replace (S (length l1)) with (length (l1 ++ [x]))
          by (rewrite length_app; simpl; lia);
        apply drop_app_length).
  rewrite length_app. simpl.
  replace (length l1 + S (length l2) - 1)%nat with (length l1 + length l2)%nat by lia.
  rewrite drop_app_add'; [|done]. rewrite <- app_assoc. f_equal. f_equal.
  destruct l2 as [|z l2] using rev_ind.
  - done.
  - rewrite last_snoc. simpl. rewrite length_app. simpl.
    replace (length l2 + 1)%nat with (S (length l2)) by lia.
    simpl. by rewrite drop_app_length.
Qed.

Lemma removeResourceRelationships_one g key l1 r l2 :
  Relationships g = l1 ++ r :: l2 → involves key r = true →
  Forall (fun x => involves key x = false) (l1 ++ l2) →
  removeResourceRelationships g key
  = mkGraph (Nodes g) (l1 ++ l2) (incr (revision g)).
Proof.
  intros Hg Hr Hall. apply Forall_app in Hall as [H1 H2].
  rewrite Forall_forall in H1. rewrite Forall_forall in H2.
  unfold removeResourceRelationships. rewrite Hg, length_app. simpl.
  rewrite rangeRemove_skip_prefix.
  2: { intros j Hj. destruct (lookup_lt_is_Some_2 l1 j) as [x Hx]; [lia|].
       exists x. split; [by rewrite lookup_app_l by lia|].
       apply H1. by eapply list_elem_of_lookup_2. }
  simpl. rewrite (list_lookup_middle l1 l2 r (length l1) eq_refl), Hr.
  assert ((Source r, Target r, RelationshipType r) ∉ (edgeId <$> l1)) as Hfresh.
  { intros (x & Hid & Hx)%list_elem_of_fmap.
    specialize (H1 x Hx).
    rewrite (involves_edgeId key x r) in H1 by (by rewrite <- Hid).
    congruence. }
  unfold removeInPlace.
  rewrite (RemoveRelationship_present g _ _ _ l1 r l2 Hg eq_refl Hfresh).
  rewrite Hg, (findRel_first _ _ _ l1 r l2 eq_refl Hfresh).
  pose proof (shiftCells_last l1 l2 r) as Hs. rewrite length_app in Hs. simpl in Hs.
  rewrite length_app. simpl. rewrite Hs.
  apply rangeRemove_skip. intros j rel Hj Hl.
  destruct (decide (j < length (l1 ++ l2))%nat) as [Hlt|Hge].
  - rewrite lookup_app_l in Hl by done.
    rewrite lookup_app_r in Hl by lia.
    apply H2. by eapply list_elem_of_lookup_2.
  - rewrite length_app in Hge.
    rewrite lookup_app_r in Hl by (rewrite length_app; lia).
    rewrite length_app in Hl.
    replace (j - (length l1 + length l2))%nat with 0%nat in Hl by lia.
    simpl in Hl. injection Hl as <-.
    destruct (last l2) as [y|] eqn:Hlast; simpl.
    + apply H2. by apply last_Some_elem_of.
    + apply last_None in Hlast. subst l2. simpl in Hj. lia.
Qed.

(** X6 (a single incident relationship is removed).  When exactly one
    relationship of the graph has the key as source or target,
    [removeResourceRelationships] removes that relationship and nothing
    else, and increments the revision once. *)
Theorem removeResourceRelationships_single (g : Graph) (key : EntityKey)
    (l1 l2 : list GraphRelationship) (r : GraphRelationship) :
  Relationships g = l1 ++ r :: l2 → involves key r = true →
  Forall (fun x => involves key x = false) (l1 ++ l2) →
  removeResourceRelationships g key
  = mkGraph (Nodes g) (l1 ++ l2) (incr (revision g)).
Proof. apply removeResourceRelationships_one. Qed.

Lemma removeResourceRelationships_single_witness :
  removeResourceRelationships
    (mkGraph []
       [mkRel Scenario.p1 Scenario.n1 "runs_on" None 1;
        mkRel Scenario.svc1 Scenario.p2 "targets" None 1;
        mkRel Scenario.p1 Scenario.rs1 "owned_by" None 1] 4)
    Scenario.p2
  = mkGraph []
      ([mkRel Scenario.p1 Scenario.n1 "runs_on" None 1]
         ++ [mkRel Scenario.p1 Scenario.rs1 "owned_by" None 1])
      (incr 4).
Proof.
  apply (removeResourceRelationships_single
           (mkGraph []
              [mkRel Scenario.p1 Scenario.n1 "runs_on" None 1;
               mkRel Scenario.svc1 Scenario.p2 "targets" None 1;
               mkRel Scenario.p1 Scenario.rs1 "owned_by" None 1] 4)
           Scenario.p2
           [mkRel Scenario.p1 Scenario.n1 "runs_on" None 1]
           [mkRel Scenario.p1 Scenario.rs1 "owned_by" None 1]
           (mkRel Scenario.svc1 Scenario.p2 "targets" None 1)).
  - reflexivity.
  - vm_compute. reflexivity.
  - repeat constructor.
Defined.

(** X7 (a [Deleted] event for an entity that has no node).  When the
    graph has no node with the key of the deleted object (a delete that
    arrives before the add, or a second delete), and the key the watch
    loop builds from the object's metadata is that same key, the event
    is processed without a panic, leaves the nodes as they are and
    removes every relationship that has the key as source or target:
    in this case the cascade of [RemoveNode] runs. *)
Theorem deleted_without_node_cascades (st : State) (e : Event)
    (u metadata : gmap string Value) (name namespace : string)
    (node : GraphNode) :
  evType e = Deleted →
  evUnstructured e = Some u →
  u !! "metadata" = Some (VMap metadata) →
  metadata !! "name" = Some (VString name) →
  namespaceOf metadata = Ok namespace →
  objectToGraphNode (evObject e) = Ok (Some node) →
  Key node = mkKey name namespace (resourceType e) →
  Key node ∉ nodeKeys (graph st) →
  ∃ st',
    handleEvent st e = Ok st' ∧
    Nodes (graph st') = Nodes (graph st) ∧
    Relationships (graph st')
      = filter (fun rel => involves (Key node) rel = false)
          (Relationships (graph st)) ∧
    Forall (fun rel => involves (Key node) rel = false)
      (Relationships (graph st')).
Proof.
  intros Hty Hu Hm Hn Hns Ho Hkey Habs. unfold handleEvent.
  rewrite Hu, Hty, (index_Some _ _ _ Hm). simpl.
  rewrite (index_Some _ _ _ Hn). simpl. rewrite Hns. simpl.
  rewrite (proj2 (RemoveNode_cascades_only_when_absent _ _ _ Ho) Habs). simpl.
  eexists. split; [done|]. rewrite graph_cacheDelete, <- Hkey.
  assert (Forall (fun rel => involves (Key node) rel = false)
            (filter (fun rel => involves (Key node) rel = false)
               (Relationships (graph st)))) as Hall.
  { apply Forall_forall. intros rel Hin. by apply list_elem_of_filter in Hin as [? _]. }
  unfold removeResourceRelationships. simpl.
  rewrite rangeRemove_skip; [by split_and!|].
  intros j rel _ Hl. rewrite Forall_forall in Hall. apply Hall.
  by eapply list_elem_of_lookup_2.
Qed.

Lemma deleted_without_node_cascades_witness :
  ∃ st',
    handleEvent
      (mkState
         (mkGraph []
            [mkRel Scenario.svc1 Scenario.p1 "targets" None 1;
             mkRel Scenario.p2 Scenario.n1 "runs_on" None 1] 3) ∅ ∅)
      (Scenario.podEvent Deleted "p1" Scenario.p1_x) = Ok st' ∧
    Nodes (graph st') = [] ∧
    Relationships (graph st')
      = filter (fun rel => involves Scenario.p1 rel = false)
          [mkRel Scenario.svc1 Scenario.p1 "targets" None 1;
           mkRel Scenario.p2 Scenario.n1 "runs_on" None 1] ∧
    Forall (fun rel => involves Scenario.p1 rel = false)
      (Relationships (graph st')).
Proof.
  apply (deleted_without_node_cascades
           (mkState
              (mkGraph []
                 [mkRel Scenario.svc1 Scenario.p1 "targets" None 1;
                  mkRel Scenario.p2 Scenario.n1 "runs_on" None 1] 3) ∅ ∅)
           (Scenario.podEvent Deleted "p1" Scenario.p1_x)
           Scenario.p1_x
           (<["name" := VString "p1"]>
            (<["namespace" := VString "default"]>
             (<["labels" := VMap Scenario.appX]>
              {[ "ownerReferences" :=
                   VList [Scenario.ownerRef "ReplicaSet" "rs1"] ]})))
           "p1" "default"
           (mkNode Scenario.p1 {[ "status" := "Running" ]} 1));
    try (vm_compute; reflexivity).
  vm_compute. intros H. by apply elem_of_nil in H.
Defined.

(** X8 (adding then removing a relationship).  When no relationship of
    the graph has the identity (source, target, type), adding one with
    [AddRelationship] and removing it with [RemoveRelationship] gives
    back the same nodes and the same relationship slice; the revision
    has been incremented twice. *)
Theorem add_then_remove_relationship (g : Graph) (source target : EntityKey)
    (relationshipType : string) (properties : option (gmap string string)) :
  (source, target, relationshipType) ∉ edgeIds g →
  RemoveRelationship
    (AddRelationship g source target relationshipType properties)
    source target relationshipType
  = mkGraph (Nodes g) (Relationships g) (incr (incr (revision g))).
Proof.
  intros Hn. unfold AddRelationship.
  rewrite (proj2 (refreshRel_None _ _ _ properties _) Hn).
  erewrite (RemoveRelationship_present _ _ _ _ (Relationships g) _ []);
    [by rewrite app_nil_r | done | done | done].
Qed.

Lemma add_then_remove_relationship_witness :
  RemoveRelationship
    (AddRelationship NewGraph Scenario.svc1 Scenario.p1 "targets" None)
    Scenario.svc1 Scenario.p1 "targets"
  = mkGraph (Nodes NewGraph) (Relationships NewGraph)
      (incr (incr (revision NewGraph))).
Proof.
  apply add_then_remove_relationship.
  vm_compute. intros H. by apply elem_of_nil in H.
Defined.

(** X9 (adding then removing a node).  For an object
    [objectToGraphNode] accepts and a graph without a node of its key,
    [AddNode] followed by [RemoveNode] of the same object succeeds and
    gives back the same node slice and the same relationships. *)
Theorem add_then_remove_node (g : Graph) (obj : Iface) (node : GraphNode) :
  objectToGraphNode obj = Ok (Some node) →
  Key node ∉ nodeKeys g →
  ∃ g1 g2,
    AddNode g obj = Ok g1 ∧ RemoveNode g1 obj = Ok g2 ∧
    Nodes g1 = Nodes g ++ [node] ∧
    Nodes g2 = Nodes g ∧ Relationships g2 = Relationships g.
Proof.
  intros Ho Hn. unfold AddNode, RemoveNode. rewrite Ho. simpl.
  rewrite (proj2 (replaceNode_None _ _) Hn). eexists. eexists.
  split; [done|]. simpl.
  rewrite (dropNode_first (Key node) (Nodes g) node [] eq_refl Hn).
  split; [done|]. simpl. by rewrite app_nil_r.
Qed.

Lemma add_then_remove_node_witness :
  ∃ g1 g2,
    AddNode NewGraph (IPtr (Node "n1" "Ready")) = Ok g1 ∧
    RemoveNode g1 (IPtr (Node "n1" "Ready")) = Ok g2 ∧
    Nodes g1 = Nodes NewGraph ++ [mkNode Scenario.n1 {[ "status" := "Ready" ]} 1] ∧
    Nodes g2 = Nodes NewGraph ∧ Relationships g2 = Relationships NewGraph.
Proof.
  apply (add_then_remove_node NewGraph (IPtr (Node "n1" "Ready"))
           (mkNode Scenario.n1 {[ "status" := "Ready" ]} 1) eq_refl).
  vm_compute. intros H. by apply elem_of_nil in H.
Defined.

(** ** The listing on what the client returns *)

(** X10 (the listing on the client's values).  The six list wrappers of
    the client hand the API objects over by value.  [AddNode] ignores
    such a value and every loop of [listAllResources] that reads an
    item asserts it to be a map, so on what the client returns the
    listing never adds a node, an edge or a cache entry: if it returns
    at all, the state is the one it started from.  It returns without
    error exactly when all six calls succeed and there is no pod,
    replica set, deployment or service; with at least one pod it
    panics. *)
Theorem client_listing_adds_nothing
    (pods replicasets deployments nodes services configmaps
       : option (list ApiObject)) (st : State) :
  (∀ st' listed,
     listAllResources
       (clientCluster pods replicasets deployments nodes services configmaps)
       st = Ok (st', listed) →
     st' = st ∧
     (listed = true ↔
      pods = Some [] ∧ replicasets = Some [] ∧ deployments = Some [] ∧
      is_Some nodes ∧ services = Some [] ∧ is_Some configmaps)) ∧
  (∀ p ps,
     pods = Some (p :: ps) →
     listAllResources
       (clientCluster pods replicasets deployments nodes services configmaps)
       st = Panic) ∧
  (∀ ns cs,
     pods = Some [] → replicasets = Some [] → deployments = Some [] →
     nodes = Some ns → services = Some [] → configmaps = Some cs →
     listAllResources
       (clientCluster pods replicasets deployments nodes services configmaps)
       st = Ok (st, true)).
Proof.
  destruct st as [g pc sc].
  split_and!.
  - intros st' listed. unfold listAllResources, clientCluster.
    cbn -[listItems forM].
    destruct pods as [[|p ps]|]; cbn -[listItems forM].
    2: { by rewrite forM_listItems_panics. }
    2: { intros [= <- <-]. split; [done|]. split; [done|]. by intros [[=] _]. }
    rewrite forM_listItems_nil. cbn -[listItems forM].
    rewrite forM_listItems_nil. cbn -[listItems forM].
    destruct replicasets as [rs|]; cbn -[listItems forM].
    2: { intros [= <- <-]. split; [done|]. split; [done|]. by intros (_ & [=] & _). }
    rewrite forM_AddNode_listItems. cbn -[listItems forM].
    destruct deployments as [ds|]; cbn -[listItems forM].
    2: { intros [= <- <-]. split; [done|]. split; [done|]. by intros (_ & _ & [=] & _). }
    rewrite forM_AddNode_listItems. cbn -[listItems forM].
    destruct nodes as [ns|]; cbn -[listItems forM].
    2: { intros [= <- <-]. split; [done|]. split; [done|].
         by intros (_ & _ & _ & [? [=]] & _). }
    rewrite forM_AddNode_listItems. cbn -[listItems forM].
    destruct services as [[|s ss]|]; cbn -[listItems forM].
    2: { by rewrite forM_listItems_panics. }
    2: { intros [= <- <-]. split; [done|]. split; [done|].
         by intros (_ & _ & _ & _ & [=] & _). }
    rewrite forM_listItems_nil. cbn -[listItems forM].
    rewrite forM_listItems_nil. cbn -[listItems forM].
    destruct configmaps as [cs|]; cbn -[listItems forM].
    2: { intros [= <- <-]. split; [done|]. split; [done|].
         by intros (_ & _ & _ & _ & _ & [? [=]]). }
    rewrite forM_AddNode_listItems. cbn -[listItems forM].
    rewrite forM_listItems_nil. cbn -[listItems forM].
    destruct rs as [|r rs].
    2: { by rewrite forM_listItems_panics. }
    rewrite forM_listItems_nil. cbn -[listItems forM].
    rewrite forM_listItems_nil. cbn -[listItems forM].
    destruct ds as [|d ds].
    2: { by rewrite forM_listItems_panics. }
    rewrite forM_listItems_nil. cbn -[listItems forM].
    intros [= <- <-]. split; [done|]. split; [|done]. intros _.
    split_and!; eauto.
  - intros p ps ->. unfold listAllResources, clientCluster.
    cbn -[listItems forM]. by rewrite forM_listItems_panics.
  - intros ns cs -> -> -> -> -> ->. unfold listAllResources, clientCluster.
    cbn -[listItems forM].
    repeat (rewrite ?forM_listItems_nil, ?forM_AddNode_listItems;
            cbn -[listItems forM]).
    done.
Qed.

Lemma client_listing_adds_nothing_witness :
  listAllResources
    (clientCluster (Some [Pod "p1" "default" "Running"]) (Some []) (Some [])
       (Some [Node "n1" "Ready"]) (Some []) (Some []))
    initState = Panic ∧
  listAllResources
    (clientCluster (Some []) (Some []) (Some [])
       (Some [Node "n1" "Ready"]) (Some [])
       (Some [ConfigMap "c1" "default" ∅]))
    initState = Ok (initState, true).
Proof.
  split.
  - apply (proj1 (proj2 (client_listing_adds_nothing
                           (Some [Pod "p1" "default" "Running"]) (Some [])
                           (Some []) (Some [Node "n1" "Ready"]) (Some [])
                           (Some []) initState))
             (Pod "p1" "default" "Running") []).
    reflexivity.
  - apply (proj2 (proj2 (client_listing_adds_nothing
                           (Some []) (Some []) (Some [])
                           (Some [Node "n1" "Ready"]) (Some [])
                           (Some [ConfigMap "c1" "default" ∅]) initState))
             [Node "n1" "Ready"] [ConfigMap "c1" "default" ∅]);
      reflexivity.
Defined.

(** ** Events of the kinds that derive no edge *)

(** X11 (events of nodes and config maps).  An [Added] or [Modified]
    event on a watcher of a kind other than Pod, ReplicaSet, Service
    and Deployment (the Node and the ConfigMap watchers) changes no
    relationship and neither cache: such an event can only write the
    node of its object. *)
Theorem other_kinds_touch_no_edge (st st' : State) (e : Event) :
  evType e = Added ∨ evType e = Modified →
  resourceType e ∉ ["Pod"; "ReplicaSet"; "Service"; "Deployment"] →
  handleEvent st e = Ok st' →
  Relationships (graph st') = Relationships (graph st) ∧
  podCache st' = podCache st ∧ serviceCache st' = serviceCache st.
Proof.
  intros Hty Hrt H. unfold handleEvent, UpdateNode in H.
  destruct (evUnstructured e) as [u|]; [|by injection H as <-].
  destruct (asMap (index u "metadata")) as [metadata|]; [simpl in H|done].
  destruct (asString (index metadata "name")) as [name|]; [simpl in H|done].
  destruct (namespaceOf metadata) as [namespace|]; [simpl in H|done].
  assert (∀ g1, updateRelationships g1 (rangePods (podCache st)) u
                  (resourceType e) name namespace = Ok g1) as Hup.
  { intros g1. unfold updateRelationships.
    repeat case_bool_decide; try done; exfalso; apply Hrt; set_solver. }
  assert (∀ key g, cachePut (resourceType e) key u st g
                   = mkState g (podCache st) (serviceCache st)) as Hput.
  { intros key g. unfold cachePut.
    repeat case_bool_decide; try done; exfalso; apply Hrt; set_solver. }
  destruct Hty as [Hty|Hty]; rewrite Hty in H;
    (destruct (AddNode (graph st) (evObject e)) as [g1|] eqn:H1; [simpl in H|done]);
    rewrite Hup in H; simpl in H; rewrite Hput in H; injection H as <-; simpl;
    by rewrite (Relationships_AddNode _ _ _ H1).
Qed.

Lemma other_kinds_touch_no_edge_witness :
  Relationships
    (graph (stateAfter
       [Scenario.podEvent Added "p1" Scenario.p1_x;
        mkEvent "Node" Added (IPtr (Node "n1" "Ready"))
          (Some {[ "metadata" := VMap {[ "name" := VString "n1" ]} ]})]))
  = Relationships (graph (stateAfter [Scenario.podEvent Added "p1" Scenario.p1_x])).
Proof.
  apply (other_kinds_touch_no_edge
           (stateAfter [Scenario.podEvent Added "p1" Scenario.p1_x])
           (stateAfter
              [Scenario.podEvent Added "p1" Scenario.p1_x;
               mkEvent "Node" Added (IPtr (Node "n1" "Ready"))
                 (Some {[ "metadata" := VMap {[ "name" := VString "n1" ]} ]})])
           (mkEvent "Node" Added (IPtr (Node "n1" "Ready"))
              (Some {[ "metadata" := VMap {[ "name" := VString "n1" ]} ]}))).
  - left. reflexivity.
  - vm_compute. intros H.
    repeat (apply elem_of_cons in H as [H|H]; [discriminate H|]).
    by apply elem_of_nil in H.
  - vm_compute. reflexivity.
Defined.

(** ** Which edges an event adds *)

Lemma fromOr_AddRelationship g0 Q g s t ty p :
  fromOr g0 Q g → Q (s, t, ty) → fromOr g0 Q (AddRelationship g s t ty p).
Proof.
  intros Hg HQ id Hin. apply elem_of_edgeIds_AddRelationship in Hin as [->|Hin]; auto.
Qed.

Lemma ownerStep_fromOr g0 Q srcType wanted name namespace g x g' :
  (∀ t, Q (mkKey name namespace srcType, t, "owned_by")) →
  ownerStep srcType wanted name namespace g x = Ok g' →
  fromOr g0 Q g → fromOr g0 Q g'.
Proof.
  intros HQ. unfold ownerStep.
  destruct (asMap x) as [owner|]; simpl; [|done].
  destruct (asString (index owner "kind")) as [kind|]; simpl; [|done].
  case_bool_decide; [|by intros [= <-]].
  destruct (asString (index owner "name")) as [ownerName|]; simpl; [|done].
  intros [= <-] Hg. by apply fromOr_AddRelationship.
Qed.

Lemma volumeStep_fromOr g0 Q name namespace g x g' :
  (∀ t, Q (mkKey name namespace "Deployment", t, "uses")) →
  volumeStep name namespace g x = Ok g' →
  fromOr g0 Q g → fromOr g0 Q g'.
Proof.
  intros HQ. unfold volumeStep.
  destruct (asMap x) as [vol|]; simpl; [|done].
  destruct (vol !! "configMap") as [configMap|]; [|by intros [= <-]].
  destruct (asMap configMap) as [cm|]; simpl; [|done].
  destruct (asString (index cm "name")) as [cmName|]; simpl; [|done].
  intros [= <-] Hg. by apply fromOr_AddRelationship.
Qed.

Lemma updateRelationships_fromOr g pods obj rt name namespace g' :
  rt ∈ ["Pod"; "ReplicaSet"; "Deployment"] →
  updateRelationships g pods obj rt name namespace = Ok g' →
  fromOr g
    (fun id => id.1.1 = mkKey name namespace rt
               ∧ id.2 ∈ ["runs_on"; "owned_by"; "uses"]) g'.
Proof.
  intros Hrt. unfold updateRelationships.
  set (Q := fun id : EdgeId => id.1.1 = mkKey name namespace rt
                               ∧ id.2 ∈ ["runs_on"; "owned_by"; "uses"]).
  assert (fromOr g Q g) as H0 by (intros id Hin; by left).
  repeat (apply elem_of_cons in Hrt as [->|Hrt]); [| | |by apply elem_of_nil in Hrt];
    simpl.
  - destruct (asMap (index obj "spec")) as [spec|]; simpl; [|done].
    destruct (asMap (index obj "metadata")) as [metadata|]; simpl; [|done].
    match goal with
    | |- context [forM _ ?g1 _] => assert (fromOr g Q g1) as Hg1
    end.
    { destruct (index spec "nodeName"); try done. case_bool_decide; [|done].
      apply fromOr_AddRelationship; [done|]. split; [done | set_solver]. }
    destruct (index metadata "ownerReferences"); try (by intros [= <-]).
    intros H. revert H Hg1. apply (forM_inv (fromOr g Q)).
    intros h x h'. apply ownerStep_fromOr. intros t. split; [done | set_solver].
  - destruct (asMap (index obj "metadata")) as [metadata|]; simpl; [|done].
    destruct (index metadata "ownerReferences"); try (by intros [= <-]).
    intros H. revert H H0. apply (forM_inv (fromOr g Q)).
    intros h x h'. apply ownerStep_fromOr. intros t. split; [done | set_solver].
  - destruct (asMap (index obj "spec")) as [spec|]; simpl; [|done].
    destruct (asMap (index spec "template")) as [template|]; simpl; [|done].
    destruct (asMap (index template "spec")) as [tspec|]; simpl; [|done].
    destruct (index tspec "volumes"); try (by intros [= <-]).
    intros H. revert H H0. apply (forM_inv (fromOr g Q)).
    intros h x h'. apply volumeStep_fromOr. intros t. split; [done | set_solver].
Qed.

(** X12 (what a pod, replica-set or deployment event adds).  When an
    [Added] or [Modified] event of one of these three kinds is
    processed, every edge of the new graph was there before or has the
    event's entity (name, namespace, kind of the watcher) as its source
    and one of the types [runs_on], [owned_by], [uses]; in particular
    the [targets] edges after the event are exactly those before it:
    such an event neither adds nor removes a [targets] edge. *)
Theorem single_field_events_add_own_edges (st st' : State) (e : Event)
    (u metadata : gmap string Value) (name namespace : string) :
  evType e = Added ∨ evType e = Modified →
  resourceType e ∈ ["Pod"; "ReplicaSet"; "Deployment"] →
  evUnstructured e = Some u →
  u !! "metadata" = Some (VMap metadata) →
  metadata !! "name" = Some (VString name) →
  namespaceOf metadata = Ok namespace →
  handleEvent st e = Ok st' →
  (∀ id, id ∈ edgeIds (graph st') →
     id ∈ edgeIds (graph st) ∨
     (id.1.1 = mkKey name namespace (resourceType e)
      ∧ id.2 ∈ ["runs_on"; "owned_by"; "uses"])) ∧
  (∀ s t, (s, t, "targets") ∈ edgeIds (graph st')
          ↔ (s, t, "targets") ∈ edgeIds (graph st)).
Proof.
  intros Hty Hrt Hu Hm Hn Hns H.
  destruct (handleEvent_upsert _ _ _ _ Hty H Hu)
    as (metadata' & name' & namespace' & g1 & Hm' & Hn' & Hns' & H1 & H2).
  rewrite (index_Some _ _ _ Hm) in Hm'. injection Hm' as <-.
  rewrite (index_Some _ _ _ Hn) in Hn'. injection Hn' as <-.
  rewrite Hns in Hns'. injection Hns' as <-.
  pose proof (updateRelationships_fromOr _ _ _ _ _ _ _ Hrt H2) as Hfrom.
  pose proof (updateRelationships_growth _ _ _ _ _ _ _ Hrt H2) as Hgrow.
  rewrite (edgeIds_AddNode _ _ _ H1) in Hgrow.
  assert (∀ id, id ∈ edgeIds (graph st') →
            id ∈ edgeIds (graph st) ∨
            (id.1.1 = mkKey name namespace (resourceType e)
             ∧ id.2 ∈ ["runs_on"; "owned_by"; "uses"])) as Hnew.
  { intros id Hin. destruct (Hfrom id Hin) as [Hold|HQ]; [|by right].
    left. by rewrite <- (edgeIds_AddNode _ _ _ H1). }
  split; [exact Hnew|]. intros s t. split.
  - intros Hin. destruct (Hnew _ Hin) as [Hold|[_ Hty']]; [done|].
    simpl in Hty'. exfalso.
    repeat (apply elem_of_cons in Hty' as [Hty'|Hty']; [discriminate Hty'|]).
    by apply elem_of_nil in Hty'.
  - by apply prefix_elem.
Qed.

Lemma single_field_events_add_own_edges_witness :
  (Scenario.svc1, Scenario.p1, "targets")
    ∈ edgeIds (graph (stateAfter
        [Scenario.podEvent Added "p1" Scenario.p1_x;
         Scenario.serviceEvent Added "svc1" Scenario.svc1_x;
         Scenario.podEvent Modified "p1" Scenario.p1_y]))
  ↔ (Scenario.svc1, Scenario.p1, "targets")
    ∈ edgeIds (graph (stateAfter
        [Scenario.podEvent Added "p1" Scenario.p1_x;
         Scenario.serviceEvent Added "svc1" Scenario.svc1_x])).
Proof.
  destruct (single_field_events_add_own_edges
              (stateAfter [Scenario.podEvent Added "p1" Scenario.p1_x;
                           Scenario.serviceEvent Added "svc1" Scenario.svc1_x])
              (stateAfter [Scenario.podEvent Added "p1" Scenario.p1_x;
                           Scenario.serviceEvent Added "svc1" Scenario.svc1_x;
                           Scenario.podEvent Modified "p1" Scenario.p1_y])
              (Scenario.podEvent Modified "p1" Scenario.p1_y)
              Scenario.p1_y
              (<["name" := VString "p1"]>
               (<["namespace" := VString "default"]>
                (<["labels" := VMap Scenario.appY]>
                 {[ "ownerReferences" :=
                      VList [Scenario.ownerRef "ReplicaSet" "rs1"] ]})))
              "p1" "default") as [_ Htargets];
    try (vm_compute; reflexivity).
  - right. reflexivity.
  - apply elem_of_cons. left. reflexivity.
  - apply Htargets.
Defined.

(** ** What a service event leaves *)

(** X13 (the target edges after a service event).  In a reachable
    state, when an [Added] or [Modified] event of a service with a
    selector map is processed, then for every pod of the pod cache the
    edge from the service to the pod exists afterwards exactly when the
    pod's labels match the selector, and every other edge (another
    source, another type, or a target that is not a cached pod) is
    there afterwards exactly when it was there before. *)
Theorem service_event_targets_matching_pods (st st' : State) (e : Event)
    (u metadata spec selector : gmap string Value) (name namespace : string) :
  reachable st →
  evType e = Added ∨ evType e = Modified →
  resourceType e = "Service" →
  evUnstructured e = Some u →
  u !! "metadata" = Some (VMap metadata) →
  metadata !! "name" = Some (VString name) →
  namespaceOf metadata = Ok namespace →
  u !! "spec" = Some (VMap spec) →
  spec !! "selector" = Some (VMap selector) →
  handleEvent st e = Ok st' →
  (∀ k pod pm pn pns labels m,
     podCache st !! k = Some pod →
     pod !! "metadata" = Some (VMap pm) →
     pm !! "name" = Some (VString pn) →
     pm !! "namespace" = Some (VString pns) →
     labelsOf pm = Ok labels →
     selectorMatches selector labels = Ok m →
     ((mkKey name namespace "Service", mkKey pn pns "Pod", "targets")
        ∈ edgeIds (graph st') ↔ m = true)) ∧
  (∀ id,
     (∀ k pod pm pn pns,
        podCache st !! k = Some pod →
        pod !! "metadata" = Some (VMap pm) →
        pm !! "name" = Some (VString pn) →
        pm !! "namespace" = Some (VString pns) →
        id ≠ (mkKey name namespace "Service", mkKey pn pns "Pod", "targets")) →
     (id ∈ edgeIds (graph st') ↔ id ∈ edgeIds (graph st))).
Proof.
  intros Hreach Hty Hrt Hu Hm Hn Hns Hs Hsel H. split.
  - intros k pod pm pn pns labels m.
    by apply (service_event_pod_edge st st' e u metadata spec selector
                name namespace).
  - destruct (service_event_ops _ _ _ _ _ _ _ _ _ Hreach Hty Hrt Hu Hm Hn Hns
                Hs Hsel H) as (ops & Hf & Hdist & Hin).
    destruct (Forall2_targetOp_elem _ _ _ Hf) as [Hops1 _].
    intros id Hid.
    assert (∀ key m, (key, m) ∈ ops →
              id ≠ (mkKey name namespace "Service", key, "targets")) as Hother.
    { intros key m Hop. destruct (Hops1 _ Hop) as (pod & Hpod & Htop).
      apply elem_of_rangePods in Hpod as [k Hk].
      apply targetOp_fields in Htop
        as (pm & pn & pns & labels & Hpm & Hpn & Hpns & _ & _ & ->).
      apply (Hid k pod pm pn pns); [done|..].
      - unfold index in Hpm. destruct (pod !! "metadata"); by simplify_eq/=.
      - unfold index in Hpn. destruct (pm !! "name"); by simplify_eq/=.
      - unfold index in Hpns. destruct (pm !! "namespace"); by simplify_eq/=. }
    rewrite Hin. split.
    + intros [(key & -> & Hop)|[Hold _]]; [|done]. by apply Hother in Hop.
    + intros Hold. right. split; [done|].
      intros (key & -> & Hop). by apply Hother in Hop.
Qed.

Lemma service_event_targets_matching_pods_witness :
  (Scenario.svc1, mkKey "p1" "default" "Pod", "targets")
    ∈ edgeIds (graph (stateAfter
        [Scenario.podEvent Added "p1" Scenario.p1_x;
         Scenario.serviceEvent Added "svc1" Scenario.svc1_x]))
  ↔ true = true.
Proof.
  assert (reachable (stateAfter [Scenario.podEvent Added "p1" Scenario.p1_x]))
    as Hreach.
  { apply (reachable_run [Scenario.podEvent Added "p1" Scenario.p1_x]).
    vm_compute. reflexivity. }
  destruct (service_event_targets_matching_pods
              (stateAfter [Scenario.podEvent Added "p1" Scenario.p1_x])
              (stateAfter [Scenario.podEvent Added "p1" Scenario.p1_x;
                           Scenario.serviceEvent Added "svc1" Scenario.svc1_x])
              (Scenario.serviceEvent Added "svc1" Scenario.svc1_x)
              Scenario.svc1_x
              (<["name" := VString "svc1"]>
               (<["namespace" := VString "default"]>
                {[ "labels" := VMap ∅ ]}))
              {[ "selector" := VMap Scenario.appX ]}
              Scenario.appX "svc1" "default" Hreach) as [Hpods _];
    try (vm_compute; reflexivity).
  - left. reflexivity.
  - apply (Hpods (cacheKey "default" "p1") Scenario.p1_x
             (<["name" := VString "p1"]>
              (<["namespace" := VString "default"]>
               (<["labels" := VMap Scenario.appX]>
                {[ "ownerReferences" :=
                     VList [Scenario.ownerRef "ReplicaSet" "rs1"] ]})))
             "p1" "default" Scenario.appX true);
      vm_compute; reflexivity.
Defined.

(** ** Selectors *)

(** X14 (selectors of strings).  When every value of the selector is a
    string, the comparison loop of the service case never panics,
    whatever the pod's labels hold, and it answers [true] exactly when
    every (key, value) pair of the selector is a pair of the labels. *)
Theorem selector_of_strings_matches_by_equality
    (selector labels : gmap string Value) :
  (∀ key value, selector !! key = Some value → ∃ s, value = VString s) →
  ∃ b, selectorMatches selector labels = Ok b ∧
       (b = true ↔
        ∀ key value, selector !! key = Some value → labels !! key = Some value).
Proof.
  intros Hs. unfold selectorMatches.
  destruct (selectorLoop_strings labels (map_to_list selector)) as (b & Hb & Hiff).
  { intros key value Hin. apply (Hs key). by apply elem_of_map_to_list. }
  exists b. split; [done|]. rewrite Hiff. split.
  - intros H key value Hl. apply H. by apply elem_of_map_to_list.
  - intros H key value Hin. apply H. by apply elem_of_map_to_list.
Qed.

Lemma selector_of_strings_matches_by_equality_witness :
  ∃ b, selectorMatches Scenario.appX
         (<["tier" := VList []]> Scenario.appX) = Ok b ∧
       (b = true ↔
        ∀ key value, Scenario.appX !! key = Some value →
                     (<["tier" := VList []]> Scenario.appX) !! key = Some value).
Proof.
  apply selector_of_strings_matches_by_equality.
  intros key value Hl. unfold Scenario.appX in Hl.
  apply lookup_singleton_Some in Hl as [_ <-]. by exists "x".
Defined.

(** ** The caches *)

Lemma cacheEntry_insert (cache : gmap string (gmap string Value)) key obj :
  map_Forall cacheEntry cache → cacheEntry key obj →
  map_Forall cacheEntry (<[key := obj]> cache).
Proof. intros Hc He. by apply map_Forall_insert_2. Qed.

Lemma cacheEntry_delete (cache : gmap string (gmap string Value)) key :
  map_Forall cacheEntry cache → map_Forall cacheEntry (delete key cache).
Proof. intros Hc. by apply map_Forall_delete. Qed.

Lemma index_VMap (m : gmap string Value) k m' :
  asMap (index m k) = Ok m' → m !! k = Some (VMap m').
Proof.
  unfold index. destruct (m !! k) as [[]|]; simpl; try done. by intros [= ->].
Qed.

Lemma index_VString (m : gmap string Value) k s :
  asString (index m k) = Ok s → m !! k = Some (VString s).
Proof.
  unfold index. destruct (m !! k) as [[]|]; simpl; try done. by intros [= ->].
Qed.

Lemma handleEvent_cacheEntry st e st' :
  handleEvent st e = Ok st' →
  map_Forall cacheEntry (podCache st) ∧ map_Forall cacheEntry (serviceCache st) →
  map_Forall cacheEntry (podCache st') ∧ map_Forall cacheEntry (serviceCache st').
Proof.
  unfold handleEvent, UpdateNode. intros H [Hp Hs].
  destruct (evUnstructured e) as [u|]; [|by injection H as <-].
  destruct (asMap (index u "metadata")) as [metadata|] eqn:Hm; [simpl in H|done].
  destruct (asString (index metadata "name")) as [name|] eqn:Hn; [simpl in H|done].
  destruct (namespaceOf metadata) as [namespace|] eqn:Hns; [simpl in H|done].
  assert (cacheEntry (cacheKey namespace name) u) as Hentry.
  { exists metadata, name, namespace.
    split_and!; [by apply index_VMap | by apply index_VString | done | done]. }
  destruct (evType e); try by injection H as <-.
  1,2: destruct (AddNode (graph st) (evObject e)) as [g1|]; [simpl in H|done];
    destruct (updateRelationships g1 _ _ _ _ _) as [g2|]; [simpl in H|done];
    injection H as <-; unfold cachePut; repeat case_bool_decide; simpl;
    split; try done; by apply cacheEntry_insert.
  destruct (RemoveNode (graph st) (evObject e)) as [g1|]; [simpl in H|done].
  injection H as <-. unfold cacheDelete. repeat case_bool_decide; simpl;
    split; try done; by apply cacheEntry_delete.
Qed.

Lemma cacheStep_cacheEntry cache item cache' :
  cacheStep cache item = Ok cache' →
  map_Forall cacheEntry cache → map_Forall cacheEntry cache'.
Proof.
  unfold cacheStep. intros H Hok.
  destruct (ifaceAsMap item) as [obj|]; [simpl in H|done].
  destruct (asMap (index obj "metadata")) as [metadata|] eqn:Hm; [simpl in H|done].
  destruct (asString (index metadata "name")) as [name|] eqn:Hn; [simpl in H|done].
  destruct (asString (index metadata "namespace")) as [namespace|] eqn:Hns;
    [simpl in H|done].
  injection H as <-. apply cacheEntry_insert; [done|].
  exists metadata, name, namespace.
  split_and!; [by apply index_VMap | by apply index_VString | | done].
  unfold namespaceOf. apply index_VString in Hns. by rewrite Hns.
Qed.

Lemma listAllResources_cacheEntry c st st' listed :
  listAllResources c st = Ok (st', listed) →
  map_Forall cacheEntry (podCache st) ∧ map_Forall cacheEntry (serviceCache st) →
  map_Forall cacheEntry (podCache st') ∧ map_Forall cacheEntry (serviceCache st').
Proof.
  unfold listAllResources. intros H [Hp Hs].
  destruct (listPods c) as [pods|]; [|by injection H as <- <-].
  destruct (forM cacheStep (podCache st) pods) as [pc|] eqn:Hpc; [simpl in H|done].
  assert (map_Forall cacheEntry pc) as Hpc'.
  { revert Hpc Hp. apply forM_inv. intros s x s'. apply cacheStep_cacheEntry. }
  clear Hpc Hp.
  destruct (forM AddNode (graph st) pods) as [g1|]; [simpl in H|done].
  destruct (listReplicaSets c) as [replicasets|]; [|by injection H as <- <-].
  destruct (forM AddNode g1 replicasets) as [g2|]; [simpl in H|done].
  destruct (listDeployments c) as [deployments|]; [|by injection H as <- <-].
  destruct (forM AddNode g2 deployments) as [g3|]; [simpl in H|done].
  destruct (listNodes c) as [nodes|]; [|by injection H as <- <-].
  destruct (forM AddNode g3 nodes) as [g4|]; [simpl in H|done].
  destruct (listServices c) as [services|]; [|by injection H as <- <-].
  destruct (forM cacheStep (serviceCache st) services) as [sc|] eqn:Hsc;
    [simpl in H|done].
  assert (map_Forall cacheEntry sc) as Hsc'.
  { revert Hsc Hs. apply forM_inv. intros s x s'. apply cacheStep_cacheEntry. }
  clear Hsc Hs.
  repeat match type of H with
  | Ok _ = Ok _ => injection H as <- <-; simpl
  | Panic = Ok _ => discriminate H
  | context [match ?o with Some _ => _ | None => _ end] => destruct o
  | context [bind ?r _] => destruct r; simpl in H
  end; done.
Qed.

(** X15 (the keys of the caches).  In every reachable state, each entry
    of the pod cache and of the service cache holds an object whose
    metadata is a map with a string name, and sits under the key
    "namespace/name" made of that name and of the namespace of that
    metadata (the empty string when the metadata has none). *)
Theorem reachable_caches_keyed (st : State) (k : string)
    (obj : gmap string Value) :
  reachable st →
  podCache st !! k = Some obj ∨ serviceCache st !! k = Some obj →
  ∃ metadata name namespace,
    obj !! "metadata" = Some (VMap metadata) ∧
    metadata !! "name" = Some (VString name) ∧
    namespaceOf metadata = Ok namespace ∧
    k = cacheKey namespace name.
Proof.
  intros (c & events & st0 & listed & Hl & Hr) Hin.
  assert (map_Forall cacheEntry (podCache st)
          ∧ map_Forall cacheEntry (serviceCache st)) as [Hp Hs].
  { apply listAllResources_cacheEntry in Hl;
      [|split; apply map_Forall_empty].
    unfold run in Hr.
    by apply (forM_inv (fun s => map_Forall cacheEntry (podCache s)
                              ∧ map_Forall cacheEntry (serviceCache s))
                handleEvent events handleEvent_cacheEntry st0 st). }
  destruct Hin as [Hin|Hin]; [by apply (Hp k) | by apply (Hs k)].
Qed.

Lemma reachable_caches_keyed_witness :
  ∃ metadata name namespace,
    Scenario.svc1_x !! "metadata" = Some (VMap metadata) ∧
    metadata !! "name" = Some (VString name) ∧
    namespaceOf metadata = Ok namespace ∧
    "default/svc1" = cacheKey namespace name.
Proof.
  apply (reachable_caches_keyed
           (stateAfter [Scenario.podEvent Added "p1" Scenario.p1_x;
                        Scenario.serviceEvent Added "svc1" Scenario.svc1_x])).
  - apply (reachable_run [Scenario.podEvent Added "p1" Scenario.p1_x;
                          Scenario.serviceEvent Added "svc1" Scenario.svc1_x]).
    vm_compute. reflexivity.
  - right. vm_compute. reflexivity.
Defined.

(** ** The order in which the pod cache is visited *)

Lemma updateRelationships_order_Ok cache g obj rt name namespace order g2 :
  order ≡ₚ rangePods cache →
  updateRelationships g order obj rt name namespace = Ok g2 →
  ∃ g1, updateRelationships g (rangePods cache) obj rt name namespace = Ok g1.
Proof.
  intros Hperm. unfold updateRelationships.
  destruct (decide (rt = "Service")) as [->|Hne].
  - simpl. destruct (asMap (index obj "spec")) as [spec|]; simpl; [|done].
    destruct (index spec "selector") as [| | | | |selector];
      try (intros [= <-]; by exists g).
    intros (ops & Hf & _)%forM_targetStep_ops.
    destruct (Forall2_targetOp_Permutation _ _ _ _ Hperm Hf) as (ops' & _ & Hf').
    exists (foldl (applyOp (mkKey name namespace "Service")) g ops').
    apply forM_targetStep_ops. by exists ops'.
  - repeat case_bool_decide; try done; intros Hup; by exists g2.
Qed.

(** X16 (the iteration order of the pod cache).  Go leaves the order
    of [range podCache] unspecified.  In a reachable state, and on a
    graph without two relationships of one identity,
    [updateRelationships] gives the same outcome for any two orders in
    which the cached pods may be visited: it panics for both or for
    neither, and when it returns, the two graphs have the same nodes
    and the same set of edges. *)
Theorem pod_cache_order_irrelevant (st : State) (g : Graph)
    (order1 order2 : list (gmap string Value)) (obj : gmap string Value)
    (rt name namespace : string) :
  reachable st → NoDup (edgeIds g) →
  order1 ≡ₚ rangePods (podCache st) →
  order2 ≡ₚ rangePods (podCache st) →
  match updateRelationships g order1 obj rt name namespace,
        updateRelationships g order2 obj rt name namespace with
  | Ok g1, Ok g2 => Nodes g1 = Nodes g2 ∧ edgeIds g1 ≡ₚ edgeIds g2
  | Panic, Panic => True
  | _, _ => False
  end.
Proof.
  intros Hreach Hnd Hp1 Hp2.
  pose proof (reachable_cacheOK _ Hreach) as Hok.
  destruct (updateRelationships g (rangePods (podCache st)) obj rt name namespace)
    as [gc|] eqn:Hc.
  - destruct (updateRelationships_any_order _ _ _ _ _ _ _ _ Hok Hnd Hp1 Hc)
      as (g1 & -> & Hn1 & He1).
    destruct (updateRelationships_any_order _ _ _ _ _ _ _ _ Hok Hnd Hp2 Hc)
      as (g2 & -> & Hn2 & He2).
    split; [congruence|]. by rewrite He1, He2.
  - destruct (updateRelationships g order1 obj rt name namespace) as [g1|] eqn:H1.
    { destruct (updateRelationships_order_Ok _ _ _ _ _ _ _ _ Hp1 H1) as [gc Hgc].
      congruence. }
    destruct (updateRelationships g order2 obj rt name namespace) as [g2|] eqn:H2;
      [|done].
    destruct (updateRelationships_order_Ok _ _ _ _ _ _ _ _ Hp2 H2) as [gc Hgc].
    congruence.
Qed.

Lemma pod_cache_order_irrelevant_witness :
  match updateRelationships
          (graph (stateAfter [Scenario.podEvent Added "p1" Scenario.p1_x;
                              Scenario.podEvent Added "p2" Scenario.p2_x]))
          (rangePods (podCache
             (stateAfter [Scenario.podEvent Added "p1" Scenario.p1_x;
                          Scenario.podEvent Added "p2" Scenario.p2_x])))
          Scenario.svc1_x "Service" "svc1" "default",
        updateRelationships
          (graph (stateAfter [Scenario.podEvent Added "p1" Scenario.p1_x;
                              Scenario.podEvent Added "p2" Scenario.p2_x]))
          (reverse (rangePods (podCache
             (stateAfter [Scenario.podEvent Added "p1" Scenario.p1_x;
                          Scenario.podEvent Added "p2" Scenario.p2_x]))))
          Scenario.svc1_x "Service" "svc1" "default" with
  | Ok g1, Ok g2 => Nodes g1 = Nodes g2 ∧ edgeIds g1 ≡ₚ edgeIds g2
  | Panic, Panic => True
  | _, _ => False
  end.
Proof.
  assert (reachable (stateAfter [Scenario.podEvent Added "p1" Scenario.p1_x;
                                 Scenario.podEvent Added "p2" Scenario.p2_x]))
    as Hreach.
  { apply (reachable_run [Scenario.podEvent Added "p1" Scenario.p1_x;
                          Scenario.podEvent Added "p2" Scenario.p2_x]).
    vm_compute. reflexivity. }
  apply (pod_cache_order_irrelevant _ _ _ _ _ _ _ _ Hreach).
  - by apply reachable_NoDup.
  - reflexivity.
  - apply reverse_Permutation.
Defined.

(** ** The cascade of the watch loop, when it is complete *)

Lemma rangeRemove_hit key i count cells g rel :
  cells !! i = Some rel → involves key rel = true →
  rangeRemove key i (S count) cells g
  = rangeRemove key (S i) count
      (removeInPlace g cells (Source rel) (Target rel) (RelationshipType rel)).2
      (removeInPlace g cells (Source rel) (Target rel) (RelationshipType rel)).1.
Proof.
  intros Hc Hi. cbn [rangeRemove]. rewrite Hc, Hi.
  by destruct (removeInPlace g cells (Source rel) (Target rel)
                 (RelationshipType rel)).
Qed.

Lemma rangeRemove_miss key i count cells g rel :
  cells !! i = Some rel → involves key rel = false →
  rangeRemove key i (S count) cells g = rangeRemove key (S i) count cells g.
Proof. intros Hc Hi. cbn [rangeRemove]. by rewrite Hc, Hi. Qed.

Lemma incident_fresh key (l : list GraphRelationship) r :
  Forall (fun x => involves key x = false) l → involves key r = true →
  (Source r, Target r, RelationshipType r) ∉ (edgeId <$> l).
Proof.
  rewrite Forall_forall. intros Hl Hr (x & Hid & Hx)%list_elem_of_fmap.
  specialize (Hl x Hx).
  rewrite (involves_edgeId key x r) in Hl by (by rewrite <- Hid).
  congruence.
Qed.

(** Once no relationship of the graph involves the key, the rest of the
    loop changes nothing, whatever the cells hold. *)
Lemma rangeRemove_clean key count : ∀ i cells g,
  Forall (fun x => involves key x = false) (Relationships g) →
  rangeRemove key i count cells g = g.
Proof.
  induction count as [|count IH]; intros i cells g Hclean; [done|].
  destruct (cells !! i) as [rel|] eqn:Hc; [|cbn [rangeRemove]; by rewrite Hc].
  destruct (involves key rel) eqn:Hi.
  - rewrite (rangeRemove_hit _ _ _ _ _ _ Hc Hi). unfold removeInPlace.
    pose proof (incident_fresh _ _ _ Hclean Hi) as Hfresh.
    rewrite (RemoveRelationship_absent g _ _ _ Hfresh).
    apply findRel_None in Hfresh. rewrite Hfresh. simpl. by apply IH.
  - rewrite (rangeRemove_miss _ _ _ _ _ _ Hc Hi). by apply IH.
Qed.

Lemma apart_tail key r rs : apart key (r :: rs) → apart key rs.
Proof. intros Ha i r1 r2 H1 H2. by apply (Ha (S i)). Qed.

Lemma apart_head key r1 r2 rs :
  apart key (r1 :: r2 :: rs) → involves key r1 = true → involves key r2 = false.
Proof. intros Ha. by apply (Ha 0%nat). Qed.

Lemma rangeRemove_apart key n : ∀ todo done stale g,
  (length todo ≤ n)%nat →
  Relationships g = done ++ todo →
  Forall (fun x => involves key x = false) done →
  apart key todo →
  Relationships
    (rangeRemove key (length done) (length todo + length stale)
       (done ++ todo ++ stale) g)
  = done ++ dropIncident key todo.
Proof.
  induction n as [|n IH]; intros todo done stale g Hlen Hg Hdone Hapart.
  - destruct todo; [|simpl in Hlen; lia].
    rewrite rangeRemove_clean; [done|]. by rewrite Hg, app_nil_r.
  - destruct todo as [|x rest].
    { rewrite rangeRemove_clean; [done|]. by rewrite Hg, app_nil_r. }
    assert ((done ++ (x :: rest) ++ stale) !! length done = Some x) as Hc
      by (by apply list_lookup_middle).
    change (length (x :: rest) + length stale)%nat
      with (S (length rest + length stale)).
    destruct (involves key x) eqn:Hi.
    + rewrite (rangeRemove_hit _ _ _ _ _ _ Hc Hi). unfold removeInPlace.
      pose proof (incident_fresh _ _ _ Hdone Hi) as Hfresh.
      rewrite (RemoveRelationship_present g _ _ _ done x rest Hg eq_refl Hfresh).
      rewrite Hg, (findRel_first _ _ _ done x rest eq_refl Hfresh).
      cbn [fst snd].
      destruct (shiftCells_middle done rest stale x) as [y Hs].
      rewrite <- (app_assoc done (x :: rest) stale) in Hs. rewrite Hs.
      unfold dropIncident. rewrite filter_cons_False by (simpl; congruence).
      destruct rest as [|r2 rest'].
      * rewrite rangeRemove_clean; [by rewrite filter_nil|].
        simpl. by rewrite app_nil_r.
      * pose proof (apart_head _ _ _ _ Hapart Hi) as Hr2.
        rewrite filter_cons_True by done.
        specialize (IH rest' (done ++ [r2]) (y :: stale)
                      (mkGraph (Nodes g) (done ++ r2 :: rest') (incr (revision g)))).
        rewrite length_app in IH. simpl in IH.
        replace (length done + 1)%nat with (S (length done)) in IH by lia.
        replace (length rest' + S (length stale))%nat
          with (S (length rest') + length stale)%nat in IH by lia.
        rewrite <- !app_assoc in IH. simpl in IH. rewrite <- !app_assoc.
        simpl. apply IH.
        -- simpl in Hlen. lia.
        -- done.
        -- apply Forall_app. split; [done|]. by constructor.
        -- by do 2 apply apart_tail in Hapart.
    + rewrite (rangeRemove_miss _ _ _ _ _ _ Hc Hi).
      unfold dropIncident. rewrite filter_cons_True by done.
      specialize (IH rest (done ++ [x]) stale g).
      rewrite length_app in IH. simpl in IH.
      replace (length done + 1)%nat with (S (length done)) in IH by lia.
      rewrite <- !app_assoc in IH. simpl in IH. apply IH.
      * simpl in Hlen. lia.
      * done.
      * apply Forall_app. split; [done|]. by constructor.
      * by apply apart_tail in Hapart.
Qed.

Lemma removeResourceRelationships_dropIncident g key :
  apart key (Relationships g) →
  Relationships (removeResourceRelationships g key)
  = dropIncident key (Relationships g).
Proof.
  intros Hapart. unfold removeResourceRelationships.
  pose proof (rangeRemove_apart key (length (Relationships g))
                (Relationships g) [] [] g) as H.
  simpl in H. rewrite Nat.add_0_r, app_nil_r in H. by apply H.
Qed.

(** X17 (when the cascade of the watch loop is complete).  When no two
    neighbours of the relationship slice both have the key as source or
    target, [removeResourceRelationships] removes every relationship
    that involves the key and no other: it leaves what [RemoveNode]'s
    own loop would leave, although it ranges over the slice it is
    shrinking. *)
Theorem removeResourceRelationships_apart (g : Graph) (key : EntityKey) :
  apart key (Relationships g) →
  Nodes (removeResourceRelationships g key) = Nodes g ∧
  Relationships (removeResourceRelationships g key)
  = dropIncident key (Relationships g).
Proof.
  intros Hapart.
  split; [apply Nodes_rangeRemove | by apply removeResourceRelationships_dropIncident].
Qed.

Lemma removeResourceRelationships_apart_witness :
  Nodes (removeResourceRelationships
           (mkGraph []
              [mkRel Scenario.p1 Scenario.n1 "runs_on" None 1;
               mkRel Scenario.svc1 Scenario.p2 "targets" None 1;
               mkRel Scenario.p1 Scenario.rs1 "owned_by" None 1;
               mkRel Scenario.p2 Scenario.n1 "runs_on" None 1;
               mkRel Scenario.svc1 Scenario.p1 "targets" None 1] 6)
           Scenario.p1) = [] ∧
  Relationships (removeResourceRelationships
           (mkGraph []
              [mkRel Scenario.p1 Scenario.n1 "runs_on" None 1;
               mkRel Scenario.svc1 Scenario.p2 "targets" None 1;
               mkRel Scenario.p1 Scenario.rs1 "owned_by" None 1;
               mkRel Scenario.p2 Scenario.n1 "runs_on" None 1;
               mkRel Scenario.svc1 Scenario.p1 "targets" None 1] 6)
           Scenario.p1)
  = dropIncident Scenario.p1
      [mkRel Scenario.p1 Scenario.n1 "runs_on" None 1;
       mkRel Scenario.svc1 Scenario.p2 "targets" None 1;
       mkRel Scenario.p1 Scenario.rs1 "owned_by" None 1;
       mkRel Scenario.p2 Scenario.n1 "runs_on" None 1;
       mkRel Scenario.svc1 Scenario.p1 "targets" None 1].
Proof.
  apply (removeResourceRelationships_apart
           (mkGraph []
              [mkRel Scenario.p1 Scenario.n1 "runs_on" None 1;
               mkRel Scenario.svc1 Scenario.p2 "targets" None 1;
               mkRel Scenario.p1 Scenario.rs1 "owned_by" None 1;
               mkRel Scenario.p2 Scenario.n1 "runs_on" None 1;
               mkRel Scenario.svc1 Scenario.p1 "targets" None 1] 6)
           Scenario.p1).
  intros i r1 r2 H1 H2.
  do 5 (destruct i as [|i];
        [simpl in H1, H2; try discriminate;
         injection H1 as <-; injection H2 as <-; vm_compute; done|]).
  done.
Defined.

Lemma dropIncident_clean key rs :
  Forall (fun rel => involves key rel = false) (dropIncident key rs).
Proof.
  apply Forall_forall. intros rel Hin.
  by apply list_elem_of_filter in Hin as [? _].
Qed.

(** X18 (a [Deleted] event that clears its entity).  In a reachable
    state, when a [Deleted] event arrives for an object
    [objectToGraphNode] accepts, with the key the watch loop builds
    from its metadata, and no two neighbours of the relationship slice
    both involve that key, the event is processed without a panic and
    leaves no node with the key and no relationship with the key as
    source or target; every other relationship stays, in its place, and
    a pod leaves the pod cache. *)
Theorem deleted_clears_entity (st : State) (e : Event)
    (u metadata : gmap string Value) (name namespace : string)
    (node : GraphNode) :
  reachable st →
  evType e = Deleted →
  evUnstructured e = Some u →
  u !! "metadata" = Some (VMap metadata) →
  metadata !! "name" = Some (VString name) →
  namespaceOf metadata = Ok namespace →
  objectToGraphNode (evObject e) = Ok (Some node) →
  Key node = mkKey name namespace (resourceType e) →
  apart (Key node) (Relationships (graph st)) →
  ∃ st',
    handleEvent st e = Ok st' ∧
    (Key node ∉ nodeKeys (graph st')) ∧
    Relationships (graph st')
      = dropIncident (Key node) (Relationships (graph st)) ∧
    (resourceType e = "Pod" →
     podCache st' = delete (cacheKey namespace name) (podCache st)).
Proof.
  intros Hreach.
  assert (NoDup (nodeKeys (graph st))) as Hnd.
  { revert st Hreach.
    apply (reachable_nodes (fun ns => NoDup (Key <$> ns)));
      [constructor | apply AddNode_NoDup_keys | apply RemoveNode_NoDup_keys]. }
  intros Hty Hu Hm Hn Hns Ho Hkey Hapart.
  unfold handleEvent.
  rewrite Hu, Hty, (index_Some _ _ _ Hm). simpl.
  rewrite (index_Some _ _ _ Hn). simpl. rewrite Hns. simpl.
  unfold RemoveNode. rewrite Ho. simpl.
  destruct (dropNode (Key node) (Nodes (graph st))) as [ns|] eqn:Hd; simpl.
  - destruct (dropNode_Some _ _ _ Hd) as (l1 & n & l2 & Hg & Hk & Hl1 & ->).
    eexists. split; [done|]. rewrite graph_cacheDelete, <- Hkey. split_and!.
    + unfold nodeKeys, removeResourceRelationships.
      rewrite Nodes_rangeRemove. simpl.
      unfold nodeKeys in Hnd. rewrite Hg, fmap_app, fmap_cons, Hk in Hnd.
      apply NoDup_app in Hnd as (_ & _ & Hnd). apply NoDup_cons in Hnd as [Hl2 _].
      rewrite fmap_app. by intros [?|?]%elem_of_app.
    + by rewrite removeResourceRelationships_dropIncident.
    + intros Hpod. unfold cacheDelete. by rewrite bool_decide_eq_true_2.
  - apply dropNode_None in Hd.
    eexists. split; [done|]. rewrite graph_cacheDelete, <- Hkey. split_and!.
    + unfold nodeKeys, removeResourceRelationships.
      by rewrite Nodes_rangeRemove.
    + unfold removeResourceRelationships.
      rewrite rangeRemove_clean; [done|]. apply dropIncident_clean.
    + intros Hpod. unfold cacheDelete. by rewrite bool_decide_eq_true_2.
Qed.

Lemma deleted_clears_entity_witness :
  ∃ st',
    handleEvent
      (stateAfter [Scenario.podEvent Added "p1" (Scenario.pod "p1" "n1" Scenario.appX []);
             Scenario.podEvent Added "p2" (Scenario.pod "p2" "n1" Scenario.appY []);
                   Scenario.serviceEvent Added "svc1" Scenario.svc1_x])
      (Scenario.podEvent Deleted "p1" (Scenario.pod "p1" "n1" Scenario.appX []))
    = Ok st' ∧
    (Key (mkNode Scenario.p1 {[ "status" := "Running" ]} 1)
       ∉ nodeKeys (graph st')) ∧
    Relationships (graph st')
      = dropIncident (Key (mkNode Scenario.p1 {[ "status" := "Running" ]} 1))
          (Relationships (graph (stateAfter
             [Scenario.podEvent Added "p1" (Scenario.pod "p1" "n1" Scenario.appX []);
             Scenario.podEvent Added "p2" (Scenario.pod "p2" "n1" Scenario.appY []);
              Scenario.serviceEvent Added "svc1" Scenario.svc1_x]))) ∧
    (resourceType
       (Scenario.podEvent Deleted "p1" (Scenario.pod "p1" "n1" Scenario.appX []))
     = "Pod" →
     podCache st'
     = delete (cacheKey "default" "p1")
         (podCache (stateAfter
            [Scenario.podEvent Added "p1" (Scenario.pod "p1" "n1" Scenario.appX []);
             Scenario.podEvent Added "p2" (Scenario.pod "p2" "n1" Scenario.appY []);
             Scenario.serviceEvent Added "svc1" Scenario.svc1_x]))).
Proof.
  assert (reachable (stateAfter
            [Scenario.podEvent Added "p1" (Scenario.pod "p1" "n1" Scenario.appX []);
             Scenario.podEvent Added "p2" (Scenario.pod "p2" "n1" Scenario.appY []);
             Scenario.serviceEvent Added "svc1" Scenario.svc1_x])) as Hreach.
  { apply (reachable_run
             [Scenario.podEvent Added "p1" (Scenario.pod "p1" "n1" Scenario.appX []);
             Scenario.podEvent Added "p2" (Scenario.pod "p2" "n1" Scenario.appY []);
              Scenario.serviceEvent Added "svc1" Scenario.svc1_x]).
    vm_compute. reflexivity. }
  assert (Relationships (graph (stateAfter
            [Scenario.podEvent Added "p1" (Scenario.pod "p1" "n1" Scenario.appX []);
             Scenario.podEvent Added "p2" (Scenario.pod "p2" "n1" Scenario.appY []);
             Scenario.serviceEvent Added "svc1" Scenario.svc1_x]))
          = [mkRel Scenario.p1 Scenario.n1 "runs_on" None 1;
             mkRel Scenario.p2 Scenario.n1 "runs_on" None 1;
             mkRel Scenario.svc1 Scenario.p1 "targets" None 1]) as Hrel
    by (vm_compute; reflexivity).
  apply (deleted_clears_entity _
           (Scenario.podEvent Deleted "p1" (Scenario.pod "p1" "n1" Scenario.appX []))
           (Scenario.pod "p1" "n1" Scenario.appX [])
           (<["name" := VString "p1"]>
            (<["namespace" := VString "default"]>
             {[ "labels" := VMap Scenario.appX ]}))
           "p1" "default"
           (mkNode Scenario.p1 {[ "status" := "Running" ]} 1) Hreach);
    try (vm_compute; reflexivity).
  rewrite Hrel. clear Hrel Hreach. intros i r1 r2 H1 H2.
  destruct i as [|[|[|i]]]; simpl in H1, H2; try discriminate;
    injection H1 as <-; injection H2 as <-; vm_compute; done.
Defined.

(** ** The pod-only main program *)

Lemma sameNameNs_true a b :
  PodsOnly.sameNameNs a b = true
  ↔ (Name a, Namespace a) = (Name b, Namespace b).
Proof.
  unfold PodsOnly.sameNameNs.
  rewrite andb_true_iff, !bool_decide_eq_true. split.
  - by intros [-> ->].
  - by intros [= -> ->].
Qed.

Lemma sameNameNs_false a b :
  PodsOnly.sameNameNs a b = false
  ↔ (Name a, Namespace a) ≠ (Name b, Namespace b).
Proof.
  rewrite <- sameNameNs_true.
  destruct (PodsOnly.sameNameNs a b); split; congruence.
Qed.

Lemma putNode_names node ns x :
  x ∈ PodsOnly.nameNs (PodsOnly.putNode node ns) →
  x = (Name (Key node), Namespace (Key node)) ∨ x ∈ PodsOnly.nameNs ns.
Proof.
  unfold PodsOnly.nameNs. induction ns as [|a rest IH]; simpl.
  - intros ->%list_elem_of_singleton. by left.
  - destruct (PodsOnly.sameNameNs (Key a) (Key node)) eqn:Hs; simpl.
    + apply sameNameNs_true in Hs. rewrite Hs.
      intros [->|Hin]%elem_of_cons; [by left|]. right. by right.
    + intros [->|Hin]%elem_of_cons; [right; by left|].
      destruct (IH Hin) as [->|Hin']; [by left|]. right. by right.
Qed.

Lemma putNode_NoDup node ns :
  NoDup (PodsOnly.nameNs ns) → NoDup (PodsOnly.nameNs (PodsOnly.putNode node ns)).
Proof.
  induction ns as [|a rest IH]; simpl.
  - intros _. apply NoDup_singleton.
  - intros [Ha Hrest]%NoDup_cons.
    destruct (PodsOnly.sameNameNs (Key a) (Key node)) eqn:Hs.
    + apply sameNameNs_true in Hs. unfold PodsOnly.nameNs. simpl.
      rewrite <- Hs. by apply NoDup_cons.
    + apply sameNameNs_false in Hs.
      change (NoDup ((Name (Key a), Namespace (Key a))
                       :: PodsOnly.nameNs (PodsOnly.putNode node rest))).
      apply NoDup_cons. split; [|by apply IH].
      intros [Heq|Hin]%putNode_names; [congruence | done].
Qed.

Lemma putNode_elem node ns n :
  NoDup (PodsOnly.nameNs ns) →
  n ∈ PodsOnly.putNode node ns ↔
  n = node ∨
  (n ∈ ns ∧ (Name (Key n), Namespace (Key n))
             ≠ (Name (Key node), Namespace (Key node))).
Proof.
  induction ns as [|a rest IH]; simpl.
  - intros _. rewrite list_elem_of_singleton. split; [by left|].
    intros [->|[Hin _]]; [done|]. by apply elem_of_nil in Hin.
  - intros [Ha Hrest]%NoDup_cons.
    assert (∀ m, m ∈ rest →
              (Name (Key m), Namespace (Key m))
              ≠ (Name (Key a), Namespace (Key a))) as Hfresh.
    { intros m Hm Heq. apply Ha. rewrite <- Heq.
      unfold PodsOnly.nameNs. apply list_elem_of_fmap. by exists m. }
    destruct (PodsOnly.sameNameNs (Key a) (Key node)) eqn:Hs.
    + apply sameNameNs_true in Hs. rewrite elem_of_cons. split.
      * intros [->|Hin]; [by left|]. right. split; [by right|].
        rewrite <- Hs. by apply Hfresh.
      * intros [->|[[->|Hin]%elem_of_cons Hne]]; [by left | done | by right].
    + apply sameNameNs_false in Hs. rewrite elem_of_cons, (IH Hrest). split.
      * intros [->|[->|[Hin Hne]]].
        -- right. split; [by left | done].
        -- by left.
        -- right. split; [by right | done].
      * intros [->|[[->|Hin]%elem_of_cons Hne]].
        -- right. by left.
        -- by left.
        -- right. right. done.
Qed.

Lemma PodsOnly_dropNode_sublist node ns :
  PodsOnly.dropNode node ns `sublist_of` ns.
Proof.
  induction ns as [|a rest IH]; simpl; [done|].
  destruct (PodsOnly.sameNameNs (Key a) (Key node)).
  - by apply sublist_cons.
  - by apply sublist_skip.
Qed.

Lemma PodsOnly_dropNode_elem node ns n :
  NoDup (PodsOnly.nameNs ns) →
  n ∈ PodsOnly.dropNode node ns ↔
  n ∈ ns ∧ (Name (Key n), Namespace (Key n))
           ≠ (Name (Key node), Namespace (Key node)).
Proof.
  induction ns as [|a rest IH]; simpl.
  - intros _. split; [|by intros [? _]]. intros Hin. by apply elem_of_nil in Hin.
  - intros [Ha Hrest]%NoDup_cons.
    assert (∀ m, m ∈ rest →
              (Name (Key m), Namespace (Key m))
              ≠ (Name (Key a), Namespace (Key a))) as Hfresh.
    { intros m Hm Heq. apply Ha. rewrite <- Heq.
      unfold PodsOnly.nameNs. apply list_elem_of_fmap. by exists m. }
    destruct (PodsOnly.sameNameNs (Key a) (Key node)) eqn:Hs.
    + apply sameNameNs_true in Hs. split.
      * intros Hin. split; [by right|]. rewrite <- Hs. by apply Hfresh.
      * by intros [[->|Hin]%elem_of_cons Hne].
    + apply sameNameNs_false in Hs. rewrite elem_of_cons, (IH Hrest). split.
      * intros [->|[Hin Hne]]; (split; [|done]); [by left | by right].
      * intros [[->|Hin]%elem_of_cons Hne]; [by left | by right].
Qed.

(** X19 (one node per pod in the pod-only program).  [watchPods]
    compares nodes by name and namespace.  When no two nodes of the
    graph have the same name and namespace, that is still so after any
    event, whatever its type and object. *)
Theorem watchPods_keeps_names_unique (g : Graph) (t : EventType)
    (obj : option PodObject) :
  NoDup (PodsOnly.nameNs (Nodes g)) →
  NoDup (PodsOnly.nameNs (Nodes (PodsOnly.watchPods g t obj))).
Proof.
  intros Hnd. unfold PodsOnly.watchPods.
  destruct obj as [pod|]; [|done].
  destruct t; simpl; try done.
  - by apply putNode_NoDup.
  - by apply putNode_NoDup.
  - eapply sublist_NoDup; [exact Hnd|].
    unfold PodsOnly.nameNs. apply fmap_sublist, PodsOnly_dropNode_sublist.
Qed.

Lemma watchPods_keeps_names_unique_witness :
  NoDup (PodsOnly.nameNs (Nodes
    (PodsOnly.watchPods
       (PodsOnly.listPods (mkGraph [] [] 0) [mkPod "p1" "default" "Pending" 1])
       Modified (Some (mkPod "p1" "default" "Running" 2))))).
Proof.
  apply watchPods_keeps_names_unique.
  vm_compute. apply NoDup_singleton.
Defined.

(** X20 (an [Added] or [Modified] pod in the pod-only program).  When
    no two nodes have the same name and namespace, the nodes after an
    [Added] or [Modified] event for a pod are the node
    [PodToGraphNode] builds from the pod, whose revision is the pod's
    generation, and the nodes of every other name or namespace that
    were there before: a node that had the pod's name and namespace is
    replaced. *)
Theorem watchPods_upsert (g : Graph) (t : EventType) (pod : PodObject)
    (n : GraphNode) :
  t = Added ∨ t = Modified →
  NoDup (PodsOnly.nameNs (Nodes g)) →
  n ∈ Nodes (PodsOnly.watchPods g t (Some pod)) ↔
  n = mkNode (mkKey (podName pod) (podNamespace pod) "Pod")
        {[ "status" := podPhase pod ]} (podGeneration pod) ∨
  (n ∈ Nodes g ∧
   (Name (Key n), Namespace (Key n)) ≠ (podName pod, podNamespace pod)).
Proof.
  intros [-> | ->] Hnd; simpl; by rewrite putNode_elem.
Qed.

Lemma watchPods_upsert_witness :
  mkNode (mkKey "p1" "default" "Pod") {[ "status" := "Running" ]} 2
    ∈ Nodes (PodsOnly.watchPods
               (PodsOnly.listPods (mkGraph [] [] 0)
                  [mkPod "p1" "default" "Pending" 1])
               Modified (Some (mkPod "p1" "default" "Running" 2))) ↔
  mkNode (mkKey "p1" "default" "Pod") {[ "status" := "Running" ]} 2
  = mkNode (mkKey (podName (mkPod "p1" "default" "Running" 2))
              (podNamespace (mkPod "p1" "default" "Running" 2)) "Pod")
      {[ "status" := podPhase (mkPod "p1" "default" "Running" 2) ]}
      (podGeneration (mkPod "p1" "default" "Running" 2)) ∨
  (mkNode (mkKey "p1" "default" "Pod") {[ "status" := "Running" ]} 2
     ∈ Nodes (PodsOnly.listPods (mkGraph [] [] 0)
                [mkPod "p1" "default" "Pending" 1]) ∧
   (Name (Key (mkNode (mkKey "p1" "default" "Pod")
                 {[ "status" := "Running" ]} 2)),
    Namespace (Key (mkNode (mkKey "p1" "default" "Pod")
                      {[ "status" := "Running" ]} 2)))
   ≠ (podName (mkPod "p1" "default" "Running" 2),
      podNamespace (mkPod "p1" "default" "Running" 2))).
Proof.
  apply watchPods_upsert.
  - right. reflexivity.
  - vm_compute. apply NoDup_singleton.
Defined.

(** X21 (a [Deleted] pod in the pod-only program).  When no two nodes
    have the same name and namespace, the nodes after a [Deleted] event
    for a pod are the nodes of every other name or namespace that were
    there before: no node with the pod's name and namespace is left. *)
Theorem watchPods_delete (g : Graph) (pod : PodObject) (n : GraphNode) :
  NoDup (PodsOnly.nameNs (Nodes g)) →
  n ∈ Nodes (PodsOnly.watchPods g Deleted (Some pod)) ↔
  n ∈ Nodes g ∧
  (Name (Key n), Namespace (Key n)) ≠ (podName pod, podNamespace pod).
Proof.
  intros Hnd. simpl. by rewrite PodsOnly_dropNode_elem.
Qed.

Lemma watchPods_delete_witness :
  mkNode (mkKey "p1" "default" "Pod") {[ "status" := "Pending" ]} 1
    ∈ Nodes (PodsOnly.watchPods
               (PodsOnly.listPods (mkGraph [] [] 0)
                  [mkPod "p1" "default" "Pending" 1])
               Deleted (Some (mkPod "p1" "default" "Running" 2))) ↔
  mkNode (mkKey "p1" "default" "Pod") {[ "status" := "Pending" ]} 1
    ∈ Nodes (PodsOnly.listPods (mkGraph [] [] 0)
               [mkPod "p1" "default" "Pending" 1]) ∧
  (Name (Key (mkNode (mkKey "p1" "default" "Pod")
                {[ "status" := "Pending" ]} 1)),
   Namespace (Key (mkNode (mkKey "p1" "default" "Pod")
                     {[ "status" := "Pending" ]} 1)))
  ≠ (podName (mkPod "p1" "default" "Running" 2),
     podNamespace (mkPod "p1" "default" "Running" 2)).
Proof.
  apply watchPods_delete.
  vm_compute. apply NoDup_singleton.
Defined.

(** ** The nodes an event leaves alone *)

Lemma filter_other_keys_middle (k : EntityKey) (l1 l2 : list GraphNode) n :
  Key n = k →
  filter (fun m => Key m ≠ k) (l1 ++ n :: l2)
  = filter (fun m => Key m ≠ k) (l1 ++ l2).
Proof.
  intros Hk. rewrite !filter_app. f_equal.
  by rewrite filter_cons_False by (intros Hne; by apply Hne).
Qed.

Lemma AddNode_other_keys g obj g' node :
  AddNode g obj = Ok g' → objectToGraphNode obj = Ok (Some node) →
  filter (fun m => Key m ≠ Key node) (Nodes g')
  = filter (fun m => Key m ≠ Key node) (Nodes g).
Proof.
  unfold AddNode. intros H Ho. rewrite Ho in H. simpl in H.
  destruct (replaceNode node (Nodes g)) as [ns|] eqn:Hr; injection H as <-; simpl.
  - destruct (replaceNode_Some _ _ _ Hr) as (l1 & n & l2 & -> & Hk & _ & ->).
    by rewrite !filter_other_keys_middle.
  - rewrite filter_app.
    rewrite (filter_cons_False _ node) by (intros Hne; by apply Hne).
    by rewrite filter_nil, app_nil_r.
Qed.

Lemma RemoveNode_other_keys g obj g' node :
  RemoveNode g obj = Ok g' → objectToGraphNode obj = Ok (Some node) →
  filter (fun m => Key m ≠ Key node) (Nodes g')
  = filter (fun m => Key m ≠ Key node) (Nodes g).
Proof.
  unfold RemoveNode. intros H Ho. rewrite Ho in H. simpl in H.
  destruct (dropNode (Key node) (Nodes g)) as [ns|] eqn:Hd; injection H as <-;
    simpl; [|done].
  destruct (dropNode_Some _ _ _ Hd) as (l1 & n & l2 & -> & Hk & _ & ->).
  by rewrite filter_other_keys_middle.
Qed.

(** X22 (an event touches one node at most).  When the watch loop has
    processed an event, of whatever type, every node whose key is not
    the key [objectToGraphNode] gives the event's object is where it
    was, unchanged; and when [objectToGraphNode] does not accept the
    object, the node slice is as it was. *)
Theorem event_touches_one_node (st st' : State) (e : Event) :
  handleEvent st e = Ok st' →
  match objectToGraphNode (evObject e) with
  | Ok (Some node) =>
      filter (fun m => Key m ≠ Key node) (Nodes (graph st'))
      = filter (fun m => Key m ≠ Key node) (Nodes (graph st))
  | _ => Nodes (graph st') = Nodes (graph st)
  end.
Proof.
  unfold handleEvent, UpdateNode. intros H.
  assert (∀ g1 g2 : Graph,
            Nodes g2 = Nodes g1 →
            (AddNode (graph st) (evObject e) = Ok g1
             ∨ RemoveNode (graph st) (evObject e) = Ok g1) →
            match objectToGraphNode (evObject e) with
            | Ok (Some node) =>
                filter (fun m => Key m ≠ Key node) (Nodes g2)
                = filter (fun m => Key m ≠ Key node) (Nodes (graph st))
            | _ => Nodes g2 = Nodes (graph st)
            end) as Hstep.
  { intros g1 g2 -> Hg1.
    destruct (objectToGraphNode (evObject e)) as [[node|]|] eqn:Ho.
    - destruct Hg1 as [Hg1|Hg1];
        [by eapply AddNode_other_keys | by eapply RemoveNode_other_keys].
    - unfold AddNode, RemoveNode in Hg1. rewrite Ho in Hg1.
      by destruct Hg1 as [[= <-]|[= <-]].
    - unfold AddNode, RemoveNode in Hg1. rewrite Ho in Hg1.
      by destruct Hg1. }
  assert (match objectToGraphNode (evObject e) with
          | Ok (Some node) =>
              filter (fun m => Key m ≠ Key node) (Nodes (graph st))
              = filter (fun m => Key m ≠ Key node) (Nodes (graph st))
          | _ => Nodes (graph st) = Nodes (graph st)
          end) as Hsame by (by destruct (objectToGraphNode _) as [[?|]|]).
  destruct (evUnstructured e) as [u|]; [|by injection H as <-].
  destruct (asMap (index u "metadata")) as [metadata|]; [simpl in H|done].
  destruct (asString (index metadata "name")) as [name|]; [simpl in H|done].
  destruct (namespaceOf metadata) as [namespace|]; [simpl in H|done].
  destruct (evType e); try by injection H as <-.
  1,2: destruct (AddNode (graph st) (evObject e)) as [g1|] eqn:Hg1;
    [simpl in H|done];
    destruct (updateRelationships g1 _ _ _ _ _) as [g2|] eqn:Hg2;
    [simpl in H|done];
    injection H as <-; rewrite graph_cachePut;
    apply (Hstep g1 g2); [|by left];
    apply (edgeUpdate_Nodes _ _ _ (edgeUpdate_updateRelationships _ _ _ _ _) Hg2).
  destruct (RemoveNode (graph st) (evObject e)) as [g1|] eqn:Hg1; [simpl in H|done].
  injection H as <-. rewrite graph_cacheDelete.
  apply (Hstep g1); [|by right].
  unfold removeResourceRelationships. apply Nodes_rangeRemove.
Qed.

Lemma event_touches_one_node_witness :
  match objectToGraphNode
          (evObject (Scenario.podEvent Modified "p1" Scenario.p1_y)) with
  | Ok (Some node) =>
      filter (fun m => Key m ≠ Key node)
        (Nodes (graph (stateAfter
           [Scenario.podEvent Added "p1" Scenario.p1_x;
            Scenario.serviceEvent Added "svc1" Scenario.svc1_x;
            Scenario.podEvent Modified "p1" Scenario.p1_y])))
      = filter (fun m => Key m ≠ Key node)
          (Nodes (graph (stateAfter
             [Scenario.podEvent Added "p1" Scenario.p1_x;
              Scenario.serviceEvent Added "svc1" Scenario.svc1_x])))
  | _ =>
      Nodes (graph (stateAfter
        [Scenario.podEvent Added "p1" Scenario.p1_x;
         Scenario.serviceEvent Added "svc1" Scenario.svc1_x;
         Scenario.podEvent Modified "p1" Scenario.p1_y]))
      = Nodes (graph (stateAfter
          [Scenario.podEvent Added "p1" Scenario.p1_x;
           Scenario.serviceEvent Added "svc1" Scenario.svc1_x]))
  end.
Proof.
  apply (event_touches_one_node
           (stateAfter [Scenario.podEvent Added "p1" Scenario.p1_x;
                        Scenario.serviceEvent Added "svc1" Scenario.svc1_x])
           (stateAfter [Scenario.podEvent Added "p1" Scenario.p1_x;
                        Scenario.serviceEvent Added "svc1" Scenario.svc1_x;
                        Scenario.podEvent Modified "p1" Scenario.p1_y])
           (Scenario.podEvent Modified "p1" Scenario.p1_y)).
  vm_compute. reflexivity.
Defined.
